(** * go-bdf: a shallow embedding of [bdf.go] and its specification

    The development follows the Go source function by function:
    - the Go runtime and library behaviour the parser relies on
      (fixed-width integers, slices, [strings], [strconv],
      [encoding/hex], [bufio.Scanner]) in module [Go], and the two
      external packages in modules [charmap] and [fixed];
    - the data model ([Character], [Font]);
    - the parser ([parseGlobalsAndProperties], [Parse]) as explicit state
      passing over the lines the scanner yields;
    - the query layer ([lookup], [GlyphBounds], ...).

    A Go call has three outcomes: it returns normally, it returns a
    non-nil [error], or it panics (index out of range, nil dereference,
    ...).  The three are kept apart in [result]. *)

From stdpp Require Import base gmap list strings.
From Stdlib Require Import ZArith Lia Ascii.

Open Scope string_scope.
Open Scope Z_scope.

(* ================================================================== *)
(** ** Go runtime and library model *)
(* ================================================================== *)

Module Go.

(** Run-time panics raised by the operations [bdf.go] uses. *)
Inductive panic : Set :=
| IndexOutOfRange      (* slice or array index out of range *)
| NilDereference       (* invalid memory address or nil pointer dereference *)
| DivideByZero         (* integer divide by zero *)
| NegativeShift        (* negative shift amount *)
| MakeSliceLen.        (* makeslice: len out of range *)

(** [strconv.NumError.Err] is one of two sentinel errors. *)
Inductive numerr : Set := ErrSyntax | ErrRange.

(** The [error] values that reach [Parse]'s caller: a [*strconv.NumError]
    carrying the function name and the offending token, or one of the
    two errors of [encoding/hex]. *)
Inductive error : Set :=
| NumError (Func Num : string) (Err : numerr)
| InvalidByteError (b : ascii)
| ErrLength.

Inductive result (A : Type) : Type :=
| Ok (a : A)
| Err (e : error)
| Panic (p : panic).

Arguments Ok {A} a.
Arguments Err {A} e.
Arguments Panic {A} p.

Definition bind {A B} (r : result A) (k : A -> result B) : result B :=
  match r with
  | Ok a => k a
  | Err e => Err e
  | Panic p => Panic p
  end.

Definition isOk {A} (r : result A) : bool :=
  match r with Ok _ => true | _ => false end.

(** *** Fixed-width integers *)

(** [int] is 64 bits wide on the platforms considered; [rune] and
    [fixed.Int26_6] are [int32]; [byte] is [uint8]. *)
Definition wrap (bits : Z) (z : Z) : Z :=
  (z + 2 ^ (bits - 1)) mod 2 ^ bits - 2 ^ (bits - 1).

Definition int (z : Z) : Z := wrap 64 z.
Definition int32 (z : Z) : Z := wrap 32 z.
Definition rune (z : Z) : Z := int32 z.
Definition byte (z : Z) : Z := Z.land z 255.
Definition uint32 (z : Z) : Z := z mod 2 ^ 32.

Definition minInt64 : Z := - 2 ^ 63.
Definition maxInt64 : Z := 2 ^ 63 - 1.
Definition maxUint64 : Z := 2 ^ 64 - 1.

(** [runtime.maxAlloc] on 64-bit Linux: [make] panics beyond it; below
    it the allocation is taken to succeed. *)
Definition maxAlloc : Z := 2 ^ 48.

(** [make([]T, n)] for an element of [elemsize] bytes: the length it
    allocates, or the panic. *)
Definition make_len (elemsize n : Z) : result nat :=
  if (n <? 0) || (maxAlloc <? elemsize * n)
  then Panic MakeSliceLen
  else Ok (Z.to_nat n).

(** *** Slices indexed by an [int] *)

Definition index {A} (xs : list A) (i : Z) : result A :=
  if i <? 0 then Panic IndexOutOfRange
  else match xs !! Z.to_nat i with
       | Some x => Ok x
       | None => Panic IndexOutOfRange
       end.

Definition store {A} (xs : list A) (i : Z) (x : A) : result (list A) :=
  if (i <? 0) || (Z.of_nat (length xs) <=? i) then Panic IndexOutOfRange
  else Ok (<[Z.to_nat i := x]> xs).

(** *** [strings] on byte strings

    Strings are sequences of bytes.  [ToLower] and [TrimSpace] are Go's
    byte-wise paths, which is what Go runs on ASCII input.  On a string
    with a byte above 0x7F Go decodes UTF-8 and consults the Unicode
    tables; these are not part of the model, which leaves such bytes
    alone. *)

Definition code (c : ascii) : Z := Z.of_N (N_of_ascii c).

(** [strings.Split(s, string(sep))] for a one-byte separator: never
    empty, [Split "" = [""]]. *)
Fixpoint SplitByte (sep : ascii) (s : string) : list string :=
  match s with
  | EmptyString => [EmptyString]
  | String c s' =>
      if Ascii.eqb c sep then EmptyString :: SplitByte sep s'
      else match SplitByte sep s' with
           | w :: ws => String c w :: ws
           | [] => [String c EmptyString]
           end
  end.

Definition Split (s : string) : list string := SplitByte " "%char s.

Definition lowerByte (c : ascii) : ascii :=
  if (65 <=? code c) && (code c <=? 90)
  then ascii_of_N (N_of_ascii c + 32) else c.

Fixpoint ToLower (s : string) : string :=
  match s with
  | EmptyString => EmptyString
  | String c s' => String (lowerByte c) (ToLower s')
  end.

(** [asciiSpace]: tab, newline, vertical tab, form feed, carriage
    return, space. *)
Definition asciiSpace (c : ascii) : bool :=
  ((9 <=? code c) && (code c <=? 13)) || (code c =? 32).

Fixpoint TrimLeft (s : string) : string :=
  match s with
  | EmptyString => EmptyString
  | String c s' => if asciiSpace c then TrimLeft s' else s
  end.

Fixpoint TrimRight (s : string) : string :=
  match s with
  | EmptyString => EmptyString
  | String c s' =>
      match TrimRight s' with
      | EmptyString => if asciiSpace c then EmptyString else String c EmptyString
      | t => String c t
      end
  end.

Definition TrimSpace (s : string) : string := TrimRight (TrimLeft s).

(** *** [strconv.Atoi]

    Go returns a value together with the error: 0 on a syntax error, the
    nearest representable value on a range error.  [parseUint] is the
    digit loop of [strconv.ParseUint] in base 10: it stops with a range
    error as soon as the accumulator leaves [uint64], before looking at
    the remaining bytes. *)

Definition isDigit (c : ascii) : bool := (48 <=? code c) && (code c <=? 57).

Fixpoint parseUint (s : string) (n : Z) : Z * option numerr :=
  match s with
  | EmptyString => (n, None)
  | String c s' =>
      if isDigit c then
        if maxUint64 / 10 + 1 <=? n then (maxUint64, Some ErrRange)
        else
          let n1 := n * 10 + (code c - 48) in
          if maxUint64 <? n1 then (maxUint64, Some ErrRange)
          else parseUint s' n1
      else (0, Some ErrSyntax)
  end.

Definition parseInt (s : string) : Z * option numerr :=
  match s with
  | EmptyString => (0, Some ErrSyntax)
  | String c s' =>
      let neg := Ascii.eqb c "-"%char in
      let digits := if neg || Ascii.eqb c "+"%char then s' else s in
      match digits with
      | EmptyString => (0, Some ErrSyntax)
      | _ =>
          match parseUint digits 0 with
          | (_, Some ErrSyntax) => (0, Some ErrSyntax)
          | (un, e) =>
              if negb neg && (2 ^ 63 <=? un) then (maxInt64, Some ErrRange)
              else if neg && (2 ^ 63 <? un) then (minInt64, Some ErrRange)
              else ((if neg then - un else un), e)
          end
      end
  end.

(** [strconv.Atoi(s)]: the value and the error ([None] is [nil]). *)
Definition Atoi (s : string) : Z * option error :=
  let '(v, e) := parseInt s in
  (v, option_map (NumError "Atoi" s) e).

(** *** [hex.DecodeString] *)

Definition fromHexChar (c : ascii) : option Z :=
  let n := code c in
  if (48 <=? n) && (n <=? 57) then Some (n - 48)
  else if (97 <=? n) && (n <=? 102) then Some (n - 97 + 10)
  else if (65 <=? n) && (n <=? 70) then Some (n - 65 + 10)
  else None.

Fixpoint DecodeString (s : string) : result (list Z) :=
  match s with
  | EmptyString => Ok []
  | String p EmptyString =>
      match fromHexChar p with
      | None => Err (InvalidByteError p)
      | Some _ => Err ErrLength
      end
  | String p (String q s') =>
      match fromHexChar p with
      | None => Err (InvalidByteError p)
      | Some a =>
          match fromHexChar q with
          | None => Err (InvalidByteError q)
          | Some b => bind (DecodeString s') (fun bs => Ok (Z.lor (Z.shiftl a 4) b :: bs))
          end
      end
  end.

(** *** [bufio.Scanner] with the default [ScanLines] split function

    The data is cut at every newline, one trailing carriage return is
    dropped from each line, and an empty final piece is not a line.  A
    line that does not fit the scanner's buffer ([MaxScanTokenSize])
    makes [Scan] return false for good; [bdf.go] never looks at
    [Scanner.Err], so for it the input simply ends there. *)

Definition MaxScanTokenSize : Z := 64 * 1024.

Fixpoint dropCR (s : string) : string :=
  match s with
  | EmptyString => EmptyString
  | String c EmptyString => if Ascii.eqb c "013"%char then EmptyString else s
  | String c s' => String c (dropCR s')
  end.

Fixpoint dropFinalEmpty (ls : list string) : list string :=
  match ls with
  | [] => []
  | [l] => if String.eqb l EmptyString then [] else [l]
  | l :: ls' => l :: dropFinalEmpty ls'
  end.

Fixpoint whileFits (ls : list string) : list string :=
  match ls with
  | [] => []
  | l :: ls' =>
      if Z.of_nat (String.length l) <? MaxScanTokenSize then l :: whileFits ls' else []
  end.

Definition ScanLines (data : string) : list string :=
  map dropCR (whileFits (dropFinalEmpty (SplitByte "010"%char data))).

End Go.

Import Go.

Notation "'do' x <- e ; k" := (Go.bind e (fun x => k))
  (at level 10, x name, e at level 100, k at level 200,
   format "'[v' 'do'  x  <-  e ; '/' k ']'").

(* ================================================================== *)
(** ** [golang.org/x/text/encoding/charmap] and [golang.org/x/image/math/fixed] *)
(* ================================================================== *)

Module charmap.

(** The four single-byte character sets [findCharmap] knows. *)
Inductive Charmap : Set := ISO8859_1 | ISO8859_2 | ISO8859_9 | ISO8859_15.

(** Upper half (0xA0 .. 0xFF) of ISO/IEC 8859-2. *)
Definition latin2_upper : list Z :=
  [ 0x00A0; 0x0104; 0x02D8; 0x0141; 0x00A4; 0x013D; 0x015A; 0x00A7;
    0x00A8; 0x0160; 0x015E; 0x0164; 0x0179; 0x00AD; 0x017D; 0x017B;
    0x00B0; 0x0105; 0x02DB; 0x0142; 0x00B4; 0x013E; 0x015B; 0x02C7;
    0x00B8; 0x0161; 0x015F; 0x0165; 0x017A; 0x02DD; 0x017E; 0x017C;
    0x0154; 0x00C1; 0x00C2; 0x0102; 0x00C4; 0x0139; 0x0106; 0x00C7;
    0x010C; 0x00C9; 0x0118; 0x00CB; 0x011A; 0x00CD; 0x00CE; 0x010E;
    0x0110; 0x0143; 0x0147; 0x00D3; 0x00D4; 0x0150; 0x00D6; 0x00D7;
    0x0158; 0x016E; 0x00DA; 0x0170; 0x00DC; 0x00DD; 0x0162; 0x00DF;
    0x0155; 0x00E1; 0x00E2; 0x0103; 0x00E4; 0x013A; 0x0107; 0x00E7;
    0x010D; 0x00E9; 0x0119; 0x00EB; 0x011B; 0x00ED; 0x00EE; 0x010F;
    0x0111; 0x0144; 0x0148; 0x00F3; 0x00F4; 0x0151; 0x00F6; 0x00F7;
    0x0159; 0x016F; 0x00FA; 0x0171; 0x00FC; 0x00FD; 0x0163; 0x02D9 ].

(** The positions where ISO/IEC 8859-9 and 8859-15 leave Latin-1. *)
Definition latin5_diff : list (Z * Z) :=
  [ (0xD0, 0x011E); (0xDD, 0x0130); (0xDE, 0x015E);
    (0xF0, 0x011F); (0xFD, 0x0131); (0xFE, 0x015F) ].

Definition latin9_diff : list (Z * Z) :=
  [ (0xA4, 0x20AC); (0xA6, 0x0160); (0xA8, 0x0161); (0xB4, 0x017D);
    (0xB8, 0x017E); (0xBC, 0x0152); (0xBD, 0x0153); (0xBE, 0x0178) ].

Fixpoint assoc (k : Z) (kvs : list (Z * Z)) (dflt : Z) : Z :=
  match kvs with
  | [] => dflt
  | (k', v) :: kvs' => if k =? k' then v else assoc k kvs' dflt
  end.

(** [Charmap.DecodeByte]: the argument is a [byte], 0 .. 255. *)
Definition DecodeByte (m : Charmap) (b : Z) : Z :=
  match m with
  | ISO8859_1 => b
  | ISO8859_2 => if b <? 0xA0 then b else nth (Z.to_nat (b - 0xA0)) latin2_upper b
  | ISO8859_9 => assoc b latin5_diff b
  | ISO8859_15 => assoc b latin9_diff b
  end.

End charmap.

Module fixed.

(** [fixed.Int26_6] is an [int32]; [fixed.I(i)] is [Int26_6(i << 6)]. *)
Definition I (i : Z) : Z := int32 (int (Z.shiftl i 6)).

Record Point26_6 : Set := { X : Z; Y : Z }.
Record Rectangle26_6 : Set := { Min : Point26_6; Max : Point26_6 }.

(** [fixed.R]: the arguments are put in order before they are scaled. *)
Definition R (minX minY maxX maxY : Z) : Rectangle26_6 :=
  let '(minX, maxX) := if maxX <? minX then (maxX, minX) else (minX, maxX) in
  let '(minY, maxY) := if maxY <? minY then (maxY, minY) else (minY, maxY) in
  {| Min := {| X := I minX; Y := I minY |};
     Max := {| X := I maxX; Y := I maxY |} |}.

End fixed.

(* ================================================================== *)
(** ** Data model *)
(* ================================================================== *)

(** [image.Alpha], as far as [bdf.go] uses it: [Rect.Min] stays the zero
    point, [RectMax] is [Rect.Max]. *)
Record Alpha : Set := {
  Pix : list Z;
  Stride : Z;
  RectMax : Z * Z
}.

(** [(image.Rectangle).Dx] for a rectangle whose [Min] is the origin. *)
Definition Dx (a : Alpha) : Z := int ((RectMax a).1 - 0).

Record Character : Set := {
  Name : string;
  Encoding : Z;                  (* rune *)
  Advance : Z * Z;               (* [2]int *)
  AlphaOf : option Alpha;        (* *image.Alpha, None is nil *)
  LowerPoint : Z * Z             (* [2]int *)
}.

(** The zero value [make([]Character, n)] fills the slice with. *)
Definition zeroCharacter : Character :=
  {| Name := ""; Encoding := 0; Advance := (0, 0);
     AlphaOf := None; LowerPoint := (0, 0) |}.

(** [unsafe.Sizeof(Character{})] on a 64-bit platform. *)
Definition sizeofCharacter : Z := 64.

(** A [*Character] handed out by [Parse] always points into the backing
    array of [Font.Characters]; it is modelled by the slot's index, so
    that a later write to the slot is seen through the pointer. *)
Record Font : Type := {
  FontName : string;
  Size : Z;
  PixelSize : Z;
  DPI : Z * Z;
  BPP : Z;
  Ascent : Z;
  Descent : Z;
  CapHeight : Z;
  XHeight : Z;
  Characters : list Character;
  CharMap : gmap Z nat;          (* map[rune]*Character *)
  FontEncoding : string;
  DefaultChar : Z                (* rune *)
}.

Record Face : Type := { FaceFont : Font }.

Definition NewFace (f : Font) : Face := {| FaceFont := f |}.

(** Field assignments. *)
Definition setPix (a : Alpha) (p : list Z) : Alpha :=
  {| Pix := p; Stride := Stride a; RectMax := RectMax a |}.

Definition setName (c : Character) (n : string) : Character :=
  {| Name := n; Encoding := Encoding c; Advance := Advance c;
     AlphaOf := AlphaOf c; LowerPoint := LowerPoint c |}.
Definition setEncoding (c : Character) (r : Z) : Character :=
  {| Name := Name c; Encoding := r; Advance := Advance c;
     AlphaOf := AlphaOf c; LowerPoint := LowerPoint c |}.
Definition setAdvance (c : Character) (a : Z * Z) : Character :=
  {| Name := Name c; Encoding := Encoding c; Advance := a;
     AlphaOf := AlphaOf c; LowerPoint := LowerPoint c |}.
Definition setAlpha (c : Character) (a : option Alpha) : Character :=
  {| Name := Name c; Encoding := Encoding c; Advance := Advance c;
     AlphaOf := a; LowerPoint := LowerPoint c |}.
Definition setLowerPoint (c : Character) (p : Z * Z) : Character :=
  {| Name := Name c; Encoding := Encoding c; Advance := Advance c;
     AlphaOf := AlphaOf c; LowerPoint := p |}.

Definition setFontName (f : Font) (v : string) : Font :=
  {| FontName := v; Size := Size f; PixelSize := PixelSize f; DPI := DPI f;
     BPP := BPP f; Ascent := Ascent f; Descent := Descent f;
     CapHeight := CapHeight f; XHeight := XHeight f;
     Characters := Characters f; CharMap := CharMap f;
     FontEncoding := FontEncoding f; DefaultChar := DefaultChar f |}.
Definition setSize (f : Font) (v : Z) : Font :=
  {| FontName := FontName f; Size := v; PixelSize := PixelSize f; DPI := DPI f;
     BPP := BPP f; Ascent := Ascent f; Descent := Descent f;
     CapHeight := CapHeight f; XHeight := XHeight f;
     Characters := Characters f; CharMap := CharMap f;
     FontEncoding := FontEncoding f; DefaultChar := DefaultChar f |}.
Definition setPixelSize (f : Font) (v : Z) : Font :=
  {| FontName := FontName f; Size := Size f; PixelSize := v; DPI := DPI f;
     BPP := BPP f; Ascent := Ascent f; Descent := Descent f;
     CapHeight := CapHeight f; XHeight := XHeight f;
     Characters := Characters f; CharMap := CharMap f;
     FontEncoding := FontEncoding f; DefaultChar := DefaultChar f |}.
Definition setDPI (f : Font) (v : Z * Z) : Font :=
  {| FontName := FontName f; Size := Size f; PixelSize := PixelSize f; DPI := v;
     BPP := BPP f; Ascent := Ascent f; Descent := Descent f;
     CapHeight := CapHeight f; XHeight := XHeight f;
     Characters := Characters f; CharMap := CharMap f;
     FontEncoding := FontEncoding f; DefaultChar := DefaultChar f |}.
Definition setBPP (f : Font) (v : Z) : Font :=
  {| FontName := FontName f; Size := Size f; PixelSize := PixelSize f; DPI := DPI f;
     BPP := v; Ascent := Ascent f; Descent := Descent f;
     CapHeight := CapHeight f; XHeight := XHeight f;
     Characters := Characters f; CharMap := CharMap f;
     FontEncoding := FontEncoding f; DefaultChar := DefaultChar f |}.
Definition setAscent (f : Font) (v : Z) : Font :=
  {| FontName := FontName f; Size := Size f; PixelSize := PixelSize f; DPI := DPI f;
     BPP := BPP f; Ascent := v; Descent := Descent f;
     CapHeight := CapHeight f; XHeight := XHeight f;
     Characters := Characters f; CharMap := CharMap f;
     FontEncoding := FontEncoding f; DefaultChar := DefaultChar f |}.
Definition setDescent (f : Font) (v : Z) : Font :=
  {| FontName := FontName f; Size := Size f; PixelSize := PixelSize f; DPI := DPI f;
     BPP := BPP f; Ascent := Ascent f; Descent := v;
     CapHeight := CapHeight f; XHeight := XHeight f;
     Characters := Characters f; CharMap := CharMap f;
     FontEncoding := FontEncoding f; DefaultChar := DefaultChar f |}.
Definition setCapHeight (f : Font) (v : Z) : Font :=
  {| FontName := FontName f; Size := Size f; PixelSize := PixelSize f; DPI := DPI f;
     BPP := BPP f; Ascent := Ascent f; Descent := Descent f;
     CapHeight := v; XHeight := XHeight f;
     Characters := Characters f; CharMap := CharMap f;
     FontEncoding := FontEncoding f; DefaultChar := DefaultChar f |}.
Definition setXHeight (f : Font) (v : Z) : Font :=
  {| FontName := FontName f; Size := Size f; PixelSize := PixelSize f; DPI := DPI f;
     BPP := BPP f; Ascent := Ascent f; Descent := Descent f;
     CapHeight := CapHeight f; XHeight := v;
     Characters := Characters f; CharMap := CharMap f;
     FontEncoding := FontEncoding f; DefaultChar := DefaultChar f |}.
Definition setCharacters (f : Font) (v : list Character) : Font :=
  {| FontName := FontName f; Size := Size f; PixelSize := PixelSize f; DPI := DPI f;
     BPP := BPP f; Ascent := Ascent f; Descent := Descent f;
     CapHeight := CapHeight f; XHeight := XHeight f;
     Characters := v; CharMap := CharMap f;
     FontEncoding := FontEncoding f; DefaultChar := DefaultChar f |}.
Definition setCharMap (f : Font) (v : gmap Z nat) : Font :=
  {| FontName := FontName f; Size := Size f; PixelSize := PixelSize f; DPI := DPI f;
     BPP := BPP f; Ascent := Ascent f; Descent := Descent f;
     CapHeight := CapHeight f; XHeight := XHeight f;
     Characters := Characters f; CharMap := v;
     FontEncoding := FontEncoding f; DefaultChar := DefaultChar f |}.
Definition setFontEncoding (f : Font) (v : string) : Font :=
  {| FontName := FontName f; Size := Size f; PixelSize := PixelSize f; DPI := DPI f;
     BPP := BPP f; Ascent := Ascent f; Descent := Descent f;
     CapHeight := CapHeight f; XHeight := XHeight f;
     Characters := Characters f; CharMap := CharMap f;
     FontEncoding := v; DefaultChar := DefaultChar f |}.
Definition setDefaultChar (f : Font) (v : Z) : Font :=
  {| FontName := FontName f; Size := Size f; PixelSize := PixelSize f; DPI := DPI f;
     BPP := BPP f; Ascent := Ascent f; Descent := Descent f;
     CapHeight := CapHeight f; XHeight := XHeight f;
     Characters := Characters f; CharMap := CharMap f;
     FontEncoding := FontEncoding f; DefaultChar := v |}.

(* ================================================================== *)
(** ** Charmap resolver: [findCharmap], [charToRune] *)
(* ================================================================== *)

Import charmap.

(** The entries of the map literal [knownMaps]. *)
Definition knownCharsets : list (string * Charmap) :=
  [ ("iso8859-1", ISO8859_1);
    ("iso8859-2", ISO8859_2);
    ("iso8859-9", ISO8859_9);
    ("iso8859-15", ISO8859_15) ].

Definition knownMaps : gmap string Charmap := list_to_map knownCharsets.

(** [None] is the nil [*charmap.Charmap] a Go map returns for a missing
    key. *)
Definition findCharmap (requested : string) : option Charmap :=
  let trimmed := TrimSpace (ToLower requested) in
  knownMaps !! trimmed.

Definition charToRune (encoding : string) (char : Z) : Z :=
  match findCharmap encoding with
  | Some charMap => DecodeByte charMap (byte char)
  | None => rune char
  end.

(* ================================================================== *)
(** ** Query layer, part 1: [lookup] *)
(* ================================================================== *)

(** The result is the [*Character]; [None] is [nil]. *)
Definition lookup (f : Font) (r : Z) : option nat :=
  match CharMap f !! r with
  | Some c => Some c
  | None =>
      match CharMap f !! DefaultChar f with
      | Some c => Some c
      | None => None
      end
  end.

(** Reading through a [*Character].  The pointers [Parse] stores never
    dangle ([Parse_pointers_valid] below); the second case only makes
    the function total on arbitrary records. *)
Definition deref (f : Font) (c : nat) : result Character :=
  match Characters f !! c with
  | Some ch => Ok ch
  | None => Panic NilDereference
  end.

(* ================================================================== *)
(** ** Parser, phase 1: [parseGlobalsAndProperties] *)
(* ================================================================== *)

(** [v, err = strconv.Atoi(tok); if err != nil { return err }] *)
Definition checked (ve : Z * option error) : result Z :=
  match ve with
  | (v, None) => Ok v
  | (_, Some e) => Err e
  end.

(** [components[0]]; [strings.Split] never returns an empty slice. *)
Definition keyword (components : list string) : string := hd "" components.

(** The function's local variables. *)
Record globals : Set := {
  registry : string;
  encoding : string;
  defaultChar : Z
}.

(** One turn of the [scan:] loop.  The boolean is [true] after
    [break scan]. *)
Definition globalsLine (line : string) (f : Font) (g : globals)
  : result (Font * globals * bool) :=
  let components := Split line in
  let kw := keyword components in
  if (kw =? "FONT")%string then
    do name <- index components 1;
    Ok (setFontName f name, g, false)
  else if (kw =? "SIZE")%string then
    do t1 <- index components 1;
    do size <- checked (Atoi t1);
    do t2 <- index components 2;
    do dpi0 <- checked (Atoi t2);
    do t3 <- index components 3;
    do dpi1 <- checked (Atoi t3);
    let f := setDPI (setSize f size) (dpi0, dpi1) in
    if 4 <? Z.of_nat (length components) then
      do t4 <- index components 4;
      do bpp <- checked (Atoi t4);
      Ok (setBPP f bpp, g, false)
    else Ok (f, g, false)
  else if (kw =? "CHARSET_REGISTRY")%string then
    do v <- index components 1;
    Ok (f, {| registry := v; encoding := encoding g; defaultChar := defaultChar g |}, false)
  else if (kw =? "CHARSET_ENCODING")%string then
    do v <- index components 1;
    Ok (f, {| registry := registry g; encoding := v; defaultChar := defaultChar g |}, false)
  else if (kw =? "PIXEL_SIZE")%string then
    do t <- index components 1;
    (* the error of this call is assigned and never looked at *)
    Ok (setPixelSize f (Atoi t).1, g, false)
  else if (kw =? "FONT_ASCENT")%string then
    do t <- index components 1;
    do v <- checked (Atoi t);
    Ok (setAscent f v, g, false)
  else if (kw =? "FONT_DESCENT")%string then
    do t <- index components 1;
    do v <- checked (Atoi t);
    Ok (setDescent f v, g, false)
  else if (kw =? "CAP_HEIGHT")%string then
    do t <- index components 1;
    do v <- checked (Atoi t);
    Ok (setCapHeight f v, g, false)
  else if (kw =? "X_HEIGHT")%string then
    do t <- index components 1;
    do v <- checked (Atoi t);
    Ok (setXHeight f v, g, false)
  else if (kw =? "DEFAULT_CHAR")%string then
    do t <- index components 1;
    do v <- checked (Atoi t);
    Ok (f, {| registry := registry g; encoding := encoding g; defaultChar := v |}, false)
  else if (kw =? "CHARS")%string then
    do t <- index components 1;
    do count <- checked (Atoi t);
    do n <- make_len sizeofCharacter count;
    Ok (setCharacters f (replicate n zeroCharacter), g, true)
  else Ok (f, g, false).

(** The [scan:] loop over the lines the scanner still holds; it returns
    the lines left for phase 2. *)
Fixpoint scanGlobals (s : list string) (f : Font) (g : globals)
  : result (Font * globals * list string) :=
  match s with
  | [] => Ok (f, g, [])
  | line :: s' =>
      do r <- globalsLine line f g;
      let '(f', g', brk) := r in
      if brk then Ok (f', g', s') else scanGlobals s' f' g'
  end.

Definition parseGlobalsAndProperties (s : list string) (f : Font)
  : result (Font * list string) :=
  do r <- scanGlobals s f {| registry := ""; encoding := ""; defaultChar := 0 |};
  let '(f, g, s') := r in
  let f := setFontEncoding f (registry g ++ "-" ++ encoding g) in
  let f := setDefaultChar f (charToRune (FontEncoding f) (defaultChar g)) in
  Ok (f, s').

(* ================================================================== *)
(** ** Bitmap decoder *)
(* ================================================================== *)

(** [(xs[i>>3] >> (7 - (i % 8))) & 1]; Go's [%] truncates, as [Z.rem]. *)
Definition bitAt (xs : list Z) (i : Z) : result Z :=
  do x <- index xs (Z.shiftr i 3);
  let s := int (7 - Z.rem i 8) in
  if s <? 0 then Panic NegativeShift
  else Ok (Z.land (Z.shiftr x s) 1).

(** The loop [for j := 0; j < f.BPP; j++] of one pixel, with [n] turns
    left, [base] the value of [i*f.BPP] and [val] the byte built so far. *)
Fixpoint sampleLoop (n : nat) (b : list Z) (base j val : Z) : result Z :=
  match n with
  | O => Ok val
  | S n' =>
      let val := byte (Z.shiftl val 1) in
      do bit <- bitAt b (int (base + j));
      sampleLoop n' b base (j + 1) (byte (Z.lor val bit))
  end.

(** [byte(uint32(val) * 0xff / ((1 << f.BPP) - 1))]: the untyped
    constant [1] takes the type [uint32] of the division. *)
Definition scale (val bpp : Z) : result Z :=
  if bpp <? 0 then Panic NegativeShift
  else
    let d := uint32 (uint32 (Z.shiftl 1 bpp) - 1) in
    if d =? 0 then Panic DivideByZero
    else Ok (byte (uint32 (uint32 val * 255) / d)).

(** The loop [for i := 0; i < Stride; i++] over one bitmap row, with [n]
    turns left. *)
Fixpoint rowLoop (n : nat) (bpp : Z) (b : list Z) (row : Z) (a : Alpha) (i : Z)
  : result Alpha :=
  match n with
  | O => Ok a
  | S n' =>
      do val <- sampleLoop (Z.to_nat bpp) b (int (i * bpp)) 0 0;
      do v <- scale val bpp;
      do pix <- store (Pix a) (int (int (row * Stride a) + i)) v;
      rowLoop n' bpp b row (setPix a pix) (i + 1)
  end.

Definition decodeRow (bpp : Z) (b : list Z) (row : Z) (a : Alpha) : result Alpha :=
  rowLoop (Z.to_nat (Stride a)) bpp b row a 0.

(* ================================================================== *)
(** ** Parser, phase 2: [Parse] *)
(* ================================================================== *)

(** The [Font] literal [Parse] starts from. *)
Definition initFont : Font :=
  {| FontName := ""; Size := 0; PixelSize := 0; DPI := (0, 0); BPP := 1;
     Ascent := 0; Descent := 0; CapHeight := 0; XHeight := 0;
     Characters := []; CharMap := ∅; FontEncoding := ""; DefaultChar := 32 |}.

(** The variables of the second loop. *)
Record pstate : Type := {
  font : Font;
  char : Z;
  row : Z;
  inBitmap : bool
}.

Definition withFont (st : pstate) (f : Font) : pstate :=
  {| font := f; char := char st; row := row st; inBitmap := inBitmap st |}.

(** [f.Characters[char].field = v] *)
Definition updChar (f : Font) (char : Z) (upd : Character -> Character) : result Font :=
  do c <- index (Characters f) char;
  Ok (setCharacters f (<[Z.to_nat char := upd c]> (Characters f))).

Definition nonNil {A} (p : option A) : result A :=
  match p with
  | Some a => Ok a
  | None => Panic NilDereference
  end.

(** One turn of the second loop. *)
Definition glyphLine (charMap : option Charmap) (line : string) (st : pstate)
  : result pstate :=
  let components := Split line in
  let kw := keyword components in
  let f := font st in
  if negb (inBitmap st) then
    if (kw =? "STARTCHAR")%string then
      let char := int (char st + 1) in
      do name <- index components 1;
      do f <- updChar f char (fun c => setName c name);
      Ok {| font := f; char := char; row := row st; inBitmap := false |}
    else if (kw =? "ENCODING")%string then
      do t <- index components 1;
      do code <- checked (Atoi t);
      let r := match charMap with
               | Some m => DecodeByte m (byte code)
               | None => rune code
               end in
      do f <- updChar f (char st) (fun c => setEncoding c r);
      Ok (withFont st (setCharMap f (<[r := Z.to_nat (char st)]> (CharMap f))))
    else if (kw =? "DWIDTH")%string then
      do t1 <- index components 1;
      let '(v1, e1) := Atoi t1 in
      do f <- updChar f (char st) (fun c => setAdvance c (v1, (Advance c).2));
      do _ <- checked (v1, e1);
      do t2 <- index components 2;
      let '(v2, e2) := Atoi t2 in
      do f <- updChar f (char st) (fun c => setAdvance c ((Advance c).1, v2));
      do _ <- checked (v2, e2);
      Ok (withFont st f)
    else if (kw =? "BBX")%string then
      do t1 <- index components 1;
      do w <- checked (Atoi t1);
      do t2 <- index components 2;
      do h <- checked (Atoi t2);
      do t3 <- index components 3;
      do lx <- checked (Atoi t3);
      do t4 <- index components 4;
      do ly <- checked (Atoi t4);
      do f <- updChar f (char st) (fun c => setLowerPoint c (lx, (LowerPoint c).2));
      do f <- updChar f (char st) (fun c => setLowerPoint c ((LowerPoint c).1, ly));
      do n <- make_len 1 (int (w * h));
      do f <- updChar f (char st)
                (fun c => setAlpha c (Some {| Pix := replicate n 0; Stride := w;
                                              RectMax := (w, h) |}));
      Ok (withFont st f)
    else if (kw =? "BITMAP")%string then
      Ok {| font := f; char := char st; row := -1; inBitmap := true |}
    else Ok st
  else
    if (kw =? "ENDCHAR")%string then
      Ok {| font := f; char := char st; row := row st; inBitmap := false |}
    else
      let row := int (row st + 1) in
      do b <- DecodeString line;
      do c <- index (Characters f) (char st);
      do a <- nonNil (AlphaOf c);
      do a <- decodeRow (BPP f) b row a;
      do f <- updChar f (char st) (fun c => setAlpha c (Some a));
      Ok {| font := f; char := char st; row := row; inBitmap := true |}.

Fixpoint glyphLoop (charMap : option Charmap) (s : list string) (st : pstate)
  : result pstate :=
  match s with
  | [] => Ok st
  | line :: s' =>
      do st <- glyphLine charMap line st;
      glyphLoop charMap s' st
  end.

(** [Parse] on the lines the scanner yields.  [Ok f] is [(&f, nil)],
    [Err e] is [(nil, e)]. *)
Definition ParseLines (s : list string) : result Font :=
  do r <- parseGlobalsAndProperties s initFont;
  let '(f, s) := r in
  let charMap := findCharmap (FontEncoding f) in
  do st <- glyphLoop charMap s {| font := f; char := -1; row := -1; inBitmap := false |};
  Ok (font st).

Definition Parse (data : string) : result Font := ParseLines (ScanLines data).

(* ================================================================== *)
(** ** Query layer, part 2: the [font.Face] methods *)
(* ================================================================== *)

Record Metrics : Set := {
  MHeight : Z; MAscent : Z; MDescent : Z; MXHeight : Z; MCapHeight : Z
}.

Definition FaceMetrics (fa : Face) : Metrics :=
  let f := FaceFont fa in
  {| MAscent := fixed.I (Ascent f);
     MDescent := fixed.I (Descent f);
     MCapHeight := fixed.I (CapHeight f);
     MXHeight := fixed.I (XHeight f);
     MHeight := fixed.I (int (Ascent f + Descent f)) |}.

Definition Kern (fa : Face) (r0 r1 : Z) : Z := 0.

(** The results are [(bounds, advance, ok)]. *)
Definition GlyphBounds (fa : Face) (r : Z)
  : result (fixed.Rectangle26_6 * Z * bool) :=
  let f := FaceFont fa in
  match lookup f r with
  | None => Ok (fixed.R 0 (int (- Ascent f)) 0 (Descent f), 0, false)
  | Some p =>
      do c <- deref f p;
      do a <- nonNil (AlphaOf c);
      Ok (fixed.R (LowerPoint c).1 (int (- Ascent f))
                  (int ((LowerPoint c).1 + Dx a)) (Descent f),
          fixed.I (Advance c).1, true)
  end.

Definition GlyphAdvance (fa : Face) (r : Z) : result (Z * bool) :=
  let f := FaceFont fa in
  match lookup f r with
  | None => Ok (0, false)
  | Some p =>
      do c <- deref f p;
      Ok (fixed.I (Advance c).1, true)
  end.

(* ================================================================== *)
(** ** Notions used to state the properties *)
(* ================================================================== *)

(** The line's first token is [kw]. *)
Definition hasKeyword (kw line : string) : bool :=
  (keyword (Split line) =? kw)%string.

Definition noKeyword (kw : string) (lines : list string) : Prop :=
  Forall (fun l => hasKeyword kw l = false) lines.

Fixpoint countKeyword (kw : string) (lines : list string) : Z :=
  match lines with
  | [] => 0
  | l :: lines' =>
      (if hasKeyword kw l then 1 else 0) + countKeyword kw lines'
  end.

(** The code point an [ENCODING] line registers, when it is well formed. *)
Definition encodingOf (charMap : option Charmap) (line : string) : option Z :=
  let components := Split line in
  if (keyword components =? "ENCODING")%string then
    match index components 1 with
    | Ok t =>
        match Atoi t with
        | (code, None) =>
            Some (match charMap with
                  | Some m => DecodeByte m (byte code)
                  | None => rune code
                  end)
        | _ => None
        end
    | _ => None
    end
  else None.

(** Everything in a [Font] but the glyph sequence and the index. *)
Definition header (f : Font) :=
  (FontName f, Size f, PixelSize f, DPI f, BPP f, Ascent f, Descent f,
   CapHeight f, XHeight f, FontEncoding f, DefaultChar f).

(** The state [Parse] enters its second loop with. *)
Definition startState (f : Font) : pstate :=
  {| font := f; char := -1; row := -1; inBitmap := false |}.

(** Every pointer in the index points at a slot of [Characters]. *)
Definition pointersValid (f : Font) : Prop :=
  forall r p, CharMap f !! r = Some p -> (p < length (Characters f))%nat.

(** *** Bit depth: the words of the specification *)

(** Bit [k] of the packed row, most significant bit of each byte first. *)
Definition bitOf (b : list Z) (k : Z) : Z :=
  Z.land (Z.shiftr (nth (Z.to_nat (k / 8)) b 0) (7 - k mod 8)) 1.

(** The unsigned value of the [n] bits that start at bit offset [k],
    most significant first. *)
Fixpoint msbValue (b : list Z) (k : Z) (n : nat) : Z :=
  match n with
  | O => 0
  | S n' => bitOf b k * 2 ^ Z.of_nat n' + msbValue b (k + 1) n'
  end.

(** [round(a / d)] for [0 <= a], [0 < d]: the nearest integer. *)
Definition round_div (a d : Z) : Z := (2 * a + d) / (2 * d).

(** What the code stores: the quotient of the truncating division. *)
Definition floor_scale (v bpp : Z) : Z := v * 255 / (2 ^ bpp - 1).

Fixpoint allSpace (s : string) : bool :=
  match s with
  | EmptyString => true
  | String c s' => asciiSpace c && allSpace s'
  end.

(** The initial values of [parseGlobalsAndProperties]'s locals, and the
    two assignments it ends with. *)
Definition globals0 : globals :=
  {| registry := ""; encoding := ""; defaultChar := 0 |}.

Definition finishGlobals (f : Font) (g : globals) : Font :=
  let f := setFontEncoding f (registry g ++ "-" ++ encoding g) in
  setDefaultChar f (charToRune (FontEncoding f) (defaultChar g)).

(** A source text from its lines, each ended by a newline. *)
Definition LF : string := String "010" "".

Fixpoint unlines (ls : list string) : string :=
  match ls with
  | [] => ""
  | l :: ls' => l ++ LF ++ unlines ls'
  end.

(** The header keywords whose integer argument is checked, and the
    header keywords that read an argument. *)
Definition checkedHeaderKeywords : list string :=
  ["SIZE"; "FONT_ASCENT"; "FONT_DESCENT"; "CAP_HEIGHT"; "X_HEIGHT";
   "DEFAULT_CHAR"; "CHARS"].

Definition headerKeywords : list string :=
  ["FONT"; "SIZE"; "CHARSET_REGISTRY"; "CHARSET_ENCODING"; "PIXEL_SIZE";
   "FONT_ASCENT"; "FONT_DESCENT"; "CAP_HEIGHT"; "X_HEIGHT"; "DEFAULT_CHAR";
   "CHARS"].

(** A small font used in the examples: one 8x2 glyph for code point 65. *)
Definition sampleSource : string :=
  unlines ["FONT sample"; "SIZE 8 75 75"; "FONT_ASCENT 7"; "FONT_DESCENT 1";
           "CHARS 2";
           "STARTCHAR A"; "ENCODING 65"; "DWIDTH 8 0"; "BBX 8 2 1 0";
           "BITMAP"; "FF"; "81"; "ENDCHAR";
           "STARTCHAR bare"; "ENCODING 66"; "ENDCHAR"].

(** Design units whose 26.6 representation is well inside [int32]. *)
Definition fitsFixed (z : Z) : Prop := - 2 ^ 24 <= z < 2 ^ 24.


(** *** Charset identifiers *)

(** An identifier made of ASCII bytes: on these Go's [strings.ToLower]
    and [strings.TrimSpace] are the byte-wise functions of module [Go].
    Beyond them Go maps and trims by Unicode, which the model leaves
    out. *)
Fixpoint isASCII (s : string) : bool :=
  match s with
  | EmptyString => true
  | String c s' => (code c <? 128) && isASCII s'
  end.

(** *** The parser between two lines *)

(** Where [Parse] stands after a line: in the loop of
    [parseGlobalsAndProperties], with the [Font] and the locals; or in
    its own loop, with the charmap found and the loop's variables. *)
Inductive pphase : Type :=
| Header (f : Font) (g : globals)
| Glyphs (charMap : option Charmap) (st : pstate).

Definition startPhase : pphase := Header initFont globals0.

(** One more line.  A [CHARS] line ends the first loop: the two
    assignments after it are made, the charmap is looked up and the
    second loop is entered. *)
Definition readLine (line : string) (p : pphase) : result pphase :=
  match p with
  | Header f g =>
      do r <- globalsLine line f g;
      let '(f', g', brk) := r in
      if brk then
        let f'' := finishGlobals f' g' in
        Ok (Glyphs (findCharmap (FontEncoding f'')) (startState f''))
      else Ok (Header f' g')
  | Glyphs cm st =>
      do st' <- glyphLine cm line st;
      Ok (Glyphs cm st')
  end.

Fixpoint readLines (s : list string) (p : pphase) : result pphase :=
  match s with
  | [] => Ok p
  | line :: s' =>
      do p' <- readLine line p;
      readLines s' p'
  end.

(** The [Font] [Parse] returns when the input ends there. *)
Definition fontAt (p : pphase) : Font :=
  match p with
  | Header f g => finishGlobals f g
  | Glyphs _ st => font st
  end.

(** The cursor of the second loop stays in range. *)
Definition cursorOK (p : pphase) : Prop :=
  match p with
  | Header _ _ => True
  | Glyphs _ st => -1 <= char st < 2 ^ 63
  end.

(** *** The tokens a line is read at *)

Definition inb (kw : string) (kws : list string) : bool :=
  existsb (String.eqb kw) kws.

(** A keyword reads the tokens at positions 1 to [n] of its line, in
    that order.  For a header line: the number of tokens passed to a
    checked [strconv.Atoi], and the number of tokens read at all.
    [SIZE] reads a fourth integer when the line has more than four
    tokens; the integer of [PIXEL_SIZE] is read and not checked. *)
Definition headerInts (components : list string) : nat :=
  let kw := keyword components in
  if (kw =? "SIZE")%string then
    if 4 <? Z.of_nat (length components) then 4%nat else 3%nat
  else if inb kw checkedHeaderKeywords then 1%nat
  else 0%nat.

Definition headerArgs (components : list string) : nat :=
  let kw := keyword components in
  if (kw =? "SIZE")%string then headerInts components
  else if inb kw headerKeywords then 1%nat
  else 0%nat.

(** The same for a line of a glyph block, outside the bitmap. *)
Definition glyphInts (components : list string) : nat :=
  let kw := keyword components in
  if (kw =? "ENCODING")%string then 1%nat
  else if (kw =? "DWIDTH")%string then 2%nat
  else if (kw =? "BBX")%string then 4%nat
  else 0%nat.

Definition glyphArgs (components : list string) : nat :=
  let kw := keyword components in
  if (kw =? "STARTCHAR")%string then 1%nat
  else glyphInts components.

(** The tokens before position [i] are integers to [strconv.Atoi]. *)
Definition intsBefore (components : list string) (i : nat) : Prop :=
  forall j t, (1 <= j < i)%nat -> components !! j = Some t -> (Atoi t).2 = None.

(* ================================================================== *)
(** ** Query layer, part 3: [Glyph] *)
(* ================================================================== *)

Module image.

Record Point : Set := { X : Z; Y : Z }.
Record Rectangle : Set := { Min : Point; Max : Point }.

Definition ZP : Point := {| X := 0; Y := 0 |}.
Definition ZR : Rectangle := {| Min := ZP; Max := ZP |}.

End image.

(** [Glyph]: the results are [(dr, mask, maskp, advance, ok)]; the mask
    is the glyph's [*image.Alpha], absent on a miss.  [dot] holds two
    [fixed.Int26_6]. *)
Definition Glyph (fa : Face) (dot : fixed.Point26_6) (r : Z)
  : result (image.Rectangle * option Alpha * image.Point * Z * bool) :=
  let f := FaceFont fa in
  match lookup f r with
  | None => Ok (image.ZR, None, image.ZP, 0, false)
  | Some p =>
      do c <- deref f p;
      let mask := AlphaOf c in
      let x := int (Z.shiftr (int (fixed.X dot)) 6 + (LowerPoint c).1) in
      let y := int (Z.shiftr (int (fixed.Y dot)) 6 - (LowerPoint c).2) in
      do a <- nonNil (AlphaOf c);
      Ok ({| image.Min := {| image.X := x; image.Y := int (y - (RectMax a).2) |};
             image.Max := {| image.X := int (x + Stride a); image.Y := y |} |},
          mask, image.ZP, fixed.I (Advance c).1, true)
  end.

(* ================================================================== *)
(** ** The earlier revision of the bitmap loop *)
(* ================================================================== *)

Module Legacy.

(** [uint(z)] on a 64-bit platform. *)
Definition uint (z : Z) : Z := z mod 2 ^ 64.

(** The loop [for i := 0; i < Stride; i++] of the revision without bit
    depth: [b[i/8] & (1 << uint(7-i%8)) != 0] selects 0xff or 0x00.  The
    constant [1] takes the type [byte] of the other operand; Go's [/] and
    [%] truncate, as [Z.quot] and [Z.rem]. *)
Fixpoint rowLoop (n : nat) (b : list Z) (row : Z) (a : Alpha) (i : Z)
  : result Alpha :=
  match n with
  | O => Ok a
  | S n' =>
      do x <- index b (Z.quot i 8);
      let val :=
        if Z.land x (byte (Z.shiftl 1 (uint (7 - Z.rem i 8)))) =? 0
        then 0 else 255 in
      do pix <- store (Pix a) (int (int (row * Stride a) + i)) val;
      rowLoop n' b row (setPix a pix) (i + 1)
  end.

Definition decodeRow (b : list Z) (row : Z) (a : Alpha) : result Alpha :=
  rowLoop (Z.to_nat (Stride a)) b row a 0.

End Legacy.

(* ================================================================== *)
(** ** Further notions used to state properties *)
(* ================================================================== *)

(** The lines the first loop reads: up to and including the first
    [CHARS] line. *)
Fixpoint headerLines (lines : list string) : list string :=
  match lines with
  | [] => []
  | l :: lines' =>
      if hasKeyword "CHARS" l then [l] else l :: headerLines lines'
  end.

(** The lines left for the second loop. *)
Fixpoint glyphLines (lines : list string) : list string :=
  match lines with
  | [] => []
  | l :: lines' =>
      if hasKeyword "CHARS" l then lines' else glyphLines lines'
  end.

(** The second token of a line, if any. *)
Definition argument (line : string) : option string := Split line !! 1%nat.

(** The argument of the last line with keyword [kw], [d] without such a
    line. *)
Definition strArg (kw : string) (lines : list string) (d : string) : string :=
  fold_left (fun acc l => if hasKeyword kw l then default acc (argument l) else acc)
            lines d.

Definition intArg (kw : string) (lines : list string) (d : Z) : Z :=
  fold_left (fun acc l =>
               if hasKeyword kw l
               then default acc ((fun t => (Atoi t).1) <$> argument l)
               else acc)
            lines d.

(** The names the [STARTCHAR] lines give, in order. *)
Fixpoint startNames (lines : list string) : list string :=
  match lines with
  | [] => []
  | l :: lines' =>
      if hasKeyword "STARTCHAR" l
      then default "" (argument l) :: startNames lines'
      else startNames lines'
  end.

(** A raster as [BBX] allocates it: one byte per pixel, row after row. *)
Definition rasterOK (a : Alpha) : Prop :=
  Stride a = (RectMax a).1
  /\ Z.of_nat (length (Pix a)) = int (Stride a * (RectMax a).2)
  /\ Forall (fun v => 0 <= v < 256) (Pix a).

(** Keywords the second loop acts on outside a bitmap. *)
Definition metaKeywords : list string :=
  ["STARTCHAR"; "ENCODING"; "DWIDTH"; "BBX"; "BITMAP"].

(** A [*image.Alpha] that is nil or points at a well-formed raster. *)
Definition rasterOpt (o : option Alpha) : Prop :=
  forall a, o = Some a -> rasterOK a.

(** A glyph property line that the second loop would accept under a
    valid cursor. *)
Definition glyphProperty (l : string) : Prop :=
  (exists t more v, Split l = "ENCODING" :: t :: more /\ Atoi t = (v, None))
  \/ (exists t more, Split l = "DWIDTH" :: t :: more)
  \/ (exists t1 t2 t3 t4 more v1 v2 v3 v4,
         Split l = "BBX" :: t1 :: t2 :: t3 :: t4 :: more
         /\ Atoi t1 = (v1, None) /\ Atoi t2 = (v2, None)
         /\ Atoi t3 = (v3, None) /\ Atoi t4 = (v4, None)).

(** The first byte of a charset registry cannot open one of the known
    names: it is neither white space nor the letter I. *)
Definition foreignRegistry (reg : string) : Prop :=
  match reg with
  | EmptyString => True
  | String c _ => asciiSpace c = false /\ lowerByte c <> "i"%char
  end.

(** The rows of one bitmap, decoded one after the other from row [y]. *)
Fixpoint decodeRows (bpp : Z) (bs : list (list Z)) (y : Z) (a : Alpha)
  : result Alpha :=
  match bs with
  | [] => Ok a
  | b :: bs' =>
      do a1 <- decodeRow bpp b y a;
      decodeRows bpp bs' (y + 1) a1
  end.

(** The intensity the decoder stores for pixel [x] of the packed row
    [b], at a depth from 1 to 8. *)
Definition pixelOf (bpp : Z) (b : list Z) (x : Z) : Z :=
  floor_scale (msbValue b (x * bpp) (Z.to_nat bpp)) bpp.

(* ================================================================== *)
(** ** Basic facts about the runtime model *)
(* ================================================================== *)

Section ResultFacts.
Context {A B : Type}.

Lemma bind_Ok_inv (r : result A) (k : A -> result B) (b : B) :
  Go.bind r k = Ok b -> exists a, r = Ok a /\ k a = Ok b.
Proof. destruct r as [a| |]; simpl; [eauto | discriminate | discriminate]. Qed.

Lemma bind_Ok (r : result A) (k : A -> result B) (a : A) :
  r = Ok a -> Go.bind r k = k a.
Proof. intros ->. reflexivity. Qed.

Lemma bind_isOk (r : result A) (k : A -> result B) :
  isOk (Go.bind r k) = true -> isOk r = true.
Proof. destruct r; simpl; [reflexivity | discriminate | discriminate]. Qed.

End ResultFacts.

Lemma isOk_true {A} (r : result A) : isOk r = true <-> exists a, r = Ok a.
Proof.
  destruct r; simpl; split; eauto; try discriminate;
    intros [a Ha]; discriminate.
Qed.

Lemma index_Ok_inv {A} (xs : list A) (i : Z) (x : A) :
  index xs i = Ok x -> 0 <= i /\ xs !! Z.to_nat i = Some x.
Proof.
  unfold index. destruct (Z.ltb_spec i 0); [discriminate|].
  destruct (xs !! Z.to_nat i) eqn:E; [|discriminate].
  intros [= ->]. auto.
Qed.

Lemma index_Ok {A} (xs : list A) (i : Z) (x : A) :
  0 <= i -> xs !! Z.to_nat i = Some x -> index xs i = Ok x.
Proof.
  intros Hi Hx. unfold index.
  destruct (Z.ltb_spec i 0); [lia|]. now rewrite Hx.
Qed.

Lemma index_lt {A} (xs : list A) (i : Z) (x : A) :
  index xs i = Ok x -> 0 <= i < Z.of_nat (length xs).
Proof.
  intros H. apply index_Ok_inv in H as [Hi Hx].
  apply lookup_lt_Some in Hx. lia.
Qed.

Lemma checked_Ok_inv (ve : Z * option error) (v : Z) :
  checked ve = Ok v -> ve = (v, None).
Proof. destruct ve as [v' [e|]]; simpl; [discriminate|]. now intros [= ->]. Qed.

Lemma wrap_small (bits z : Z) :
  0 < bits -> - 2 ^ (bits - 1) <= z < 2 ^ (bits - 1) -> wrap bits z = z.
Proof.
  intros Hb Hz. unfold wrap.
  assert (E : 2 ^ bits = 2 * 2 ^ (bits - 1)).
  { replace bits with (Z.succ (bits - 1)) at 1 by lia.
    apply Z.pow_succ_r. lia. }
  rewrite Z.mod_small; lia.
Qed.

Lemma int_small (z : Z) : - 2 ^ 63 <= z < 2 ^ 63 -> int z = z.
Proof. intros H. unfold int. apply wrap_small; [lia | exact H]. Qed.

Lemma rune_small (z : Z) : - 2 ^ 31 <= z < 2 ^ 31 -> rune z = z.
Proof. intros H. unfold rune, int32. apply wrap_small; [lia | exact H]. Qed.

Lemma int_range (z : Z) : - 2 ^ 63 <= int z < 2 ^ 63.
Proof.
  unfold int, wrap.
  pose proof (Z.mod_pos_bound (z + 2 ^ (64 - 1)) (2 ^ 64) eq_refl).
  change (2 ^ (64 - 1)) with (2 ^ 63) in *.
  assert (2 ^ 64 = 2 * 2 ^ 63) by reflexivity. lia.
Qed.

Lemma byte_mod (z : Z) : byte z = z mod 256.
Proof. unfold byte. change 255 with (Z.ones 8). now rewrite Z.land_ones by lia. Qed.

Lemma byte_small (z : Z) : 0 <= z < 256 -> byte z = z.
Proof. intros H. rewrite byte_mod. now apply Z.mod_small. Qed.

(** *** [strings.Split]: the first component is a prefix of the line *)

Lemma SplitByte_hd (sep : ascii) (l : string) :
  exists tail, l = (hd "" (SplitByte sep l) ++ tail)%string.
Proof.
  induction l as [|c l IH]; simpl.
  - now exists "".
  - destruct (Ascii.eqb c sep).
    + now exists (String c l).
    + destruct IH as [tail IH].
      destruct (SplitByte sep l) as [|w ws]; simpl in *.
      * exists tail. now rewrite IH at 1.
      * exists tail. now rewrite IH at 1.
  Qed.

Lemma keyword_prefix (l kw : string) :
  keyword (Split l) = kw -> exists tail, l = (kw ++ tail)%string.
Proof. intros <-. apply SplitByte_hd. Qed.


(** A line that opens with one of the keywords below is not a row of
    hexadecimal digits. *)
Lemma DecodeString_STARTCHAR (l : string) :
  keyword (Split l) = "STARTCHAR" -> DecodeString l = Err (InvalidByteError "S").
Proof. intros H. apply keyword_prefix in H as [tail ->]. reflexivity. Qed.

Lemma DecodeString_ENCODING (l : string) :
  keyword (Split l) = "ENCODING" -> DecodeString l = Err (InvalidByteError "N").
Proof. intros H. apply keyword_prefix in H as [tail ->]. reflexivity. Qed.

(* ================================================================== *)
(** ** One line of the second loop *)
(* ================================================================== *)

Ltac inv_bind H :=
  repeat match type of H with
  | Go.bind ?r ?k = Ok _ =>
      let a := fresh "a" in
      let E := fresh "E" in
      apply bind_Ok_inv in H as (a & E & H)
  | (let '(_, _) := ?p in _) = Ok _ => destruct p eqn:?
  | (if ?c then _ else _) = Ok _ => destruct c eqn:?
  | Panic _ = Ok _ => discriminate H
  | Err _ = Ok _ => discriminate H
  end.

Lemma updChar_facts (f f' : Font) (c : Z) (upd : Character -> Character) :
  updChar f c upd = Ok f' ->
  0 <= c < Z.of_nat (length (Characters f))
  /\ header f' = header f
  /\ CharMap f' = CharMap f
  /\ length (Characters f') = length (Characters f)
  /\ (forall i, i <> Z.to_nat c -> Characters f' !! i = Characters f !! i)
  /\ (exists ch, Characters f !! Z.to_nat c = Some ch
                 /\ Characters f' !! Z.to_nat c = Some (upd ch)).
Proof.
  unfold updChar. intros H. inv_bind H. injection H as <-.
  pose proof (index_lt _ _ _ E) as Hlt.
  apply index_Ok_inv in E as [_ E].
  repeat split; simpl; try lia.
  - apply length_insert.
  - intros i Hi. now apply list_lookup_insert_ne.
  - exists a. split; [exact E|].
    apply list_lookup_insert_eq. lia.
Qed.

Lemma glyphLine_Ok (cm : option Charmap) (l : string) (st st' : pstate) :
  glyphLine cm l st = Ok st' ->
  -1 <= char st < 2 ^ 63 ->
  header (font st') = header (font st)
  /\ -1 <= char st' < 2 ^ 63
  /\ length (Characters (font st')) = length (Characters (font st))
  /\ char st' = (if hasKeyword "STARTCHAR" l then char st + 1 else char st)
  /\ (hasKeyword "STARTCHAR" l = true ->
      char st' < Z.of_nat (length (Characters (font st))))
  /\ CharMap (font st') =
       match encodingOf cm l with
       | Some r => <[r := Z.to_nat (char st)]> (CharMap (font st))
       | None => CharMap (font st)
       end
  /\ (forall r, encodingOf cm l = Some r ->
        0 <= char st < Z.of_nat (length (Characters (font st))))
  /\ (forall i, i <> Z.to_nat (char st') ->
        Characters (font st') !! i = Characters (font st) !! i).
Proof.
  intros H Hc. unfold glyphLine in H.
  unfold hasKeyword, encodingOf.
  remember (keyword (Split l)) as kw eqn:Hkw.
  destruct (inBitmap st) eqn:Hmode; simpl in H.
  - (* Bitmap mode *)
    destruct (String.eqb_spec kw "ENDCHAR") as [->|Hend].
    + injection H as <-. simpl. repeat split; auto; try lia; discriminate.
    + inv_bind H. injection H as <-. simpl.
      destruct (String.eqb_spec kw "STARTCHAR") as [->|_].
      { symmetry in Hkw. apply DecodeString_STARTCHAR in Hkw. congruence. }
      destruct (String.eqb_spec kw "ENCODING") as [->|_].
      { symmetry in Hkw. apply DecodeString_ENCODING in Hkw. congruence. }
      apply updChar_facts in E3 as (? & ? & ? & ? & ? & ?).
      repeat split; auto; try lia; discriminate.
  - (* Meta mode *)
    destruct (String.eqb_spec kw "STARTCHAR") as [->|Hs].
    { inv_bind H. injection H as <-. simpl.
      apply updChar_facts in E0 as (Hr & ? & ? & ? & ? & ?).
      pose proof (int_range (char st + 1)).
      assert (char st + 1 < 2 ^ 63 -> int (char st + 1) = char st + 1)
        by (intros; apply int_small; lia).
      assert (char st + 1 = 2 ^ 63 -> int (char st + 1) = - 2 ^ 63)
        by (intros ->; reflexivity).
      assert (Hi : int (char st + 1) = char st + 1) by lia.
      rewrite Hi in *.
      repeat split; auto; try lia; discriminate. }
    destruct (String.eqb_spec kw "ENCODING") as [->|He].
    { inv_bind H. injection H as <-. simpl.
      rewrite E. apply checked_Ok_inv in E0. rewrite E0.
      apply updChar_facts in E1 as (Hr & ? & Hm & ? & ? & ?).
      repeat split; auto; try lia. now rewrite Hm. }
    destruct (String.eqb_spec kw "DWIDTH") as [->|Hd].
    { inv_bind H. injection H as <-. simpl.
      apply updChar_facts in E0 as (? & ? & ? & ? & Hf0 & ?).
      apply updChar_facts in E3 as (? & ? & ? & ? & Hf1 & ?).
      repeat split; try congruence; try lia; try discriminate.
      intros i Hi. rewrite Hf1, Hf0; auto. }
    destruct (String.eqb_spec kw "BBX") as [->|Hb].
    { inv_bind H. injection H as <-. simpl.
      apply updChar_facts in E7 as (? & ? & ? & ? & Hf0 & ?).
      apply updChar_facts in E8 as (? & ? & ? & ? & Hf1 & ?).
      apply updChar_facts in E10 as (? & ? & ? & ? & Hf2 & ?).
      repeat split; try congruence; try lia; try discriminate.
      intros i Hi. rewrite Hf2, Hf1, Hf0; auto. }
    destruct (String.eqb_spec kw "BITMAP") as [->|Hm].
    { injection H as <-. simpl. repeat split; auto; try lia; discriminate. }
    injection H as <-. repeat split; auto; try lia; discriminate.
Qed.

(** A [STARTCHAR] line met when every slot is taken: the cursor leaves
    the slice and the index expression panics. *)
Lemma glyphLine_STARTCHAR_full (cm : option Charmap) (line : string) (st : pstate) :
  inBitmap st = false ->
  hasKeyword "STARTCHAR" line = true ->
  -1 <= char st < 2 ^ 63 ->
  Z.of_nat (length (Characters (font st))) <= char st + 1 ->
  glyphLine cm line st = Panic IndexOutOfRange.
Proof.
  intros Hm Hkw Hc Hfull. unfold glyphLine, hasKeyword in *.
  rewrite Hm, Hkw. simpl.
  destruct (index (Split line) 1) as [name|e|p] eqn:E.
  - simpl. unfold updChar, index at 1.
    destruct (Z.ltb_spec (int (char st + 1)) 0); [reflexivity|].
    assert (Hi : int (char st + 1) = char st + 1).
    { destruct (Z.eq_dec (char st + 1) (2 ^ 63)) as [Heq|Hne].
      - rewrite Heq in H. exfalso. revert H. apply Z.lt_nge. reflexivity.
      - apply int_small. lia. }
    rewrite Hi. rewrite lookup_ge_None_2 by lia. reflexivity.
  - unfold index in E. destruct (1 <? 0); [discriminate|].
    destruct (Split line !! Z.to_nat 1); discriminate.
  - unfold index in E. destruct (1 <? 0).
    + now injection E as <-.
    + destruct (Split line !! Z.to_nat 1); [discriminate|]. now injection E as <-.
Qed.

(* ================================================================== *)
(** ** The second loop as a whole *)
(* ================================================================== *)

Lemma glyphLoop_app (cm : option Charmap) (s1 s2 : list string) (st : pstate) :
  glyphLoop cm (s1 ++ s2) st = Go.bind (glyphLoop cm s1 st) (glyphLoop cm s2).
Proof.
  revert st. induction s1 as [|l s1 IH]; intros st; simpl; [reflexivity|].
  destruct (glyphLine cm l st); simpl; auto.
Qed.

Lemma countKeyword_nonneg (kw : string) (s : list string) : 0 <= countKeyword kw s.
Proof. induction s as [|l s IH]; simpl; [lia|]. destruct (hasKeyword kw l); lia. Qed.

Lemma glyphLoop_Ok (cm : option Charmap) (s : list string) (st st' : pstate) :
  glyphLoop cm s st = Ok st' ->
  -1 <= char st < 2 ^ 63 ->
  header (font st') = header (font st)
  /\ -1 <= char st' < 2 ^ 63
  /\ length (Characters (font st')) = length (Characters (font st))
  /\ char st' = char st + countKeyword "STARTCHAR" s
  /\ (0 < countKeyword "STARTCHAR" s ->
      char st' < Z.of_nat (length (Characters (font st))))
  /\ (forall i, Z.of_nat i < char st ->
        Characters (font st') !! i = Characters (font st) !! i)
  /\ (pointersValid (font st) -> pointersValid (font st')).
Proof.
  revert st. induction s as [|l s IH]; intros st H Hc; simpl in H.
  - injection H as <-. simpl. repeat split; auto; lia.
  - apply bind_Ok_inv in H as (s1 & Hl & H).
    apply glyphLine_Ok in Hl as (Hh & Hc1 & Hlen & Hch & Hlt & Hm & Hreg & Hfr); [|exact Hc].
    apply IH in H as (Hh' & Hc' & Hlen' & Hch' & Hlt' & Hfr' & Hpv'); [|exact Hc1].
    pose proof (countKeyword_nonneg "STARTCHAR" s) as Hnn.
    simpl. repeat split; try congruence; try lia.
    + destruct (hasKeyword "STARTCHAR" l); lia.
    + intros Hpos. rewrite <- Hlen.
      destruct (Z.eq_dec (countKeyword "STARTCHAR" s) 0) as [Hz|Hz].
      * destruct (hasKeyword "STARTCHAR" l); [|lia].
        specialize (Hlt eq_refl). lia.
      * apply Hlt'. lia.
    + intros i Hi. rewrite Hfr'.
      * apply Hfr. destruct (hasKeyword "STARTCHAR" l); lia.
      * destruct (hasKeyword "STARTCHAR" l); lia.
    + intros Hpv. apply Hpv'. intros r p Hp. rewrite Hlen.
      rewrite Hm in Hp. destruct (encodingOf cm l) as [r'|] eqn:Er.
      * destruct (decide (r' = r)) as [->|Hne].
        -- rewrite lookup_insert_eq in Hp. injection Hp as <-.
           specialize (Hreg _ eq_refl). lia.
        -- rewrite lookup_insert_ne in Hp by exact Hne. eauto.
      * eauto.
Qed.

(** Lines that do not register [r] leave its entry alone. *)
Lemma glyphLoop_CharMap_frame (cm : option Charmap) (s : list string)
      (st st' : pstate) (r : Z) :
  glyphLoop cm s st = Ok st' ->
  -1 <= char st < 2 ^ 63 ->
  Forall (fun l => encodingOf cm l <> Some r) s ->
  CharMap (font st') !! r = CharMap (font st) !! r.
Proof.
  revert st. induction s as [|l s IH]; intros st H Hc Hno; simpl in H.
  - now injection H as <-.
  - apply bind_Ok_inv in H as (s1 & Hl & H).
    inversion Hno as [|? ? Hl0 Hs0]; subst.
    apply glyphLine_Ok in Hl as (_ & Hc1 & _ & _ & _ & Hm & _ & _); [|exact Hc].
    rewrite (IH _ H Hc1 Hs0), Hm.
    destruct (encodingOf cm l) as [r'|]; [|reflexivity].
    apply lookup_insert_ne. congruence.
Qed.

(* ================================================================== *)
(** ** The first loop *)
(* ================================================================== *)

Lemma globalsLine_Ok (l : string) (f f' : Font) (g g' : globals) (brk : bool) :
  globalsLine l f g = Ok (f', g', brk) ->
  brk = hasKeyword "CHARS" l
  /\ CharMap f' = CharMap f
  /\ (hasKeyword "DEFAULT_CHAR" l = false -> defaultChar g' = defaultChar g)
  /\ (brk = false -> Characters f' = Characters f)
  /\ (brk = true ->
      exists t n, index (Split l) 1 = Ok t /\ Atoi t = (n, None) /\ 0 <= n
                  /\ Characters f' = replicate (Z.to_nat n) zeroCharacter).
Proof.
  unfold globalsLine, hasKeyword.
  remember (keyword (Split l)) as kw eqn:Hkw. intros H.
  repeat match type of H with
  | (if (kw =? ?k)%string then _ else _) = _ =>
      destruct (String.eqb_spec kw k) as [->|?]
  end;
  inv_bind H; try (injection H as <- <- <-); simpl;
    try solve [repeat split; auto; discriminate].
  (* CHARS *)
  repeat split; auto; try discriminate.
  intros _. apply checked_Ok_inv in E0.
  unfold make_len in E1.
  destruct (Z.ltb_spec a0 0); simpl in E1; [discriminate|].
  destruct (maxAlloc <? sizeofCharacter * a0); [discriminate|].
  injection E1 as <-. eauto 6.
Qed.

(** As long as no [CHARS] line is met the loop goes on. *)
Lemma scanGlobals_noCHARS (pre s : list string) (f : Font) (g : globals) :
  noKeyword "CHARS" pre ->
  scanGlobals (pre ++ s) f g =
    Go.bind (scanGlobals pre f g) (fun r => scanGlobals s r.1.1 r.1.2)
  /\ (forall f' g' s', scanGlobals pre f g = Ok (f', g', s') ->
        s' = [] /\ CharMap f' = CharMap f /\ Characters f' = Characters f).
Proof.
  intros Hno. revert f g.
  induction Hno as [|l pre Hl Hpre IH]; intros f g; simpl.
  - split; [reflexivity|]. intros f' g' s' [= <- <- <-]. auto.
  - destruct (globalsLine l f g) as [[[f1 g1] brk]| |] eqn:E; simpl; auto;
      try (split; [reflexivity | discriminate]).
    apply globalsLine_Ok in E as (Hb & Hm & _ & Hcs & _).
    rewrite Hl in Hb. subst brk. specialize (Hcs eq_refl).
    destruct (IH f1 g1) as [IH1 IH2]. split; [exact IH1|].
    intros f' g' s' H. apply IH2 in H as (? & ? & ?).
    repeat split; congruence.
Qed.

(* ================================================================== *)
(** ** [Parse] as the composition of the two loops *)
(* ================================================================== *)

Lemma ParseLines_unfold (s : list string) :
  ParseLines s =
    Go.bind (scanGlobals s initFont globals0) (fun r =>
      let f := finishGlobals r.1.1 r.1.2 in
      Go.bind (glyphLoop (findCharmap (FontEncoding f)) r.2 (startState f))
              (fun st => Ok (font st))).
Proof.
  unfold ParseLines, parseGlobalsAndProperties. fold globals0.
  destruct (scanGlobals s initFont globals0) as [[[f g] s']| |]; reflexivity.
Qed.

Lemma ParseLines_Ok_inv (s : list string) (f : Font) :
  ParseLines s = Ok f ->
  exists f0 g0 s0 st,
    scanGlobals s initFont globals0 = Ok (f0, g0, s0)
    /\ glyphLoop (findCharmap (FontEncoding (finishGlobals f0 g0))) s0
                 (startState (finishGlobals f0 g0)) = Ok st
    /\ f = font st.
Proof.
  rewrite ParseLines_unfold. intros H.
  apply bind_Ok_inv in H as ([[f0 g0] s0] & E & H). simpl in H.
  apply bind_Ok_inv in H as (st & E' & H). injection H as <-.
  eauto 7.
Qed.

Lemma startState_range (f : Font) : -1 <= char (startState f) < 2 ^ 63.
Proof. simpl. lia. Qed.

(** The first loop never touches the index. *)
Lemma scanGlobals_CharMap (s : list string) (f f' : Font) (g g' : globals)
      (s' : list string) :
  scanGlobals s f g = Ok (f', g', s') -> CharMap f' = CharMap f.
Proof.
  revert f g. induction s as [|l s IH]; intros f g H; simpl in H.
  - now injection H as <- <- <-.
  - apply bind_Ok_inv in H as ([[f1 g1] brk] & E & H).
    apply globalsLine_Ok in E as (_ & Hm & _).
    destruct brk.
    + injection H as <- <- <-. exact Hm.
    + rewrite (IH _ _ H). exact Hm.
Qed.

(** No [*Character] stored by [Parse] dangles. *)
Lemma Parse_pointers_valid (data : string) (f : Font) :
  Parse data = Ok f -> pointersValid f.
Proof.
  unfold Parse. intros H.
  apply ParseLines_Ok_inv in H as (f0 & g0 & s0 & st & H1 & H2 & ->).
  apply glyphLoop_Ok in H2 as (_ & _ & _ & _ & _ & _ & Hpv);
    [|apply startState_range].
  apply Hpv. intros r p. simpl.
  rewrite (scanGlobals_CharMap _ _ _ _ _ _ H1). simpl.
  now rewrite lookup_empty.
Qed.

(* ================================================================== *)
(** ** C1: more [STARTCHAR] blocks than [CHARS] declares *)
(* ================================================================== *)

Lemma scanGlobals_CHARS (pre rest more : list string) (line tok : string) (n : Z)
      (f f' : Font) (g g' : globals) (s' : list string) :
  noKeyword "CHARS" pre ->
  Split line = "CHARS" :: tok :: more ->
  Atoi tok = (n, None) ->
  scanGlobals (pre ++ line :: rest) f g = Ok (f', g', s') ->
  s' = rest /\ 0 <= n /\ Characters f' = replicate (Z.to_nat n) zeroCharacter.
Proof.
  intros Hno Hsp Hat H.
  destruct (scanGlobals_noCHARS pre (line :: rest) f g Hno) as [E _].
  rewrite E in H. apply bind_Ok_inv in H as ([[f1 g1] s1] & _ & H).
  simpl in H. apply bind_Ok_inv in H as ([[f2 g2] brk] & El & H).
  apply globalsLine_Ok in El as (Hb & _ & _ & _ & Hcs).
  unfold hasKeyword in Hb. rewrite Hsp in Hb. simpl in Hb. subst brk.
  injection H as <- <- <-.
  destruct (Hcs eq_refl) as (t & n' & Ht & Hn' & Hpos & Hch).
  rewrite Hsp in Ht. injection Ht as <-.
  rewrite Hat in Hn'. injection Hn' as <-. auto.
Qed.

(** C1 (amended).  When the scanned input declares [CHARS n] and more
    than [n] lines after the declaration open a glyph with [STARTCHAR],
    [Parse] returns no [Font]: the call ends in an error or in a panic. *)
Theorem Parse_excess_STARTCHAR
        (data : string) (pre rest more : list string) (line tok : string) (n : Z) :
  ScanLines data = (pre ++ line :: rest)%list ->
  noKeyword "CHARS" pre ->
  Split line = "CHARS" :: tok :: more ->
  Atoi tok = (n, None) ->
  n < countKeyword "STARTCHAR" rest ->
  isOk (Parse data) = false.
Proof.
  intros Hscan Hno Hsp Hat Hcount. unfold Parse. rewrite Hscan.
  destruct (ParseLines (pre ++ line :: rest)) as [f| |] eqn:HP; [|reflexivity..].
  exfalso.
  apply ParseLines_Ok_inv in HP as (f0 & g0 & s0 & st & H1 & H2 & ->).
  destruct (scanGlobals_CHARS _ _ _ _ _ _ _ _ _ _ _ Hno Hsp Hat H1)
    as (-> & Hpos & Hch).
  apply glyphLoop_Ok in H2 as (_ & _ & _ & Hc & Hlt & _); [|apply startState_range].
  simpl in Hc, Hlt. rewrite Hch, length_replicate in Hlt.
  specialize (Hlt ltac:(lia)). lia.
Qed.

Lemma Parse_excess_STARTCHAR_witness :
  isOk (Parse (unlines ["CHARS 1"; "STARTCHAR A"; "STARTCHAR B"])) = false.
Proof.
  apply (Parse_excess_STARTCHAR _ [] ["STARTCHAR A"; "STARTCHAR B"] []
                                "CHARS 1" "1" 1).
  - reflexivity.
  - constructor.
  - reflexivity.
  - reflexivity.
  - vm_compute. reflexivity.
Defined.

(** C1, as stated, fails: the excess [STARTCHAR] indexes the slice out of
    range and the run-time panics; no error value is returned. *)
Lemma Parse_excess_STARTCHAR_panics :
  Parse (unlines ["CHARS 1"; "STARTCHAR A"; "STARTCHAR B"]) = Panic IndexOutOfRange
  /\ ~ (exists e, Parse (unlines ["CHARS 1"; "STARTCHAR A"; "STARTCHAR B"]) = Err e).
Proof.
  assert (E : Parse (unlines ["CHARS 1"; "STARTCHAR A"; "STARTCHAR B"])
              = Panic IndexOutOfRange) by (vm_compute; reflexivity).
  split; [exact E|]. rewrite E. intros [e He]. discriminate He.
Qed.

(* ================================================================== *)
(** ** C7: the input ends inside a glyph block *)
(* ================================================================== *)

Lemma readLines_app (s1 s2 : list string) (p : pphase) :
  readLines (s1 ++ s2) p = Go.bind (readLines s1 p) (readLines s2).
Proof.
  revert p. induction s1 as [|l s1 IH]; intros p; simpl; [reflexivity|].
  destruct (readLine l p); simpl; auto.
Qed.

(** In the second loop, [readLines] is [glyphLoop]. *)
Lemma readLines_Glyphs (cm : option Charmap) (s : list string) (st : pstate) :
  readLines s (Glyphs cm st) =
    Go.bind (glyphLoop cm s st) (fun st' => Ok (Glyphs cm st')).
Proof.
  revert st. induction s as [|l s IH]; intros st; simpl; [reflexivity|].
  destruct (glyphLine cm l st); simpl; auto.
Qed.

Lemma readLines_Header (s : list string) (f : Font) (g : globals) :
  Go.bind (readLines s (Header f g)) (fun p => Ok (fontAt p)) =
    Go.bind (scanGlobals s f g) (fun r =>
      let f := finishGlobals r.1.1 r.1.2 in
      Go.bind (glyphLoop (findCharmap (FontEncoding f)) r.2 (startState f))
              (fun st => Ok (font st))).
Proof.
  revert f g. induction s as [|l s IH]; intros f g; simpl; [reflexivity|].
  destruct (globalsLine l f g) as [[[f' g'] brk]| |]; simpl; auto.
  destruct brk; simpl; [|apply IH].
  rewrite readLines_Glyphs.
  destruct (glyphLoop _ s _); reflexivity.
Qed.

(** [Parse] is the one loop, and returns the [Font] of the state the
    input ends in. *)
Lemma ParseLines_readLines (s : list string) :
  ParseLines s = Go.bind (readLines s startPhase) (fun p => Ok (fontAt p)).
Proof. rewrite ParseLines_unfold. symmetry. apply readLines_Header. Qed.

Lemma readLines_cursorOK (s : list string) (p p' : pphase) :
  readLines s p = Ok p' -> cursorOK p -> cursorOK p'.
Proof.
  revert p. induction s as [|l s IH]; intros p H Hp; simpl in H.
  - now injection H as <-.
  - apply bind_Ok_inv in H as (p1 & E & H). apply (IH _ H).
    destruct p as [f g|cm st]; simpl in E.
    + apply bind_Ok_inv in E as ([[f' g'] brk] & _ & E).
      destruct brk; injection E as <-; simpl; lia.
    + apply bind_Ok_inv in E as (st' & E & E'). injection E' as <-.
      apply glyphLine_Ok in E as (_ & Hc & _); [exact Hc | exact Hp].
Qed.

(** C7 (amended).  The end of the input is never an error, wherever it
    falls: when [Parse] accepts a sequence of lines it accepts every
    prefix [pre] of it, and what it returns for [pre] is the [Font] built
    so far, the one held by the state [p] the parser is in after the last
    line of [pre], from which the parse of the longer input goes on.
    When the cut falls in the second loop, that [Font] has the header
    fields and the number of slots of the final one, and every slot
    below the cursor filled as in the final one. *)
Theorem ParseLines_prefix (pre post : list string) :
  isOk (ParseLines (pre ++ post)) = true ->
  exists p,
    readLines pre startPhase = Ok p
    /\ ParseLines pre = Ok (fontAt p)
    /\ ParseLines (pre ++ post) = Go.bind (readLines post p) (fun p' => Ok (fontAt p'))
    /\ forall cm st f,
         p = Glyphs cm st ->
         ParseLines (pre ++ post) = Ok f ->
         header (font st) = header f
         /\ length (Characters (font st)) = length (Characters f)
         /\ forall i, Z.of_nat i < char st ->
                      Characters (font st) !! i = Characters f !! i.
Proof.
  intros H. rewrite ParseLines_readLines, readLines_app in H.
  apply bind_isOk, bind_isOk, isOk_true in H as [p Hp].
  assert (Hfull : ParseLines (pre ++ post)
                  = Go.bind (readLines post p) (fun p' => Ok (fontAt p')))
    by (rewrite ParseLines_readLines, readLines_app, Hp; reflexivity).
  exists p. split; [exact Hp|].
  split; [rewrite ParseLines_readLines, Hp; reflexivity|].
  split; [exact Hfull|].
  intros cm st f -> Hf. rewrite Hfull, readLines_Glyphs in Hf.
  apply bind_Ok_inv in Hf as (p' & Hrun & Hf).
  apply bind_Ok_inv in Hrun as (st' & Hrun & Hp').
  injection Hp' as <-. injection Hf as <-. simpl.
  pose proof (readLines_cursorOK _ _ _ Hp I) as Hc. simpl in Hc.
  apply glyphLoop_Ok in Hrun as (Hh & _ & Hlen & _ & _ & Hfr & _); [|exact Hc].
  split; [now rewrite Hh|]. split; [now rewrite Hlen|].
  intros i Hi. symmetry. now apply Hfr.
Qed.

Lemma ParseLines_prefix_witness :
  exists f,
    ParseLines ["CHARS 2"; "STARTCHAR A"; "ENDCHAR"; "STARTCHAR B";
                "BBX 8 2 0 0"; "BITMAP"; "FF"] = Ok f
    /\ Name <$> Characters f = ["A"; "B"].
Proof.
  destruct (ParseLines_prefix
              ["CHARS 2"; "STARTCHAR A"; "ENDCHAR"; "STARTCHAR B";
               "BBX 8 2 0 0"; "BITMAP"; "FF"]
              ["81"; "ENDCHAR"]) as (p & Hp & Hf & _).
  - vm_compute. reflexivity.
  - exists (fontAt p). split; [exact Hf|].
    vm_compute in Hp. injection Hp as <-. reflexivity.
Defined.

(** C7, as stated, fails: the inputs below end in Bitmap mode, one row
    short and without [ENDCHAR], and inside a glyph that has only been
    opened; [Parse] returns the [Font] with the glyph as far as the
    lines went. *)
Lemma Parse_unterminated_glyph_accepted :
  match Parse (unlines ["CHARS 1"; "STARTCHAR A"; "BBX 8 2 0 0"; "BITMAP"; "FF"]) with
  | Ok f =>
      Characters f =
        [ {| Name := "A"; Encoding := 0; Advance := (0, 0);
             AlphaOf := Some {| Pix := replicate 8 255 ++ replicate 8 0;
                                Stride := 8; RectMax := (8, 2) |};
             LowerPoint := (0, 0) |} ]
  | _ => False
  end
  /\ match Parse (unlines ["CHARS 1"; "STARTCHAR A"]) with
     | Ok f => Characters f = [setName zeroCharacter "A"]
     | _ => False
     end.
Proof. split; vm_compute; reflexivity. Qed.

(* ================================================================== *)
(** ** C8: two glyphs claim one code point *)
(* ================================================================== *)

Lemma lookup_direct (f : Font) (r : Z) (p : nat) :
  CharMap f !! r = Some p -> lookup f r = Some p.
Proof. unfold lookup. now intros ->. Qed.

(** C8.  Two [ENCODING] lines [e1], then [e2], resolve to the same code
    point [r], and no later line registers [r].  [s1] and [s2] are the
    parser's states when it reaches [e1] and [e2], so [char s1] and
    [char s2] are the slots of the two glyphs.  After the parse the index
    sends [r] to the later slot; the sequence has kept its length, both
    slots are in it, and the earlier glyph's Character is what it was
    when the later block began. *)
Theorem last_encoding_wins
        (cm : option Charmap) (pre mid post : list string) (e1 e2 : string)
        (st s1 s2 st' : pstate) (r : Z) :
  -1 <= char st < 2 ^ 63 ->
  glyphLoop cm pre st = Ok s1 ->
  glyphLoop cm (pre ++ e1 :: mid) st = Ok s2 ->
  glyphLoop cm (pre ++ e1 :: mid ++ e2 :: post) st = Ok st' ->
  encodingOf cm e1 = Some r ->
  encodingOf cm e2 = Some r ->
  Forall (fun l => encodingOf cm l <> Some r) post ->
  lookup (font st') r = Some (Z.to_nat (char s2))
  /\ 0 <= char s1 <= char s2
  /\ char s2 < Z.of_nat (length (Characters (font st')))
  /\ length (Characters (font st')) = length (Characters (font st))
  /\ (char s1 < char s2 ->
      Characters (font st') !! Z.to_nat (char s1)
      = Characters (font s2) !! Z.to_nat (char s1)).
Proof.
  intros Hc H1 H2 H He1 He2 Hpost.
  pose proof (glyphLoop_Ok _ _ _ _ H1 Hc) as (_ & Hc1 & Hlen1 & _).
  pose proof (glyphLoop_Ok _ _ _ _ H2 Hc) as (_ & Hc2 & Hlen2 & _).
  (* from [s1] over [e1 :: mid] to [s2] *)
  rewrite glyphLoop_app, H1 in H2. simpl in H2.
  apply bind_Ok_inv in H2 as (s1' & Hl1 & Hmid).
  pose proof (glyphLine_Ok _ _ _ _ Hl1 Hc1)
    as (_ & Hc1' & _ & Hch1 & _ & _ & Hreg1 & _).
  specialize (Hreg1 _ He1).
  pose proof (glyphLoop_Ok _ _ _ _ Hmid Hc1') as (_ & _ & _ & Hch2 & _).
  pose proof (countKeyword_nonneg "STARTCHAR" mid) as Hnn.
  assert (Hle : char s1 <= char s2)
    by (destruct (hasKeyword "STARTCHAR" e1); lia).
  (* from [s2] over [e2 :: post] to [st'] *)
  replace (pre ++ e1 :: mid ++ e2 :: post)%list
    with ((pre ++ e1 :: mid) ++ e2 :: post)%list in H
    by (now rewrite <- app_assoc).
  rewrite glyphLoop_app in H.
  assert (H2' : glyphLoop cm (pre ++ e1 :: mid) st = Ok s2)
    by (rewrite glyphLoop_app, H1; simpl; now rewrite Hl1).
  rewrite H2' in H. simpl in H.
  apply bind_Ok_inv in H as (s2' & Hl2 & Hrest).
  pose proof (glyphLine_Ok _ _ _ _ Hl2 Hc2)
    as (_ & Hc2' & Hlen3 & Hch3 & _ & Hm & Hreg2 & Hfr).
  specialize (Hreg2 _ He2). rewrite He2 in Hm.
  pose proof (glyphLoop_Ok _ _ _ _ Hrest Hc2')
    as (_ & _ & Hlen4 & _ & _ & Hfr' & _).
  pose proof (glyphLoop_CharMap_frame _ _ _ _ r Hrest Hc2' Hpost) as Hframe.
  assert (Hs2' : char s2 <= char s2')
    by (destruct (hasKeyword "STARTCHAR" e2); lia).
  repeat split; try lia; try congruence.
  - apply lookup_direct. rewrite Hframe, Hm. apply lookup_insert_eq.
  - intros Hlt. rewrite Hfr', Hfr; [reflexivity| |]; lia.
Qed.

Lemma last_encoding_wins_witness :
  match glyphLoop None ["STARTCHAR A"; "ENCODING 65"; "BITMAP"; "ENDCHAR";
                        "STARTCHAR B"; "ENCODING 65"; "DWIDTH 8 0"]
                  (startState (setCharacters initFont (replicate 2 zeroCharacter)))
  with
  | Ok st' => lookup (font st') 65 = Some 1%nat
              /\ Name <$> Characters (font st') = ["A"; "B"]
  | _ => False
  end.
Proof.
  set (st := startState (setCharacters initFont (replicate 2 zeroCharacter))).
  destruct (glyphLoop None ["STARTCHAR A"] st) as [s1| |] eqn:E1;
    [|vm_compute in E1; discriminate E1..].
  destruct (glyphLoop None (["STARTCHAR A"] ++ "ENCODING 65" :: ["BITMAP"; "ENDCHAR"; "STARTCHAR B"]) st)
    as [s2| |] eqn:E2; [|vm_compute in E2; discriminate E2..].
  destruct (glyphLoop None (["STARTCHAR A"] ++ "ENCODING 65" ::
              ["BITMAP"; "ENDCHAR"; "STARTCHAR B"] ++ "ENCODING 65" :: ["DWIDTH 8 0"]) st)
    as [st'| |] eqn:E; [|vm_compute in E; discriminate E..].
  change (glyphLoop None ["STARTCHAR A"; "ENCODING 65"; "BITMAP"; "ENDCHAR";
                           "STARTCHAR B"; "ENCODING 65"; "DWIDTH 8 0"] st)
    with (glyphLoop None (["STARTCHAR A"] ++ "ENCODING 65" ::
              ["BITMAP"; "ENDCHAR"; "STARTCHAR B"] ++ "ENCODING 65" :: ["DWIDTH 8 0"]) st).
  rewrite E.
  assert (Hc : -1 <= char st < 2 ^ 63) by (simpl; lia).
  assert (He : encodingOf None "ENCODING 65" = Some 65) by reflexivity.
  assert (Hpost : Forall (fun l => encodingOf None l <> Some 65) ["DWIDTH 8 0"])
    by (repeat constructor; discriminate).
  destruct (last_encoding_wins None _ _ _ _ _ st s1 s2 st' 65 Hc E1 E2 E He He Hpost)
    as (Hl & _).
  vm_compute in E2. injection E2 as <-.
  split; [exact Hl|].
  vm_compute in E. injection E as <-. reflexivity.
Defined.

(** The same through [Parse]: both glyphs stay in the sequence, and the
    code point they share leads to the second. *)
Example Parse_collision :
  match Parse (unlines ["CHARS 2"; "STARTCHAR A"; "ENCODING 65"; "ENDCHAR";
                        "STARTCHAR B"; "ENCODING 65"; "ENDCHAR"]) with
  | Ok f => Name <$> Characters f = ["A"; "B"]
            /\ Encoding <$> Characters f = [65; 65]
            /\ (Name <$> (p ← lookup f 65; Characters f !! p)) = Some "B"
  | _ => False
  end.
Proof. vm_compute. auto. Qed.

(* ================================================================== *)
(** ** C4: the default character when [DEFAULT_CHAR] is absent *)
(* ================================================================== *)

Lemma charToRune_0 (enc : string) : charToRune enc 0 = 0.
Proof. unfold charToRune. destruct (findCharmap enc) as [[]|]; reflexivity. Qed.

Lemma scanGlobals_defaultChar (s : list string) (f f' : Font) (g g' : globals)
      (s' : list string) :
  noKeyword "DEFAULT_CHAR" s ->
  scanGlobals s f g = Ok (f', g', s') -> defaultChar g' = defaultChar g.
Proof.
  intros Hno. revert f g.
  induction Hno as [|l s Hl Hs IH]; intros f g H; simpl in H.
  - now injection H as <- <- <-.
  - apply bind_Ok_inv in H as ([[f1 g1] brk] & E & H).
    apply globalsLine_Ok in E as (_ & _ & Hd & _). specialize (Hd Hl).
    destruct brk.
    + now injection H as <- <- <-.
    + rewrite (IH _ _ H). exact Hd.
Qed.

(** C4 (what the code does).  [parseGlobalsAndProperties] overwrites the
    32 that [Parse] put in [DefaultChar] with its own local, which starts
    at 0: for a source without a [DEFAULT_CHAR] line the parsed font's
    default code point is 0, not 32. *)
Theorem Parse_DefaultChar_undeclared (data : string) (f : Font) :
  noKeyword "DEFAULT_CHAR" (ScanLines data) ->
  Parse data = Ok f ->
  DefaultChar f = 0.
Proof.
  intros Hno H. unfold Parse in H.
  apply ParseLines_Ok_inv in H as (f0 & g0 & s0 & st & H1 & H2 & ->).
  apply glyphLoop_Ok in H2 as (Hh & _); [|apply startState_range].
  apply (f_equal snd) in Hh. simpl in Hh. rewrite Hh.
  rewrite (scanGlobals_defaultChar _ _ _ _ _ _ Hno H1). simpl.
  apply charToRune_0.
Qed.

Lemma Parse_DefaultChar_undeclared_witness :
  match Parse (unlines ["CHARS 1"; "STARTCHAR space"; "ENCODING 32"; "ENDCHAR"]) with
  | Ok f => DefaultChar f = 0
  | _ => False
  end.
Proof.
  destruct (Parse (unlines ["CHARS 1"; "STARTCHAR space"; "ENCODING 32"; "ENDCHAR"]))
    as [f| |] eqn:E; [|vm_compute in E; discriminate E..].
  apply (Parse_DefaultChar_undeclared
           (unlines ["CHARS 1"; "STARTCHAR space"; "ENCODING 32"; "ENDCHAR"]) f);
    [|exact E].
  vm_compute. repeat constructor.
Defined.

(** With the glyph of code point 32 in place and no [DEFAULT_CHAR] line,
    a code point without glyph finds nothing. *)
Example lookup_misses_space :
  match Parse (unlines ["CHARS 1"; "STARTCHAR space"; "ENCODING 32"; "ENDCHAR"]) with
  | Ok f => DefaultChar f = 0 /\ CharMap f !! 32 = Some 0%nat /\ lookup f 66 = None
  | _ => False
  end.
Proof. vm_compute. auto. Qed.

(* ================================================================== *)
(** ** C6: malformed lines *)
(* ================================================================== *)

Lemma Atoi_error (tok : string) (v : Z) (e : error) :
  Atoi tok = (v, Some e) -> exists k, e = NumError "Atoi" tok k.
Proof.
  unfold Atoi. destruct (parseInt tok) as [v' [k|]]; simpl; [|discriminate].
  intros [= _ <-]. eauto.
Qed.

Ltac header_keywords c0 :=
  unfold inb; simpl existsb;
  repeat match goal with
  | |- context [(c0 =? ?k)%string] =>
      destruct (String.eqb_spec c0 k) as [->|?]
  end; simpl.


Ltac ints_before Hb :=
  repeat match goal with
  | |- context [Atoi ?t] =>
      let H := fresh "Hint" in
      assert (H : (Atoi t).2 = None)
        by (first [ apply (Hb 1%nat); [lia | reflexivity]
                  | apply (Hb 2%nat); [lia | reflexivity]
                  | apply (Hb 3%nat); [lia | reflexivity] ]);
      destruct (Atoi t) as [? [?|]]; [discriminate H|]; clear H; simpl
  end.

Ltac long_line :=
  repeat match goal with
  | |- context [4 <? ?x] => destruct (Z.ltb_spec 4 x)
  | H : 4 < _ |- _ => progress simpl length in H
  | H : _ <= 4 |- _ => progress simpl length in H
  end.

Lemma globalsLine_bad_integer (line : string) (i : nat) (tok : string)
      (v : Z) (e : error) (f : Font) (g : globals) :
  (1 <= i <= headerInts (Split line))%nat ->
  Split line !! i = Some tok ->
  Atoi tok = (v, Some e) ->
  intsBefore (Split line) i ->
  globalsLine line f g = Err e.
Proof.
  unfold globalsLine, headerInts.
  destruct (Split line) as [|c0 cs]; [intros _ H; discriminate H|].
  simpl keyword. intros Hi Hl Ha Hb. revert Hi.
  header_keywords c0; long_line; intros Hi; try lia.
  all: destruct i as [|[|[|[|[|i]]]]]; try lia.
  all: destruct cs as [|t1 [|t2 [|t3 [|t4 more]]]];
    simpl in Hl; first [discriminate Hl | injection Hl as ->]; try lia.
  all: simpl; ints_before Hb; rewrite ?Ha; try reflexivity.
Qed.

Lemma globalsLine_missing (line : string) (i : nat) (f : Font) (g : globals) :
  (1 <= i <= headerArgs (Split line))%nat ->
  Split line !! i = None ->
  intsBefore (Split line) i ->
  globalsLine line f g = Panic IndexOutOfRange.
Proof.
  unfold globalsLine, headerArgs, headerInts.
  destruct (Split line) as [|c0 cs].
  { simpl. intros Hi. lia. }
  simpl keyword. intros Hi Hl Hb. revert Hi.
  header_keywords c0; long_line; intros Hi; try lia.
  all: destruct i as [|[|[|[|[|i]]]]]; try lia.
  all: destruct cs as [|t1 [|t2 [|t3 [|t4 more]]]];
    simpl in Hl; try discriminate Hl; try lia.
  all: simpl; ints_before Hb; try reflexivity.
Qed.

Lemma updChar_cases (f : Font) (c : Z) (upd : Character -> Character) :
  updChar f c upd = Panic IndexOutOfRange
  \/ exists f', updChar f c upd = Ok f'
                /\ length (Characters f') = length (Characters f).
Proof.
  unfold updChar, index. destruct (c <? 0); [now left|].
  destruct (Characters f !! Z.to_nat c); [|now left].
  right. eexists. split; [reflexivity|]. simpl. apply length_insert.
Qed.

Lemma updChar_in_range (f : Font) (c : Z) (upd : Character -> Character) :
  0 <= c < Z.of_nat (length (Characters f)) ->
  exists f', updChar f c upd = Ok f'
             /\ length (Characters f') = length (Characters f).
Proof.
  intros Hc. unfold updChar, index. destruct (Z.ltb_spec c 0); [lia|].
  destruct (lookup_lt_is_Some_2 (Characters f) (Z.to_nat c)) as [ch ->]; [lia|].
  eexists. split; [reflexivity|]. simpl. apply length_insert.
Qed.

Ltac glyph_keywords c0 :=
  repeat match goal with
  | |- context [(c0 =? ?k)%string] =>
      destruct (String.eqb_spec c0 k) as [->|?]
  end; simpl.

Lemma glyphLine_bad_integer (cm : option Charmap) (line : string) (i : nat)
      (tok : string) (v : Z) (e : error) (st : pstate) :
  inBitmap st = false ->
  (1 <= i <= glyphInts (Split line))%nat ->
  Split line !! i = Some tok ->
  Atoi tok = (v, Some e) ->
  intsBefore (Split line) i ->
  (keyword (Split line) = "DWIDTH" ->
   0 <= char st < Z.of_nat (length (Characters (font st)))) ->
  glyphLine cm line st = Err e.
Proof.
  unfold glyphLine, glyphInts. intros ->.
  destruct (Split line) as [|c0 cs]; [intros _ H; discriminate H|].
  simpl keyword. intros Hi Hl Ha Hb Hc. revert Hi Hc. simpl negb. cbv iota.
  glyph_keywords c0; intros Hi Hc; try lia.
  all: destruct i as [|[|[|[|[|i]]]]]; try lia.
  all: destruct cs as [|t1 [|t2 [|t3 [|t4 more]]]];
    simpl in Hl; first [discriminate Hl | injection Hl as ->]; try lia.
  all: simpl; ints_before Hb; rewrite ?Ha; try reflexivity.
  all: specialize (Hc eq_refl).
  all: repeat match goal with
       | |- context [updChar ?f ?c ?u] =>
           let H := fresh "Hlen" in
           destruct (updChar_in_range f c u) as (? & -> & H);
             [rewrite ?H; try exact Hc;
              repeat match goal with
                     | H' : length _ = length _ |- _ => rewrite H'
                     end; exact Hc|];
           simpl
       end; rewrite ?Ha; reflexivity.
Qed.

Lemma glyphLine_missing (cm : option Charmap) (line : string) (i : nat)
      (st : pstate) :
  inBitmap st = false ->
  (1 <= i <= glyphArgs (Split line))%nat ->
  Split line !! i = None ->
  intsBefore (Split line) i ->
  glyphLine cm line st = Panic IndexOutOfRange.
Proof.
  unfold glyphLine, glyphArgs, glyphInts. intros ->.
  destruct (Split line) as [|c0 cs].
  { simpl. intros Hi. lia. }
  simpl keyword. intros Hi Hl Hb. revert Hi. simpl negb. cbv iota.
  glyph_keywords c0; intros Hi; try lia.
  all: destruct i as [|[|[|[|[|i]]]]]; try lia.
  all: destruct cs as [|t1 [|t2 [|t3 [|t4 more]]]];
    simpl in Hl; try discriminate Hl; try lia.
  all: simpl; ints_before Hb; try reflexivity.
  all: match goal with
       | |- context [updChar ?f ?c ?u] =>
           destruct (updChar_cases f c u) as [->|(? & -> & _)]; reflexivity
       end.
Qed.

Lemma glyphLine_bad_row (cm : option Charmap) (line : string) (e : error)
      (st : pstate) :
  inBitmap st = true ->
  hasKeyword "ENDCHAR" line = false ->
  DecodeString line = Err e ->
  glyphLine cm line st = Err e.
Proof.
  unfold glyphLine, hasKeyword. intros -> -> ->. reflexivity.
Qed.

(** The header lines [pre] have been read without failure and without
    meeting [CHARS]: the parse of [pre ++ s] stands or falls with the
    first line of [s]. *)
Lemma ParseLines_header_line (pre rest : list string) (line : string) :
  noKeyword "CHARS" pre ->
  isOk (ParseLines pre) = true ->
  exists f g,
    (forall e, globalsLine line f g = Err e ->
               ParseLines (pre ++ line :: rest) = Err e)
    /\ (forall p, globalsLine line f g = Panic p ->
                  ParseLines (pre ++ line :: rest) = Panic p).
Proof.
  intros Hno Hok. rewrite ParseLines_unfold in Hok.
  apply bind_isOk, isOk_true in Hok as [[[f g] s] Hpre].
  exists f, g.
  destruct (scanGlobals_noCHARS pre (line :: rest) initFont globals0 Hno) as [E _].
  split; intros x Hx; rewrite ParseLines_unfold, E, Hpre; simpl; now rewrite Hx.
Qed.

(** C6 (amended).  A keyword reads its tokens from left to right, and the
    first one that is missing or is no integer decides.

    In the header, after lines read without failure: when token [i] of
    the line is one of the integers its keyword checks and
    [strconv.Atoi] rejects it, the integers before it being well formed,
    [Parse] returns that error, which names the token; when token [i] is
    one the keyword reads and the line ends before it, [Parse] panics.

    In a glyph block, after lines read without failure, the same holds
    outside the bitmap (for [DWIDTH], whose integers are stored before
    they are checked, with the cursor on a slot); in the bitmap a line
    other than [ENDCHAR] that [hex.DecodeString] rejects makes [Parse]
    return that error. *)
Theorem malformed_line (pre rest : list string) (line : string) :
  (noKeyword "CHARS" pre ->
   isOk (ParseLines pre) = true ->
   (forall i tok v e,
       (1 <= i <= headerInts (Split line))%nat ->
       Split line !! i = Some tok ->
       Atoi tok = (v, Some e) ->
       intsBefore (Split line) i ->
       ParseLines (pre ++ line :: rest) = Err e
       /\ exists k, e = NumError "Atoi" tok k)
   /\ (forall i,
       (1 <= i <= headerArgs (Split line))%nat ->
       Split line !! i = None ->
       intsBefore (Split line) i ->
       ParseLines (pre ++ line :: rest) = Panic IndexOutOfRange))
  /\ (forall cm st s1,
       glyphLoop cm pre st = Ok s1 ->
       (inBitmap s1 = false ->
        (forall i tok v e,
            (1 <= i <= glyphInts (Split line))%nat ->
            Split line !! i = Some tok ->
            Atoi tok = (v, Some e) ->
            intsBefore (Split line) i ->
            (keyword (Split line) = "DWIDTH" ->
             0 <= char s1 < Z.of_nat (length (Characters (font s1)))) ->
            glyphLoop cm (pre ++ line :: rest) st = Err e
            /\ exists k, e = NumError "Atoi" tok k)
        /\ (forall i,
            (1 <= i <= glyphArgs (Split line))%nat ->
            Split line !! i = None ->
            intsBefore (Split line) i ->
            glyphLoop cm (pre ++ line :: rest) st = Panic IndexOutOfRange))
       /\ (inBitmap s1 = true ->
           hasKeyword "ENDCHAR" line = false ->
           forall e, DecodeString line = Err e ->
                     glyphLoop cm (pre ++ line :: rest) st = Err e)).
Proof.
  split.
  - intros Hno Hok.
    destruct (ParseLines_header_line pre rest line Hno Hok) as (f & g & HE & HP).
    split.
    + intros i tok v e Hi Hl Ha Hb. split.
      * apply HE. eapply globalsLine_bad_integer; eauto.
      * eapply Atoi_error; eauto.
    + intros i Hi Hl Hb. apply HP. eapply globalsLine_missing; eauto.
  - intros cm st s1 Hpre. split; [intros Hm; split|].
    + intros i tok v e Hi Hl Ha Hb Hc. split.
      * rewrite glyphLoop_app, Hpre. simpl.
        now rewrite (glyphLine_bad_integer cm line i tok v e s1 Hm Hi Hl Ha Hb Hc).
      * eapply Atoi_error; eauto.
    + intros i Hi Hl Hb. rewrite glyphLoop_app, Hpre. simpl.
      now rewrite (glyphLine_missing cm line i s1 Hm Hi Hl Hb).
    + intros Hm Hk e He. rewrite glyphLoop_app, Hpre. simpl.
      now rewrite (glyphLine_bad_row cm line e s1 Hm Hk He).
Qed.

Ltac tokens_before :=
  let j := fresh "j" in
  let t := fresh "t" in
  let Hj := fresh "Hj" in
  let Hl := fresh "Hl" in
  intros j t Hj Hl;
  do 4 (destruct j as [|j]; [try lia; vm_compute in Hl; injection Hl as <-; reflexivity|]);
  lia.

Lemma malformed_line_witness :
  ParseLines (["FONT x"] ++ "SIZE 8 75 7x" :: ["CHARS 0"])
    = Err (NumError "Atoi" "7x" ErrSyntax)
  /\ ParseLines (["FONT x"] ++ "SIZE 8" :: ["CHARS 0"]) = Panic IndexOutOfRange
  /\ glyphLoop None (["STARTCHAR A"] ++ "DWIDTH 8 0x0" :: ["ENDCHAR"])
               (startState (setCharacters initFont (replicate 1 zeroCharacter)))
     = Err (NumError "Atoi" "0x0" ErrSyntax)
  /\ glyphLoop None (["STARTCHAR A"] ++ "BBX 8 2 0" :: ["ENDCHAR"])
               (startState (setCharacters initFont (replicate 1 zeroCharacter)))
     = Panic IndexOutOfRange
  /\ glyphLoop None (["STARTCHAR A"; "BBX 8 1 0 0"; "BITMAP"] ++ "FG" :: ["ENDCHAR"])
               (startState (setCharacters initFont (replicate 1 zeroCharacter)))
     = Err (InvalidByteError "G").
Proof.
  assert (Hno : noKeyword "CHARS" ["FONT x"]) by (repeat constructor).
  assert (Hok : isOk (ParseLines ["FONT x"]) = true) by (vm_compute; reflexivity).
  set (st := startState (setCharacters initFont (replicate 1 zeroCharacter))).
  destruct (glyphLoop None ["STARTCHAR A"] st) as [s1| |] eqn:E1;
    [|vm_compute in E1; discriminate E1..].
  assert (Hm : inBitmap s1 = false)
    by (vm_compute in E1; injection E1 as <-; reflexivity).
  assert (Hc : 0 <= char s1 < Z.of_nat (length (Characters (font s1))))
    by (vm_compute in E1; injection E1 as <-; simpl; lia).
  destruct (glyphLoop None ["STARTCHAR A"; "BBX 8 1 0 0"; "BITMAP"] st)
    as [s2| |] eqn:E2; [|vm_compute in E2; discriminate E2..].
  assert (Hm2 : inBitmap s2 = true)
    by (vm_compute in E2; injection E2 as <-; reflexivity).
  split; [|split; [|split; [|split]]].
  - apply (proj1 (proj1 (malformed_line ["FONT x"] ["CHARS 0"] "SIZE 8 75 7x")
                        Hno Hok) 3%nat "7x" 0);
      [vm_compute; lia | reflexivity | reflexivity | tokens_before].
  - apply (proj2 (proj1 (malformed_line ["FONT x"] ["CHARS 0"] "SIZE 8")
                        Hno Hok) 2%nat);
      [vm_compute; lia | reflexivity | tokens_before].
  - apply (proj1 (proj1 (proj2 (malformed_line ["STARTCHAR A"] ["ENDCHAR"]
                                               "DWIDTH 8 0x0")
                               None st s1 E1) Hm) 2%nat "0x0" 0);
      [vm_compute; lia | reflexivity | reflexivity | tokens_before
      | intros _; exact Hc].
  - apply (proj2 (proj1 (proj2 (malformed_line ["STARTCHAR A"] ["ENDCHAR"]
                                               "BBX 8 2 0")
                               None st s1 E1) Hm) 4%nat);
      [vm_compute; lia | reflexivity | tokens_before].
  - apply (proj2 (proj2 (malformed_line ["STARTCHAR A"; "BBX 8 1 0 0"; "BITMAP"]
                                        ["ENDCHAR"] "FG")
                        None st s2 E2) Hm2);
      reflexivity.
Defined.

(** C6, as stated, fails twice.  A recognized keyword with too few tokens
    does not make [Parse] return an error: the run-time panics.  And the
    error of a non-numeric [PIXEL_SIZE] argument is dropped: [Parse]
    returns a [Font], with [PixelSize] 0. *)
Lemma Parse_malformed_line_not_an_error :
  Parse (unlines ["FONT_ASCENT"; "CHARS 0"]) = Panic IndexOutOfRange
  /\ match Parse (unlines ["PIXEL_SIZE abc"; "CHARS 0"]) with
     | Ok f => PixelSize f = 0
     | _ => False
     end.
Proof. split; vm_compute; reflexivity. Qed.

(* ================================================================== *)
(** ** C2: [lookup] *)
(* ================================================================== *)

(** C2.  On a parsed font, [lookup] returns the Character registered for
    the code point; without such an entry it returns the one registered
    for [DefaultChar]; it returns nil exactly when neither is registered.
    What it returns is a slot of [Characters]. *)
Theorem lookup_spec (data : string) (f : Font) (r : Z) :
  Parse data = Ok f ->
  (forall p, CharMap f !! r = Some p -> lookup f r = Some p)
  /\ (CharMap f !! r = None -> lookup f r = CharMap f !! DefaultChar f)
  /\ (lookup f r = None <->
      CharMap f !! r = None /\ CharMap f !! DefaultChar f = None)
  /\ (forall p, lookup f r = Some p -> exists c, deref f p = Ok c).
Proof.
  intros HP. apply Parse_pointers_valid in HP.
  unfold lookup. repeat split.
  - now intros p ->.
  - intros ->. now destruct (CharMap f !! DefaultChar f).
  - destruct (CharMap f !! r); [discriminate|reflexivity].
  - destruct (CharMap f !! r); [discriminate|].
    destruct (CharMap f !! DefaultChar f); [discriminate|reflexivity].
  - intros [-> ->]. reflexivity.
  - intros p Hp.
    assert (Hin : exists k, CharMap f !! k = Some p).
    { destruct (CharMap f !! r) eqn:E1; [injection Hp as ->; eauto|].
      destruct (CharMap f !! DefaultChar f) eqn:E2; [|discriminate].
      injection Hp as ->. eauto. }
    destruct Hin as [k Hk]. apply HP in Hk.
    apply lookup_lt_is_Some in Hk as [c Hc].
    exists c. unfold deref. now rewrite Hc.
Qed.

Lemma lookup_spec_witness :
  match Parse sampleSource with
  | Ok f => lookup f 65 = Some 0%nat
            /\ lookup f 67 = CharMap f !! DefaultChar f
  | _ => False
  end.
Proof.
  destruct (Parse sampleSource) as [f| |] eqn:E;
    [|vm_compute in E; discriminate E..].
  pose proof (lookup_spec sampleSource f 65 E) as (H65 & _).
  pose proof (lookup_spec sampleSource f 67 E) as (_ & H67 & _).
  vm_compute in E. injection E as <-.
  split; [apply H65 | apply H67]; reflexivity.
Defined.

(* ================================================================== *)
(** ** C5 and C10: the charmap resolver *)
(* ================================================================== *)

Lemma findCharmap_table (s : string) (m : Charmap) :
  findCharmap s = Some m <-> (TrimSpace (ToLower s), m) ∈ knownCharsets.
Proof.
  unfold findCharmap, knownMaps. symmetry.
  apply (elem_of_list_to_map (M := gmap string)).
  apply (bool_decide_unpack _). vm_compute. exact I.
Qed.

Lemma lowerByte_space (c : ascii) : asciiSpace c = true -> lowerByte c = c.
Proof.
  destruct c as [[] [] [] [] [] [] [] []]; vm_compute; congruence.
Qed.

Lemma ToLower_app (s t : string) : ToLower (s ++ t) = (ToLower s ++ ToLower t)%string.
Proof. induction s as [|c s IH]; simpl; [reflexivity|]. now rewrite IH. Qed.

Lemma ToLower_space (s : string) : allSpace s = true -> ToLower s = s.
Proof.
  induction s as [|c s IH]; simpl; [reflexivity|].
  intros [Hc Hs]%andb_prop. now rewrite lowerByte_space, IH.
Qed.

Lemma TrimLeft_space (ws s : string) :
  allSpace ws = true -> TrimLeft (ws ++ s) = TrimLeft s.
Proof.
  induction ws as [|c ws IH]; simpl; [reflexivity|].
  intros [Hc Hs]%andb_prop. rewrite Hc. auto.
Qed.

Lemma TrimRight_all_space (ws : string) : allSpace ws = true -> TrimRight ws = "".
Proof.
  induction ws as [|c ws IH]; simpl; [reflexivity|].
  intros [Hc Hs]%andb_prop. now rewrite IH, Hc.
Qed.

Lemma TrimRight_space (s ws : string) :
  allSpace ws = true -> TrimRight (s ++ ws) = TrimRight s.
Proof.
  intros Hws. induction s as [|c s IH]; simpl.
  - now apply TrimRight_all_space.
  - now rewrite IH.
Qed.

Lemma TrimLeft_all_space (ws : string) : allSpace ws = true -> TrimLeft ws = "".
Proof.
  induction ws as [|c ws IH]; simpl; [reflexivity|].
  intros [Hc Hs]%andb_prop. rewrite Hc. auto.
Qed.

Lemma TrimSpace_space_r (s ws : string) :
  allSpace ws = true -> TrimSpace (s ++ ws) = TrimSpace s.
Proof.
  intros Hws. unfold TrimSpace. induction s as [|c s IH]; simpl.
  - now rewrite TrimLeft_all_space.
  - destruct (asciiSpace c); [exact IH|].
    change (String c (s ++ ws)) with ((String c s) ++ ws)%string.
    now apply TrimRight_space.
Qed.

Lemma findCharmap_trimmed (ws1 ws2 s : string) :
  allSpace ws1 = true -> allSpace ws2 = true ->
  findCharmap (ws1 ++ s ++ ws2) = findCharmap s.
Proof.
  intros H1 H2. unfold findCharmap.
  rewrite !ToLower_app, (ToLower_space _ H1), (ToLower_space _ H2).
  unfold TrimSpace at 1. rewrite (TrimLeft_space _ _ H1).
  fold (TrimSpace (ToLower s ++ ws2)). now rewrite TrimSpace_space_r.
Qed.

(** C5 (amended).  For an identifier of ASCII bytes, [findCharmap] finds
    the charmap whose name in a table of four is the identifier
    lower-cased and trimmed, so that case and surrounding white space
    play no part; ["ISO8859-1"] sends 0xE9 to U+00E9; for an identifier
    outside the table a raw code resolves to its conversion to [rune],
    which is the code itself when it fits in 32 bits. *)
Theorem charmap_resolution :
  (forall s m, isASCII s = true ->
     (findCharmap s = Some m <-> (TrimSpace (ToLower s), m) ∈ knownCharsets))
  /\ (forall s1 s2, isASCII s1 = true -> isASCII s2 = true ->
        ToLower s1 = ToLower s2 -> findCharmap s1 = findCharmap s2)
  /\ (forall ws1 ws2 s, isASCII s = true ->
        allSpace ws1 = true -> allSpace ws2 = true ->
        findCharmap (ws1 ++ s ++ ws2) = findCharmap s)
  /\ charToRune "ISO8859-1" 0xE9 = 0xE9
  /\ (forall enc c, isASCII enc = true -> findCharmap enc = None ->
        charToRune enc c = rune c
        /\ (- 2 ^ 31 <= c < 2 ^ 31 -> charToRune enc c = c)).
Proof.
  split; [intros s m _; apply findCharmap_table|].
  split; [intros s1 s2 _ _ H; unfold findCharmap; now rewrite H|].
  split; [intros ws1 ws2 s _; apply findCharmap_trimmed|].
  split; [reflexivity|].
  intros enc c _ H. unfold charToRune. rewrite H.
  split; [reflexivity|]. apply rune_small.
Qed.

Lemma charmap_resolution_witness :
  findCharmap (" " ++ "Iso8859-15" ++ " ") = Some ISO8859_15
  /\ charToRune "FontSpecific" 233 = 233.
Proof.
  destruct charmap_resolution as (_ & _ & Htrim & _ & Hid).
  split.
  - rewrite (Htrim " " " " "Iso8859-15"); reflexivity.
  - apply (Hid "FontSpecific" 233); [reflexivity | reflexivity | lia].
Defined.

(** C5, as stated, fails: an [int] that does not fit a [rune] is cut to
    32 bits. *)
Lemma charToRune_not_identity :
  findCharmap "FontSpecific" = None
  /\ charToRune "FontSpecific" 4294967361 = 65.
Proof. split; reflexivity. Qed.

Arguments byte z : simpl never.
Arguments rune z : simpl never.




(** The same through [Parse], for [DEFAULT_CHAR] and for [ENCODING]. *)
Example Parse_low_byte :
  match Parse (unlines ["CHARSET_REGISTRY ISO8859"; "CHARSET_ENCODING 1";
                        "DEFAULT_CHAR 288"; "CHARS 1";
                        "STARTCHAR eacute"; "ENCODING 489"; "ENDCHAR"]) with
  | Ok f => FontEncoding f = "ISO8859-1" /\ DefaultChar f = 32
            /\ CharMap f !! 233 = Some 0%nat
  | _ => False
  end.
Proof. vm_compute. auto. Qed.

(* ================================================================== *)
(** ** C9: [GlyphBounds] *)
(* ================================================================== *)

Lemma fixed_I_scale (i : Z) : - 2 ^ 25 <= i < 2 ^ 25 -> fixed.I i = 64 * i.
Proof.
  intros H. unfold fixed.I. rewrite Z.shiftl_mul_pow2 by lia.
  change (2 ^ 6) with 64.
  rewrite int_small by lia.
  unfold int32. rewrite wrap_small; lia.
Qed.

Lemma fixed_R_ordered (x0 y0 x1 y1 : Z) :
  x0 <= x1 -> y0 <= y1 ->
  fixed.R x0 y0 x1 y1 =
    {| fixed.Min := {| fixed.X := fixed.I x0; fixed.Y := fixed.I y0 |};
       fixed.Max := {| fixed.X := fixed.I x1; fixed.Y := fixed.I y1 |} |}.
Proof.
  intros Hx Hy. unfold fixed.R.
  destruct (Z.ltb_spec x1 x0); [lia|].
  destruct (Z.ltb_spec y1 y0); [lia|]. reflexivity.
Qed.

(** C9 (amended).  On a hit whose Character has a raster, [GlyphBounds]
    returns the rectangle from the glyph's horizontal origin offset to
    that offset plus the raster width, between the font's ascent and
    descent, the glyph's horizontal advance and [true], all in 26.6 fixed
    point: for design units in range, the values times 64.  On a hit
    whose Character has no raster the call panics.  On a miss it
    returns the zero-width rectangle between the font's ascent and
    descent, advance 0 and [false]. *)
Theorem GlyphBounds_spec (fa : Face) (r : Z) :
  (forall p c a,
      lookup (FaceFont fa) r = Some p ->
      Characters (FaceFont fa) !! p = Some c ->
      AlphaOf c = Some a ->
      GlyphBounds fa r =
        Ok (fixed.R (LowerPoint c).1 (int (- Ascent (FaceFont fa)))
                    (int ((LowerPoint c).1 + Dx a)) (Descent (FaceFont fa)),
            fixed.I (Advance c).1, true)
      /\ (fitsFixed (LowerPoint c).1 -> fitsFixed (RectMax a).1 ->
          0 <= (RectMax a).1 ->
          fitsFixed (Ascent (FaceFont fa)) -> fitsFixed (Descent (FaceFont fa)) ->
          0 <= Ascent (FaceFont fa) + Descent (FaceFont fa) ->
          fitsFixed (Advance c).1 ->
          GlyphBounds fa r =
            Ok ({| fixed.Min := {| fixed.X := 64 * (LowerPoint c).1;
                                   fixed.Y := - (64 * Ascent (FaceFont fa)) |};
                   fixed.Max := {| fixed.X := 64 * ((LowerPoint c).1 + (RectMax a).1);
                                   fixed.Y := 64 * Descent (FaceFont fa) |} |},
                64 * (Advance c).1, true)))
  /\ (forall p c,
      lookup (FaceFont fa) r = Some p ->
      Characters (FaceFont fa) !! p = Some c ->
      AlphaOf c = None ->
      GlyphBounds fa r = Panic NilDereference)
  /\ (lookup (FaceFont fa) r = None ->
      GlyphBounds fa r =
        Ok (fixed.R 0 (int (- Ascent (FaceFont fa))) 0 (Descent (FaceFont fa)),
            0, false)
      /\ fixed.X (fixed.Min (fixed.R 0 (int (- Ascent (FaceFont fa))) 0
                                     (Descent (FaceFont fa)))) = 0
      /\ fixed.X (fixed.Max (fixed.R 0 (int (- Ascent (FaceFont fa))) 0
                                     (Descent (FaceFont fa)))) = 0).
Proof.
  split; [|split].
  - intros p c a Hl Hc Ha.
    assert (E : GlyphBounds fa r =
        Ok (fixed.R (LowerPoint c).1 (int (- Ascent (FaceFont fa)))
                    (int ((LowerPoint c).1 + Dx a)) (Descent (FaceFont fa)),
            fixed.I (Advance c).1, true)).
    { unfold GlyphBounds, deref. rewrite Hl, Hc. simpl. rewrite Ha. reflexivity. }
    split; [exact E|].
    unfold fitsFixed. intros Hlx Hw Hw0 Hasc Hdesc Hh Hadv.
    rewrite E. unfold Dx.
    rewrite Z.sub_0_r, (int_small (RectMax a).1) by lia.
    rewrite (int_small (- Ascent (FaceFont fa))) by lia.
    rewrite (int_small ((LowerPoint c).1 + (RectMax a).1)) by lia.
    rewrite fixed_R_ordered by lia.
    rewrite !fixed_I_scale by lia.
    repeat f_equal; lia.
  - intros p c Hl Hc Ha.
    unfold GlyphBounds, deref. rewrite Hl, Hc. simpl. now rewrite Ha.
  - intros Hl. split; [unfold GlyphBounds; now rewrite Hl|].
    unfold fixed.R. simpl.
    destruct (Descent (FaceFont fa) <? int (- Ascent (FaceFont fa))); split; reflexivity.
Qed.

Lemma GlyphBounds_spec_witness :
  match Parse sampleSource with
  | Ok f =>
      GlyphBounds (NewFace f) 65 =
        Ok ({| fixed.Min := {| fixed.X := 64; fixed.Y := -448 |};
               fixed.Max := {| fixed.X := 576; fixed.Y := 64 |} |}, 512, true)
      /\ GlyphBounds (NewFace f) 67 =
        Ok ({| fixed.Min := {| fixed.X := 0; fixed.Y := -448 |};
               fixed.Max := {| fixed.X := 0; fixed.Y := 64 |} |}, 0, false)
  | _ => False
  end.
Proof.
  destruct (Parse sampleSource) as [f| |] eqn:E;
    [|vm_compute in E; discriminate E..].
  vm_compute in E. injection E as <-.
  match goal with |- GlyphBounds (NewFace ?f) _ = _ /\ _ => set (F := f) end.
  split.
  - destruct (Characters F !! 0%nat) as [c|] eqn:Hc; [|discriminate Hc].
    destruct (AlphaOf c) as [a|] eqn:Ha;
      [|vm_compute in Hc; injection Hc as <-; discriminate Ha].
    destruct (GlyphBounds_spec (NewFace F) 65) as (Hhit & _ & _).
    destruct (Hhit 0%nat c a eq_refl Hc Ha) as [_ Hs].
    vm_compute in Hc. injection Hc as <-.
    vm_compute in Ha. injection Ha as <-.
    rewrite Hs; [reflexivity|unfold fitsFixed; simpl; lia..].
  - destruct (GlyphBounds_spec (NewFace F) 67) as (_ & _ & Hmiss).
    destruct (Hmiss eq_refl) as [-> _]. reflexivity.
Defined.

(** C9, as stated, fails on a hit whose Character has no raster: the
    glyph ["bare"] of [sampleSource] has no [BBX] line, its [Alpha] is
    nil, and the call panics. *)
Lemma GlyphBounds_hit_without_raster :
  match Parse sampleSource with
  | Ok f => lookup f 66 = Some 1%nat
            /\ GlyphBounds (NewFace f) 66 = Panic NilDereference
  | _ => False
  end.
Proof. vm_compute. auto. Qed.

(* ================================================================== *)
(** ** C3: bit-depth decoding *)
(* ================================================================== *)

Lemma land_1_mod (x : Z) : Z.land x 1 = x mod 2.
Proof. change 1 with (Z.ones 1). now rewrite Z.land_ones by lia. Qed.

Lemma land_1_range (x : Z) : 0 <= Z.land x 1 <= 1.
Proof.
  rewrite land_1_mod. pose proof (Z.mod_pos_bound x 2 eq_refl). lia.
Qed.

Lemma bitOf_range (b : list Z) (k : Z) : 0 <= bitOf b k <= 1.
Proof. apply land_1_range. Qed.

Lemma msbValue_range (b : list Z) (n : nat) (k : Z) :
  0 <= msbValue b k n < 2 ^ Z.of_nat n.
Proof.
  revert k. induction n as [|n IH]; intros k; simpl msbValue.
  - simpl. lia.
  - rewrite Nat2Z.inj_succ, Z.pow_succ_r by lia.
    pose proof (bitOf_range b k). specialize (IH (k + 1)). nia.
Qed.

Lemma bitAt_Ok (b : list Z) (k : Z) :
  0 <= k < 8 * Z.of_nat (length b) ->
  bitAt b k = Ok (bitOf b k).
Proof.
  intros Hk. unfold bitAt, bitOf.
  rewrite Z.shiftr_div_pow2 by lia. change (2 ^ 3) with 8.
  assert (Hq : 0 <= k / 8 < Z.of_nat (length b)).
  { split; [apply Z.div_pos; lia | apply Z.div_lt_upper_bound; lia]. }
  destruct (lookup_lt_is_Some_2 b (Z.to_nat (k / 8)) ltac:(lia)) as [x Hx].
  rewrite (index_Ok b (k / 8) x) by (tauto || exact Hx). simpl.
  rewrite (nth_lookup_Some _ _ 0 _ Hx).
  rewrite Z.rem_mod_nonneg by lia.
  pose proof (Z.mod_pos_bound k 8 eq_refl).
  rewrite int_small by lia.
  destruct (Z.ltb_spec (7 - k mod 8) 0); [lia|reflexivity].
Qed.

Lemma lor_bit (v bit : Z) : 0 <= bit <= 1 -> Z.lor (v * 2) bit = v * 2 + bit.
Proof.
  intros Hb. symmetry. apply Z.add_nocarry_lor.
  assert (E : bit = 0 \/ bit = 1) by lia. destruct E as [->| ->].
  - apply Z.land_0_r.
  - rewrite land_1_mod. apply Z.mod_mul. lia.
Qed.

(** The inner loop builds a value most significant bit first, as long as
    the result fits a byte. *)
Lemma sampleLoop_spec (b : list Z) (base : Z) (n : nat) (j val : Z) :
  0 <= val -> (val + 1) * 2 ^ Z.of_nat n <= 256 ->
  0 <= base + j -> base + j + Z.of_nat n <= 8 * Z.of_nat (length b) ->
  8 * Z.of_nat (length b) < 2 ^ 63 ->
  sampleLoop n b base j val = Ok (val * 2 ^ Z.of_nat n + msbValue b (base + j) n).
Proof.
  revert j val. induction n as [|n IH]; intros j val Hv Hfit Hlo Hhi Hlen.
  - simpl. f_equal. lia.
  - simpl sampleLoop. simpl msbValue.
    rewrite Nat2Z.inj_succ, Z.pow_succ_r in * by lia.
    assert (Hp : 0 < 2 ^ Z.of_nat n) by (apply Z.pow_pos_nonneg; lia).
    rewrite Z.shiftl_mul_pow2 by lia. change (2 ^ 1) with 2.
    rewrite (byte_small (val * 2)) by nia.
    rewrite int_small by lia.
    rewrite bitAt_Ok by lia. simpl.
    pose proof (bitOf_range b (base + j)) as Hb.
    rewrite lor_bit by exact Hb.
    rewrite byte_small by nia.
    rewrite IH by (try nia; lia).
    f_equal. replace (base + (j + 1)) with (base + j + 1) by lia. ring.
Qed.

Lemma floor_scale_range (v bpp : Z) :
  1 <= bpp -> 0 <= v < 2 ^ bpp -> 0 <= floor_scale v bpp <= 255.
Proof.
  intros Hb Hv. unfold floor_scale.
  assert (Hd : 2 <= 2 ^ bpp).
  { change 2 with (2 ^ 1) at 1. apply Z.pow_le_mono_r; lia. }
  split.
  - apply Z.div_pos; lia.
  - apply Z.div_le_upper_bound; nia.
Qed.

Lemma scale_spec (v bpp : Z) :
  1 <= bpp <= 8 -> 0 <= v < 2 ^ bpp ->
  scale v bpp = Ok (floor_scale v bpp).
Proof.
  intros Hb Hv. pose proof (floor_scale_range v bpp ltac:(lia) Hv) as Hr.
  unfold scale, floor_scale in *.
  destruct (Z.ltb_spec bpp 0); [lia|].
  rewrite Z.shiftl_mul_pow2, Z.mul_1_l by lia.
  assert (Hd : 2 <= 2 ^ bpp <= 256).
  { split.
    - change 2 with (2 ^ 1) at 1. apply Z.pow_le_mono_r; lia.
    - change 256 with (2 ^ 8). apply Z.pow_le_mono_r; lia. }
  unfold uint32. change (2 ^ 32) with 4294967296.
  rewrite (Z.mod_small (2 ^ bpp)) by lia.
  rewrite (Z.mod_small (2 ^ bpp - 1)) by lia.
  rewrite (Z.mod_small v) by lia.
  rewrite (Z.mod_small (v * 255)) by nia.
  destruct (Z.eqb_spec (2 ^ bpp - 1) 0); [lia|].
  now rewrite byte_small by lia.
Qed.

Lemma store_Ok {A} (xs : list A) (i : Z) (x : A) :
  0 <= i < Z.of_nat (length xs) ->
  store xs i x = Ok (<[Z.to_nat i := x]> xs).
Proof.
  intros H. unfold store.
  destruct (Z.ltb_spec i 0); [lia|].
  destruct (Z.leb_spec (Z.of_nat (length xs)) i); [lia|]. reflexivity.
Qed.

(** One row: [n] pixels from column [i] on. *)
Lemma rowLoop_spec (bpp : Z) (b : list Z) (row : Z) (n : nat) (a : Alpha) (i : Z) :
  1 <= bpp <= 8 ->
  0 <= row -> 0 <= i -> i + Z.of_nat n <= Stride a ->
  Stride a * bpp <= 8 * Z.of_nat (length b) ->
  8 * Z.of_nat (length b) < 2 ^ 63 ->
  (row + 1) * Stride a <= Z.of_nat (length (Pix a)) ->
  Z.of_nat (length (Pix a)) < 2 ^ 63 ->
  exists a',
    rowLoop n bpp b row a i = Ok a'
    /\ Stride a' = Stride a
    /\ RectMax a' = RectMax a
    /\ length (Pix a') = length (Pix a)
    /\ (forall k, i <= k < i + Z.of_nat n ->
          Pix a' !! Z.to_nat (row * Stride a + k)
          = Some (floor_scale (msbValue b (k * bpp) (Z.to_nat bpp)) bpp))
    /\ (forall q, ~ (row * Stride a + i <= Z.of_nat q < row * Stride a + i + Z.of_nat n) ->
          Pix a' !! q = Pix a !! q).
Proof.
  intros Hb Hrow. revert a i.
  induction n as [|n IH]; intros a i Hi Hn Hbits Hlen Hpix Hpl.
  - exists a. simpl. repeat split; auto. intros k Hk. lia.
  - simpl rowLoop.
    assert (Hib : 0 <= i * bpp /\ i * bpp + bpp <= Stride a * bpp) by nia.
    rewrite (int_small (i * bpp)) by lia.
    rewrite sampleLoop_spec;
      [|lia| |lia| |lia].
    2:{ rewrite Z2Nat.id by lia. change (0 + 1) with 1. rewrite Z.mul_1_l.
        change 256 with (2 ^ 8). apply Z.pow_le_mono_r; lia. }
    2:{ rewrite Z2Nat.id by lia. lia. }
    simpl. rewrite Z.add_0_r.
    pose proof (msbValue_range b (Z.to_nat bpp) (i * bpp)) as Hv.
    rewrite Z2Nat.id in Hv by lia.
    rewrite scale_spec by lia. simpl.
    assert (Hidx : 0 <= row * Stride a + i < Z.of_nat (length (Pix a))) by nia.
    rewrite (int_small (row * Stride a)) by nia.
    rewrite (int_small (row * Stride a + i)) by lia.
    rewrite store_Ok by lia. simpl.
    set (v := floor_scale (msbValue b (i * bpp) (Z.to_nat bpp)) bpp).
    set (a1 := setPix a (<[Z.to_nat (row * Stride a + i) := v]> (Pix a))).
    destruct (IH a1 (i + 1)) as (a' & Hrun & Hs & Hr & Hl & Hin & Hout);
      try (subst a1; simpl; rewrite ?length_insert; lia).
    exists a'. subst a1. simpl in *. rewrite length_insert in Hl.
    repeat split; auto.
    + intros k Hk. destruct (Z.eq_dec k i) as [->|Hne].
      * rewrite Hout by lia. apply list_lookup_insert_eq. lia.
      * apply Hin. lia.
    + intros q Hq. rewrite Hout by lia.
      apply list_lookup_insert_ne. lia.
Qed.

Lemma round_div_exact (d q : Z) : 0 < d -> round_div (d * q) d = q.
Proof.
  intros Hd. unfold round_div.
  replace (2 * (d * q) + d) with (q * (2 * d) + d) by ring.
  rewrite Z.div_add_l by lia. rewrite Z.div_small by lia. lia.
Qed.

Lemma floor_scale_exact (v bpp k : Z) :
  0 < 2 ^ bpp - 1 -> 255 = (2 ^ bpp - 1) * k ->
  floor_scale v bpp = v * k
  /\ round_div (v * 255) (2 ^ bpp - 1) = v * k.
Proof.
  intros Hd Hk. unfold floor_scale. rewrite Hk.
  replace (v * ((2 ^ bpp - 1) * k)) with ((2 ^ bpp - 1) * (v * k)) by ring.
  split.
  - rewrite Z.mul_comm. apply Z.div_mul. lia.
  - now apply round_div_exact.
Qed.

(** C3 (amended).  For a depth [1 <= bpp <= 8] and a row that holds
    enough bits, decoding the row succeeds and pixel [i] receives
    [v * 255 / (2^bpp - 1)], the quotient of the truncating division,
    where [v] is the [bpp]-bit value read at bit offset [i * bpp], most
    significant bit first.  For the depths 1, 2, 4 and 8 the division is
    exact, so that the stored value is also the rounded one: 0 or 255 at
    depth 1, and 0, 85, 170, 255 at depth 2. *)
Theorem decodeRow_intensity (bpp : Z) (b : list Z) (row : Z) (a : Alpha) :
  1 <= bpp <= 8 ->
  0 <= row ->
  Stride a * bpp <= 8 * Z.of_nat (length b) ->
  Z.of_nat (length b) <= maxAlloc ->
  (row + 1) * Stride a <= Z.of_nat (length (Pix a)) ->
  Z.of_nat (length (Pix a)) <= maxAlloc ->
  exists a',
    decodeRow bpp b row a = Ok a'
    /\ forall i, 0 <= i < Stride a ->
         let v := msbValue b (i * bpp) (Z.to_nat bpp) in
         0 <= v < 2 ^ bpp
         /\ Pix a' !! Z.to_nat (row * Stride a + i) = Some (v * 255 / (2 ^ bpp - 1))
         /\ (bpp = 1 \/ bpp = 2 \/ bpp = 4 \/ bpp = 8 ->
             v * 255 / (2 ^ bpp - 1) = round_div (v * 255) (2 ^ bpp - 1))
         /\ (bpp = 1 -> v * 255 / (2 ^ bpp - 1) = 0 \/ v * 255 / (2 ^ bpp - 1) = 255)
         /\ (bpp = 2 -> v * 255 / (2 ^ bpp - 1) = 85 * v).
Proof.
  intros Hb Hrow Hbits Hbl Hpix Hpl. unfold decodeRow.
  assert (Hma : maxAlloc * 8 < 2 ^ 63) by reflexivity.
  destruct (Z.le_gt_cases 0 (Stride a)) as [Hs|Hs].
  - destruct (rowLoop_spec bpp b row (Z.to_nat (Stride a)) a 0)
      as (a' & Hrun & _ & _ & _ & Hin & _); try lia.
    exists a'. split; [exact Hrun|]. intros i Hi. cbv zeta.
    pose proof (msbValue_range b (Z.to_nat bpp) (i * bpp)) as Hv.
    rewrite Z2Nat.id in Hv by lia.
    specialize (Hin i ltac:(lia)).
    remember (msbValue b (i * bpp) (Z.to_nat bpp)) as v eqn:Ev. clear Ev.
    split; [exact Hv|]. split; [exact Hin|].
    fold (floor_scale v bpp). clear Hin.
    split; [|split].
    + intros [->|[->|[->| ->]]].
      * destruct (floor_scale_exact v 1 255) as [-> ->]; reflexivity.
      * destruct (floor_scale_exact v 2 85) as [-> ->]; reflexivity.
      * destruct (floor_scale_exact v 4 17) as [-> ->]; reflexivity.
      * destruct (floor_scale_exact v 8 1) as [-> ->]; reflexivity.
    + intros ->. destruct (floor_scale_exact v 1 255) as [-> _]; try reflexivity.
      change (2 ^ 1) with 2 in Hv. lia.
    + intros ->. destruct (floor_scale_exact v 2 85) as [-> _]; try reflexivity. lia.
  - exists a. replace (Z.to_nat (Stride a)) with 0%nat by lia.
    split; [reflexivity|].
    intros i Hi. lia.
Qed.

Lemma decodeRow_intensity_witness :
  match decodeRow 2 [0x1B] 0 {| Pix := [0; 0; 0; 0]; Stride := 4; RectMax := (4, 1) |} with
  | Ok a' => Pix a' !! 2%nat = Some 170
  | _ => False
  end.
Proof.
  destruct (decodeRow_intensity 2 [0x1B] 0
              {| Pix := [0; 0; 0; 0]; Stride := 4; RectMax := (4, 1) |})
    as (a' & Hrun & Hpix);
    [lia | lia | simpl; lia | vm_compute; discriminate
     | simpl; lia | vm_compute; discriminate |].
  rewrite Hrun.
  destruct (Hpix 2) as (_ & Hp & _); [simpl; lia|].
  exact Hp.
Defined.

(** C3, as stated, fails: at depth 3 the sample 2 is stored as 72, the
    truncated quotient of 510 by 7, while the rounded one is 73.  The
    depth is the fourth argument of [SIZE]. *)
Lemma decodeRow_truncates :
  msbValue [0x40] 0 3 = 2
  /\ round_div (2 * 255) (2 ^ 3 - 1) = 73
  /\ decodeRow 3 [0x40] 0 {| Pix := [0]; Stride := 1; RectMax := (1, 1) |}
     = Ok {| Pix := [72]; Stride := 1; RectMax := (1, 1) |}
  /\ match Parse (unlines ["SIZE 8 75 75 3"; "CHARS 1"; "STARTCHAR A";
                           "BBX 1 1 0 0"; "BITMAP"; "40"; "ENDCHAR"]) with
     | Ok f => (c ← Characters f !! 0%nat; a ← AlphaOf c; Some (Pix a)) = Some [72]
     | _ => False
     end.
Proof. repeat split. Qed.

(** Depth 2 through [Parse]: the four samples of one byte. *)
Example Parse_depth_2 :
  match Parse (unlines ["SIZE 8 75 75 2"; "CHARS 1"; "STARTCHAR A";
                        "BBX 4 1 0 0"; "BITMAP"; "1B"; "ENDCHAR"]) with
  | Ok f => (c ← Characters f !! 0%nat; a ← AlphaOf c; Some (Pix a))
            = Some [0; 85; 170; 255]
  | _ => False
  end.
Proof. vm_compute. reflexivity. Qed.

(* ================================================================== *)
(** ** Further properties: the query layer *)
(* ================================================================== *)

Lemma shiftr_6 (z : Z) : Z.shiftr z 6 = z / 64.
Proof. now rewrite Z.shiftr_div_pow2 by lia. Qed.

Lemma pixel_range (z : Z) : - 2 ^ 31 <= z < 2 ^ 31 -> - 2 ^ 25 <= z / 64 < 2 ^ 25.
Proof.
  intros H. split.
  - apply Z.div_le_lower_bound; lia.
  - apply Z.div_lt_upper_bound; lia.
Qed.

(** X1.  [Glyph] on a hit whose Character has a raster: the destination
    rectangle has the raster's width and height; its left edge is the
    pen's pixel column plus the horizontal origin offset, its bottom edge
    the pen's pixel row minus the vertical origin offset.  The mask is
    the raster, the advance the glyph's horizontal advance in 26.6. *)
Theorem Glyph_destination (fa : Face) (dot : fixed.Point26_6) (r : Z)
        (p : nat) (c : Character) (a : Alpha) :
  lookup (FaceFont fa) r = Some p ->
  Characters (FaceFont fa) !! p = Some c ->
  AlphaOf c = Some a ->
  - 2 ^ 31 <= fixed.X dot < 2 ^ 31 ->
  - 2 ^ 31 <= fixed.Y dot < 2 ^ 31 ->
  fitsFixed (LowerPoint c).1 -> fitsFixed (LowerPoint c).2 ->
  fitsFixed (Stride a) -> fitsFixed (RectMax a).2 ->
  Glyph fa dot r =
    Ok ({| image.Min := {| image.X := fixed.X dot / 64 + (LowerPoint c).1;
                           image.Y := fixed.Y dot / 64 - (LowerPoint c).2
                                      - (RectMax a).2 |};
           image.Max := {| image.X := fixed.X dot / 64 + (LowerPoint c).1 + Stride a;
                           image.Y := fixed.Y dot / 64 - (LowerPoint c).2 |} |},
        Some a, image.ZP, fixed.I (Advance c).1, true).
Proof.
  unfold fitsFixed. intros Hl Hc Ha HX HY Hlx Hly Hs Hh.
  unfold Glyph, deref. rewrite Hl, Hc. simpl. rewrite Ha. simpl.
  rewrite (int_small (fixed.X dot)), (int_small (fixed.Y dot)) by lia.
  rewrite !shiftr_6.
  pose proof (pixel_range _ HX). pose proof (pixel_range _ HY).
  rewrite (int_small (fixed.X dot / 64 + (LowerPoint c).1)) by lia.
  rewrite (int_small (fixed.Y dot / 64 - (LowerPoint c).2)) by lia.
  rewrite (int_small (fixed.Y dot / 64 - (LowerPoint c).2 - (RectMax a).2)) by lia.
  rewrite (int_small (fixed.X dot / 64 + (LowerPoint c).1 + Stride a)) by lia.
  reflexivity.
Qed.

Lemma Glyph_destination_witness :
  match Parse sampleSource with
  | Ok f =>
      Glyph (NewFace f) {| fixed.X := 640 + 17; fixed.Y := 1280 |} 65 =
        Ok ({| image.Min := {| image.X := 11; image.Y := 18 |};
                 image.Max := {| image.X := 19; image.Y := 20 |} |},
              Some {| Pix := [255; 255; 255; 255; 255; 255; 255; 255;
                              255; 0; 0; 0; 0; 0; 0; 255];
                      Stride := 8; RectMax := (8, 2) |},
            image.ZP, 512, true)
  | _ => False
  end.
Proof.
  destruct (Parse sampleSource) as [f| |] eqn:E;
    [|vm_compute in E; discriminate E..].
  vm_compute in E. injection E as <-.
  match goal with |- context [NewFace ?f] => set (F := f) end.
  destruct (Characters F !! 0%nat) as [c|] eqn:Hc; [|discriminate Hc].
  destruct (AlphaOf c) as [a|] eqn:Ha;
    [|vm_compute in Hc; injection Hc as <-; discriminate Ha].
  pose proof (Glyph_destination (NewFace F) {| fixed.X := 640 + 17; fixed.Y := 1280 |}
                                65 0%nat c a eq_refl Hc Ha) as H.
  vm_compute in Hc. injection Hc as <-.
  vm_compute in Ha. injection Ha as <-.
  rewrite H by (unfold fitsFixed; simpl; lia). reflexivity.
Defined.

(** X2.  The three glyph queries tell the same story: [GlyphBounds] and
    [Glyph] return under the same conditions, and whatever either
    returns, its advance and its found flag are those of [GlyphAdvance];
    [Glyph] hands out a mask exactly when it reports a glyph. *)
Theorem queries_agree (fa : Face) (dot : fixed.Point26_6) (r : Z) :
  isOk (GlyphBounds fa r) = isOk (Glyph fa dot r)
  /\ (forall b adv ok,
        GlyphBounds fa r = Ok (b, adv, ok) -> GlyphAdvance fa r = Ok (adv, ok))
  /\ (forall dr mask maskp adv ok,
        Glyph fa dot r = Ok (dr, mask, maskp, adv, ok) ->
        GlyphAdvance fa r = Ok (adv, ok) /\ (ok = true <-> is_Some mask)).
Proof.
  unfold GlyphBounds, Glyph, GlyphAdvance, deref.
  destruct (lookup (FaceFont fa) r) as [p|]; simpl.
  - destruct (Characters (FaceFont fa) !! p) as [c|]; simpl;
      [|repeat split; intros; discriminate].
    destruct (AlphaOf c) as [a|] eqn:Ha; simpl;
      [|repeat split; intros; discriminate].
    split; [reflexivity|]. split.
    + intros b adv ok [= <- <- <-]. reflexivity.
    + intros dr mask maskp adv ok [= <- <- <- <- <-].
      split; [reflexivity|]. split; eauto.
  - split; [reflexivity|]. split.
    + intros b adv ok [= <- <- <-]. reflexivity.
    + intros dr mask maskp adv ok [= <- <- <- <- <-].
      split; [reflexivity|]. split; [discriminate|]. intros [? ?]; discriminate.
Qed.

(** X3.  On a parsed font [GlyphAdvance] always returns: the flag tells
    whether [lookup] found a glyph, and a missing glyph has advance 0. *)
Theorem GlyphAdvance_parsed (data : string) (f : Font) (r : Z) :
  Parse data = Ok f ->
  exists adv ok,
    GlyphAdvance (NewFace f) r = Ok (adv, ok)
    /\ (ok = true <-> is_Some (lookup f r))
    /\ (ok = false -> adv = 0).
Proof.
  intros HP. apply Parse_pointers_valid in HP.
  unfold GlyphAdvance, deref. simpl.
  destruct (lookup f r) as [p|] eqn:Hl.
  - assert (Hin : exists k, CharMap f !! k = Some p).
    { unfold lookup in Hl. destruct (CharMap f !! r) eqn:E1; [injection Hl as ->; eauto|].
      destruct (CharMap f !! DefaultChar f) eqn:E2; [|discriminate].
      injection Hl as ->. eauto. }
    destruct Hin as [k Hk]. apply HP in Hk.
    apply lookup_lt_is_Some in Hk as [c Hc]. rewrite Hc. simpl.
    eexists _, true. repeat split; eauto; discriminate.
  - exists 0, false. repeat split; try discriminate.
    intros [? ?]; discriminate.
Qed.

Lemma GlyphAdvance_parsed_witness :
  match Parse sampleSource with
  | Ok f => exists adv ok, GlyphAdvance (NewFace f) 66 = Ok (adv, ok)
                           /\ (ok = true <-> is_Some (lookup f 66))
                           /\ (ok = false -> adv = 0)
  | _ => False
  end.
Proof.
  destruct (Parse sampleSource) as [f| |] eqn:E;
    [|vm_compute in E; discriminate E..].
  exact (GlyphAdvance_parsed sampleSource f 66 E).
Defined.

(** X4.  On a parsed font [GlyphBounds] fails in one case only: the
    glyph [lookup] finds has no raster. *)
Theorem GlyphBounds_parsed (data : string) (f : Font) (r : Z) :
  Parse data = Ok f ->
  (isOk (GlyphBounds (NewFace f) r) = false <->
   exists p c, lookup f r = Some p /\ Characters f !! p = Some c /\ AlphaOf c = None).
Proof.
  intros HP. apply Parse_pointers_valid in HP.
  unfold GlyphBounds, deref. simpl.
  destruct (lookup f r) as [p|] eqn:Hl.
  - assert (Hin : exists k, CharMap f !! k = Some p).
    { unfold lookup in Hl. destruct (CharMap f !! r) eqn:E1; [injection Hl as ->; eauto|].
      destruct (CharMap f !! DefaultChar f) eqn:E2; [|discriminate].
      injection Hl as ->. eauto. }
    destruct Hin as [k Hk]. apply HP in Hk.
    apply lookup_lt_is_Some in Hk as [c Hc]. rewrite Hc. simpl.
    destruct (AlphaOf c) as [a|] eqn:Ha; simpl.
    + split; [discriminate|]. intros (p' & c' & [= <-] & Hc' & Ha'). congruence.
    + split; [|reflexivity]. intros _. eauto.
  - simpl. split; [discriminate|]. intros (p' & c' & Hp' & _). discriminate.
Qed.

Lemma GlyphBounds_parsed_witness :
  match Parse sampleSource with
  | Ok f => isOk (GlyphBounds (NewFace f) 66) = false
  | _ => False
  end.
Proof.
  destruct (Parse sampleSource) as [f| |] eqn:E;
    [|vm_compute in E; discriminate E..].
  apply (GlyphBounds_parsed sampleSource f 66 E).
  vm_compute in E. injection E as <-.
  eexists 1%nat, _. repeat split.
Defined.

(** X5.  [Metrics]: for design units in range every metric is the font's
    value times 64, and the line height is ascent plus descent. *)
Theorem Metrics_fixed_point (fa : Face) :
  fitsFixed (Ascent (FaceFont fa)) -> fitsFixed (Descent (FaceFont fa)) ->
  fitsFixed (CapHeight (FaceFont fa)) -> fitsFixed (XHeight (FaceFont fa)) ->
  FaceMetrics fa =
    {| MHeight := 64 * (Ascent (FaceFont fa) + Descent (FaceFont fa));
       MAscent := 64 * Ascent (FaceFont fa);
       MDescent := 64 * Descent (FaceFont fa);
       MXHeight := 64 * XHeight (FaceFont fa);
       MCapHeight := 64 * CapHeight (FaceFont fa) |}
  /\ MHeight (FaceMetrics fa) = MAscent (FaceMetrics fa) + MDescent (FaceMetrics fa).
Proof.
  unfold fitsFixed. intros Ha Hd Hc Hx.
  assert (E : FaceMetrics fa =
    {| MHeight := 64 * (Ascent (FaceFont fa) + Descent (FaceFont fa));
       MAscent := 64 * Ascent (FaceFont fa);
       MDescent := 64 * Descent (FaceFont fa);
       MXHeight := 64 * XHeight (FaceFont fa);
       MCapHeight := 64 * CapHeight (FaceFont fa) |}).
  { unfold FaceMetrics.
    rewrite (int_small (Ascent (FaceFont fa) + Descent (FaceFont fa))) by lia.
    rewrite !fixed_I_scale by lia. reflexivity. }
  split; [exact E|]. rewrite E. simpl. lia.
Qed.

Lemma Metrics_fixed_point_witness :
  match Parse sampleSource with
  | Ok f => MHeight (FaceMetrics (NewFace f)) = 512
  | _ => False
  end.
Proof.
  destruct (Parse sampleSource) as [f| |] eqn:E;
    [|vm_compute in E; discriminate E..].
  vm_compute in E. injection E as <-.
  match goal with |- context [NewFace ?f] => set (F := f) end.
  destruct (Metrics_fixed_point (NewFace F)) as [-> _];
    [unfold fitsFixed; simpl; lia..|].
  reflexivity.
Defined.

(* ================================================================== *)
(** ** Further properties: the header *)
(* ================================================================== *)

Lemma index_1_argument (l t : string) :
  index (Split l) 1 = Ok t -> argument l = Some t.
Proof. intros H. apply index_Ok_inv in H as [_ H]. exact H. Qed.

Ltac keyword_cases kw H :=
  repeat match type of H with
  | (if (kw =? ?k)%string then _ else _) = _ =>
      destruct (String.eqb_spec kw k) as [->|?]
  end.

Ltac other_keywords :=
  repeat match goal with
  | Hne : ?kw <> ?k |- context [(?kw =? ?k)%string] =>
      rewrite (proj2 (String.eqb_neq kw k) Hne)
  end.

(** What one header line does to the fields that have one argument. *)
Lemma globalsLine_fields (l : string) (f f' : Font) (g g' : globals) (brk : bool) :
  globalsLine l f g = Ok (f', g', brk) ->
  let str kw d := if hasKeyword kw l then default d (argument l) else d in
  let num kw d :=
    if hasKeyword kw l then default d ((fun t => (Atoi t).1) <$> argument l) else d in
  FontName f' = str "FONT" (FontName f)
  /\ PixelSize f' = num "PIXEL_SIZE" (PixelSize f)
  /\ Ascent f' = num "FONT_ASCENT" (Ascent f)
  /\ Descent f' = num "FONT_DESCENT" (Descent f)
  /\ CapHeight f' = num "CAP_HEIGHT" (CapHeight f)
  /\ XHeight f' = num "X_HEIGHT" (XHeight f)
  /\ registry g' = str "CHARSET_REGISTRY" (registry g)
  /\ encoding g' = str "CHARSET_ENCODING" (encoding g)
  /\ defaultChar g' = num "DEFAULT_CHAR" (defaultChar g)
  /\ (hasKeyword "SIZE" l = false \/ (length (Split l) <= 4)%nat -> BPP f' = BPP f).
Proof.
  unfold globalsLine, hasKeyword. cbv zeta.
  remember (keyword (Split l)) as kw eqn:Hkw. intros H.
  keyword_cases kw H; inv_bind H; try (injection H as <- <- <-);
    repeat match goal with
    | E : index (Split l) 1 = Ok _ |- _ => apply index_1_argument in E; rewrite E
    | E : checked (Atoi _) = Ok _ |- _ => apply checked_Ok_inv in E; rewrite ?E
    end;
    other_keywords; simpl;
    repeat split; auto; try (intros [?|?]; [discriminate|]); try reflexivity;
    try (match goal with Ea : Atoi _ = _ |- _ => rewrite Ea end; reflexivity).
  (* SIZE with a fifth token *)
  apply Z.ltb_lt in Heqb. lia.
Qed.

Lemma scanGlobals_split (s : list string) (f f' : Font) (g g' : globals)
      (s' : list string) :
  scanGlobals s f g = Ok (f', g', s') ->
  s' = glyphLines s /\ scanGlobals (headerLines s) f g = Ok (f', g', []).
Proof.
  revert f g. induction s as [|l s IH]; intros f g H; simpl in H.
  - injection H as <- <- <-. auto.
  - apply bind_Ok_inv in H as ([[f1 g1] brk] & E & H).
    pose proof (globalsLine_Ok _ _ _ _ _ _ E) as (Hb & _). simpl.
    rewrite <- Hb. destruct brk.
    + injection H as <- <- <-. split; [reflexivity|]. simpl. now rewrite E.
    + apply IH in H as [-> H]. split; [reflexivity|]. simpl. now rewrite E.
Qed.

Lemma scanGlobals_fields (s : list string) (f f' : Font) (g g' : globals)
      (s' : list string) :
  scanGlobals s f g = Ok (f', g', s') ->
  let h := headerLines s in
  FontName f' = strArg "FONT" h (FontName f)
  /\ PixelSize f' = intArg "PIXEL_SIZE" h (PixelSize f)
  /\ Ascent f' = intArg "FONT_ASCENT" h (Ascent f)
  /\ Descent f' = intArg "FONT_DESCENT" h (Descent f)
  /\ CapHeight f' = intArg "CAP_HEIGHT" h (CapHeight f)
  /\ XHeight f' = intArg "X_HEIGHT" h (XHeight f)
  /\ registry g' = strArg "CHARSET_REGISTRY" h (registry g)
  /\ encoding g' = strArg "CHARSET_ENCODING" h (encoding g)
  /\ defaultChar g' = intArg "DEFAULT_CHAR" h (defaultChar g)
  /\ (Forall (fun l => hasKeyword "SIZE" l = false \/ (length (Split l) <= 4)%nat) h ->
      BPP f' = BPP f).
Proof.
  cbv zeta. unfold strArg, intArg.
  revert f g. induction s as [|l s IH]; intros f g H; simpl in H.
  - injection H as <- <- <-. simpl. repeat split; auto.
  - apply bind_Ok_inv in H as ([[f1 g1] brk] & E & H).
    pose proof (globalsLine_Ok _ _ _ _ _ _ E) as (Hb & _).
    apply globalsLine_fields in E. cbv zeta in E.
    destruct E as (E1 & E2 & E3 & E4 & E5 & E6 & E7 & E8 & E9 & E10).
    simpl headerLines. rewrite <- Hb. destruct brk.
    + injection H as <- <- <-. simpl.
      repeat split; auto. intros HF. inversion HF; subst. auto.
    + apply IH in H.
      destruct H as (H1 & H2 & H3 & H4 & H5 & H6 & H7 & H8 & H9 & H10).
      simpl. rewrite <- E1, <- E2, <- E3, <- E4, <- E5, <- E6, <- E7, <- E8, <- E9.
      repeat split; auto.
      intros HF. inversion HF; subst. rewrite H10, E10; auto.
Qed.

(** X6.  The header fields of a parsed font are those of the last line
    that declares them, whatever the order of the lines: the name, the
    one-argument metrics, the charset identifier (registry, a dash, the
    encoding) and the default code point, which is resolved with the
    final charset identifier even when [DEFAULT_CHAR] comes first. *)
Theorem Parse_header_fields (data : string) (f : Font) :
  Parse data = Ok f ->
  FontName f = strArg "FONT" (headerLines (ScanLines data)) ""
  /\ PixelSize f = intArg "PIXEL_SIZE" (headerLines (ScanLines data)) 0
  /\ Ascent f = intArg "FONT_ASCENT" (headerLines (ScanLines data)) 0
  /\ Descent f = intArg "FONT_DESCENT" (headerLines (ScanLines data)) 0
  /\ CapHeight f = intArg "CAP_HEIGHT" (headerLines (ScanLines data)) 0
  /\ XHeight f = intArg "X_HEIGHT" (headerLines (ScanLines data)) 0
  /\ FontEncoding f =
       (strArg "CHARSET_REGISTRY" (headerLines (ScanLines data)) "" ++ "-"
        ++ strArg "CHARSET_ENCODING" (headerLines (ScanLines data)) "")%string
  /\ DefaultChar f =
       charToRune (FontEncoding f)
                  (intArg "DEFAULT_CHAR" (headerLines (ScanLines data)) 0).
Proof.
  unfold Parse. intros H.
  apply ParseLines_Ok_inv in H as (f0 & g0 & s0 & st & H1 & H2 & ->).
  apply glyphLoop_Ok in H2 as (Hh & _); [|apply startState_range].
  apply scanGlobals_fields in H1. cbv zeta in H1.
  destruct H1 as (E1 & E2 & E3 & E4 & E5 & E6 & E7 & E8 & E9 & _).
  unfold header in Hh. simpl in Hh.
  injection Hh as F1 _ F3 _ _ F6 F7 F8 F9 F10 F11.
  rewrite F1, F3, F6, F7, F8, F9, F10, F11. simpl.
  rewrite E1, E2, E3, E4, E5, E6, E7, E8, E9.
  repeat split; reflexivity.
Qed.

Lemma Parse_header_fields_witness :
  match Parse (unlines ["DEFAULT_CHAR 489"; "FONT a"; "CHARSET_ENCODING 1";
                        "FONT b"; "CHARSET_REGISTRY ISO8859"; "CHARS 0"]) with
  | Ok f => FontName f = "b" /\ FontEncoding f = "ISO8859-1" /\ DefaultChar f = 233
  | _ => False
  end.
Proof.
  destruct (Parse (unlines ["DEFAULT_CHAR 489"; "FONT a"; "CHARSET_ENCODING 1";
                            "FONT b"; "CHARSET_REGISTRY ISO8859"; "CHARS 0"]))
    as [f| |] eqn:E; [|vm_compute in E; discriminate E..].
  destruct (Parse_header_fields _ f E) as (H1 & _ & _ & _ & _ & _ & H7 & H8).
  rewrite H8, H7, H1. repeat split.
Defined.

(** X7.  The bit depth stays at the 1 that [Parse] starts from unless a
    [SIZE] line of the header has a fifth token. *)
Theorem Parse_default_depth (data : string) (f : Font) :
  Parse data = Ok f ->
  Forall (fun l => hasKeyword "SIZE" l = false \/ (length (Split l) <= 4)%nat)
         (headerLines (ScanLines data)) ->
  BPP f = 1.
Proof.
  unfold Parse. intros H HF.
  apply ParseLines_Ok_inv in H as (f0 & g0 & s0 & st & H1 & H2 & ->).
  apply glyphLoop_Ok in H2 as (Hh & _); [|apply startState_range].
  apply scanGlobals_fields in H1. cbv zeta in H1.
  destruct H1 as (_ & _ & _ & _ & _ & _ & _ & _ & _ & E).
  unfold header in Hh. simpl in Hh.
  injection Hh as _ _ _ _ F5 _ _ _ _ _ _. rewrite F5. simpl. now apply E.
Qed.

Lemma Parse_default_depth_witness :
  match Parse sampleSource with
  | Ok f => BPP f = 1
  | _ => False
  end.
Proof.
  destruct (Parse sampleSource) as [f| |] eqn:E;
    [|vm_compute in E; discriminate E..].
  apply (Parse_default_depth sampleSource f E).
  let h := eval vm_compute in (headerLines (ScanLines sampleSource)) in
  change (headerLines (ScanLines sampleSource)) with h.
  repeat (apply Forall_cons;
          split; [first [left; reflexivity | right; vm_compute; lia]|]).
  constructor.
Defined.

(** X8.  Without a [CHARS] line the first loop reads the whole input:
    whatever glyph blocks the source holds, the parsed font has no
    Character and an empty index. *)
Theorem Parse_without_CHARS (data : string) (f : Font) :
  noKeyword "CHARS" (ScanLines data) ->
  Parse data = Ok f ->
  Characters f = [] /\ CharMap f = ∅ /\ forall r, lookup f r = None.
Proof.
  unfold Parse. intros Hno H.
  apply ParseLines_Ok_inv in H as (f0 & g0 & s0 & st & H1 & H2 & ->).
  destruct (scanGlobals_noCHARS (ScanLines data) [] initFont globals0 Hno) as [_ Hpre].
  destruct (Hpre _ _ _ H1) as (-> & Hm & Hc).
  simpl in H2. injection H2 as <-. simpl.
  rewrite Hm, Hc. simpl. repeat split.
  intros r. unfold lookup. simpl. rewrite Hm. simpl. now rewrite !lookup_empty.
Qed.

Lemma Parse_without_CHARS_witness :
  match Parse (unlines ["FONT x"; "STARTCHAR A"; "ENCODING 65"; "BITMAP"; "zz"]) with
  | Ok f => Characters f = [] /\ CharMap f = ∅ /\ lookup f 65 = None
  | _ => False
  end.
Proof.
  destruct (Parse (unlines ["FONT x"; "STARTCHAR A"; "ENCODING 65"; "BITMAP"; "zz"]))
    as [f| |] eqn:E; [|vm_compute in E; discriminate E..].
  destruct (Parse_without_CHARS
              (unlines ["FONT x"; "STARTCHAR A"; "ENCODING 65"; "BITMAP"; "zz"]) f)
    as (H1 & H2 & H3); [|exact E|].
  - vm_compute. repeat constructor.
  - auto.
Defined.

Lemma globalsLine_unrecognized (l : string) (f : Font) (g : globals) :
  ~ In (keyword (Split l)) headerKeywords ->
  globalsLine l f g = Ok (f, g, false).
Proof.
  intros Hn. unfold globalsLine.
  remember (keyword (Split l)) as kw eqn:Hkw. clear Hkw.
  repeat match goal with
  | |- (if (kw =? ?k)%string then _ else _) = _ =>
      destruct (String.eqb_spec kw k) as [->|?];
      [exfalso; apply Hn; simpl; tauto|]
  end.
  reflexivity.
Qed.

(** X9.  A header line whose first token is none of the eleven header
    keywords is skipped: with or without it [Parse] does the same. *)
Theorem header_line_ignored (pre post : list string) (l : string) :
  noKeyword "CHARS" pre ->
  ~ In (keyword (Split l)) headerKeywords ->
  ParseLines (pre ++ l :: post) = ParseLines (pre ++ post).
Proof.
  intros Hno Hn. rewrite !ParseLines_unfold.
  destruct (scanGlobals_noCHARS pre (l :: post) initFont globals0 Hno) as [-> _].
  destruct (scanGlobals_noCHARS pre post initFont globals0 Hno) as [-> _].
  destruct (scanGlobals pre initFont globals0) as [[[f g] s]| |]; simpl; auto.
  now rewrite (globalsLine_unrecognized l f g Hn).
Qed.

Lemma header_line_ignored_witness :
  ParseLines (["FONT x"] ++ "COMMENT made by hand" :: ["CHARS 0"])
  = ParseLines (["FONT x"] ++ ["CHARS 0"]).
Proof.
  apply header_line_ignored.
  - repeat constructor.
  - vm_compute. intros H. repeat (destruct H as [H|H]; [discriminate H|]). exact H.
Defined.

Lemma glyphLine_unrecognized (cm : option Charmap) (l : string) (st : pstate) :
  inBitmap st = false ->
  ~ In (keyword (Split l)) metaKeywords ->
  glyphLine cm l st = Ok st.
Proof.
  intros Hm Hn. unfold glyphLine. rewrite Hm. simpl.
  remember (keyword (Split l)) as kw eqn:Hkw. clear Hkw.
  repeat match goal with
  | |- (if (kw =? ?k)%string then _ else _) = _ =>
      destruct (String.eqb_spec kw k) as [->|?];
      [exfalso; apply Hn; simpl; tauto|]
  end.
  reflexivity.
Qed.

Lemma glyphLine_ENDCHAR (cm : option Charmap) (e : string) (st : pstate) :
  hasKeyword "ENDCHAR" e = true ->
  exists st', glyphLine cm e st = Ok st' /\ inBitmap st' = false.
Proof.
  unfold hasKeyword. intros H. apply String.eqb_eq in H.
  unfold glyphLine. rewrite H. destruct (inBitmap st) eqn:Hm; simpl.
  - eauto.
  - exists st. split; [reflexivity | exact Hm].
Qed.

(** X10.  Between two glyph blocks, right after an [ENDCHAR] line, a line
    whose first token is none of [STARTCHAR], [ENCODING], [DWIDTH], [BBX],
    [BITMAP] is skipped by the second loop. *)
Theorem line_after_ENDCHAR_ignored
        (cm : option Charmap) (pre post : list string) (e l : string) (st : pstate) :
  hasKeyword "ENDCHAR" e = true ->
  ~ In (keyword (Split l)) metaKeywords ->
  glyphLoop cm (pre ++ e :: l :: post) st = glyphLoop cm (pre ++ e :: post) st.
Proof.
  intros He Hn. rewrite !glyphLoop_app.
  destruct (glyphLoop cm pre st) as [s1| |]; simpl; auto.
  destruct (glyphLine_ENDCHAR cm e s1 He) as (s2 & -> & Hm). simpl.
  now rewrite (glyphLine_unrecognized cm l s2 Hm Hn).
Qed.

Lemma line_after_ENDCHAR_ignored_witness :
  glyphLoop None (["STARTCHAR A"; "BITMAP"] ++ "ENDCHAR" :: "COMMENT next" :: ["STARTCHAR B"])
            (startState (setCharacters initFont (replicate 2 zeroCharacter)))
  = glyphLoop None (["STARTCHAR A"; "BITMAP"] ++ "ENDCHAR" :: ["STARTCHAR B"])
              (startState (setCharacters initFont (replicate 2 zeroCharacter))).
Proof.
  apply line_after_ENDCHAR_ignored.
  - reflexivity.
  - vm_compute. intros H. repeat (destruct H as [H|H]; [discriminate H|]). exact H.
Defined.

(* ================================================================== *)
(** ** Further properties: the glyph sequence *)
(* ================================================================== *)

Lemma updChar_chain (f f' : Font) (i : Z) (upd : Character -> Character)
      (L : list Character) (c c0 : Character) :
  updChar f i upd = Ok f' ->
  L !! Z.to_nat i = Some c ->
  Characters f = <[Z.to_nat i := c0]> L ->
  0 <= i /\ Characters f' = <[Z.to_nat i := upd c0]> L.
Proof.
  unfold updChar. intros H HL Hf. inv_bind H. injection H as <-.
  apply index_Ok_inv in E as [Hi E]. split; [exact Hi|]. simpl.
  rewrite Hf in *. apply lookup_lt_Some in HL.
  rewrite list_lookup_insert_eq in E by exact HL. injection E as <-.
  apply list_insert_insert_eq.
Qed.

Lemma updChar_first (f f' : Font) (i : Z) (upd : Character -> Character) :
  updChar f i upd = Ok f' ->
  0 <= i /\ exists c, Characters f !! Z.to_nat i = Some c
                      /\ Characters f' = <[Z.to_nat i := upd c]> (Characters f).
Proof.
  intros H. pose proof H as H'. unfold updChar in H'. inv_bind H'.
  apply index_Ok_inv in E as [Hi E].
  destruct (updChar_chain f f' i upd (Characters f) a a H E) as [_ Hc].
  { symmetry. now apply list_insert_id. }
  eauto.
Qed.

Lemma scale_byte (v bpp x : Z) : scale v bpp = Ok x -> 0 <= x < 256.
Proof.
  unfold scale. intros H. inv_bind H. injection H as <-.
  rewrite byte_mod. apply Z.mod_pos_bound. lia.
Qed.

Lemma store_Ok_inv {A} (xs xs' : list A) (i : Z) (x : A) :
  store xs i x = Ok xs' -> xs' = <[Z.to_nat i := x]> xs.
Proof. unfold store. intros H. inv_bind H. now injection H as <-. Qed.

(** Decoding a row keeps the shape of the raster. *)
Lemma rowLoop_shape (bpp : Z) (b : list Z) (row : Z) (n : nat) (a a' : Alpha) (i : Z) :
  rowLoop n bpp b row a i = Ok a' ->
  Stride a' = Stride a /\ RectMax a' = RectMax a
  /\ length (Pix a') = length (Pix a)
  /\ (Forall (fun v => 0 <= v < 256) (Pix a) ->
      Forall (fun v => 0 <= v < 256) (Pix a')).
Proof.
  revert a i. induction n as [|n IH]; intros a i H; simpl in H.
  - injection H as <-. auto.
  - inv_bind H. apply IH in H as (Hs & Hr & Hl & HF). simpl in *.
    apply store_Ok_inv in E1. subst a2. rewrite length_insert in Hl.
    repeat split; auto.
    intros HP. apply HF. apply Forall_insert; [exact HP|].
    eapply scale_byte; eauto.
Qed.

Lemma decodeRow_rasterOK (bpp : Z) (b : list Z) (row : Z) (a a' : Alpha) :
  decodeRow bpp b row a = Ok a' -> rasterOK a -> rasterOK a'.
Proof.
  unfold decodeRow, rasterOK. intros H (H1 & H2 & H3).
  apply rowLoop_shape in H as (Hs & Hr & Hl & HF).
  rewrite Hs, Hr, Hl. auto.
Qed.

Lemma make_len_Ok_inv (es n : Z) (m : nat) :
  make_len es n = Ok m -> 0 <= n /\ Z.of_nat m = n.
Proof.
  unfold make_len. destruct (Z.ltb_spec n 0); simpl; [discriminate|].
  destruct (maxAlloc <? es * n); [discriminate|].
  intros [= <-]. lia.
Qed.

(** What one line of the second loop does to the glyph sequence: nothing,
    or it rewrites the slot under the cursor. *)
Lemma glyphLine_slot (cm : option Charmap) (l : string) (st st' : pstate) :
  glyphLine cm l st = Ok st' ->
  (hasKeyword "STARTCHAR" l = false
   /\ Characters (font st') = Characters (font st))
  \/ (0 <= char st'
      /\ exists c c',
          Characters (font st) !! Z.to_nat (char st') = Some c
          /\ Characters (font st') = <[Z.to_nat (char st') := c']> (Characters (font st))
          /\ Name c' = (if hasKeyword "STARTCHAR" l
                        then default "" (argument l) else Name c)
          /\ (rasterOpt (AlphaOf c) -> rasterOpt (AlphaOf c'))).
Proof.
  intros H. unfold glyphLine in H. unfold hasKeyword.
  remember (keyword (Split l)) as kw eqn:Hkw.
  destruct (inBitmap st) eqn:Hmode; simpl in H.
  - destruct (String.eqb_spec kw "ENDCHAR") as [->|Hend].
    + injection H as <-. left. split; reflexivity.
    + inv_bind H. injection H as <-. simpl. right.
      destruct (String.eqb_spec kw "STARTCHAR") as [->|_].
      { symmetry in Hkw. apply DecodeString_STARTCHAR in Hkw. congruence. }
      apply updChar_first in E3 as (Hi & c & Hc & ->).
      split; [exact Hi|]. exists c, (setAlpha c (Some a2)).
      split; [exact Hc|]. split; [reflexivity|]. split; [reflexivity|].
      apply index_Ok_inv in E0 as [_ E0]. rewrite Hc in E0. injection E0 as <-.
      simpl. intros HR a' [= <-]. eapply decodeRow_rasterOK; [exact E2|].
      apply HR. destruct (AlphaOf c); [now injection E1 as ->|discriminate].
  - keyword_cases kw H.
    + (* STARTCHAR *)
      inv_bind H. injection H as <-. simpl. right.
      apply updChar_first in E0 as (Hi & c & Hc & ->).
      apply index_1_argument in E. rewrite E.
      split; [exact Hi|]. exists c, (setName c a).
      split; [exact Hc|]. split; [reflexivity|]. split; [reflexivity|]. auto.
    + (* ENCODING *)
      inv_bind H. injection H as <-. simpl. right.
      apply updChar_first in E1 as (Hi & c & Hc & ->).
      split; [exact Hi|]. eexists c, _.
      split; [exact Hc|]. split; [reflexivity|]. split; [reflexivity|]. auto.
    + (* DWIDTH *)
      inv_bind H. injection H as <-. simpl. right.
      apply updChar_first in E0 as (Hi & c & Hc & E0).
      eapply updChar_chain in E3 as [_ E3]; [|exact Hc|exact E0].
      split; [exact Hi|]. eexists c, _. split; [exact Hc|]. split; [exact E3|].
      split; [reflexivity|]. auto.
    + (* BBX *)
      inv_bind H. injection H as <-. simpl. right.
      apply updChar_first in E7 as (Hi & c & Hc & E7).
      eapply updChar_chain in E8 as [_ E8]; [|exact Hc|exact E7].
      eapply updChar_chain in E10 as [_ E10]; [|exact Hc|exact E8].
      split; [exact Hi|]. eexists c, _. split; [exact Hc|]. split; [exact E10|].
      split; [reflexivity|]. simpl. intros _ a' [= <-].
      apply make_len_Ok_inv in E9 as [Hpos Hn].
      unfold rasterOK. simpl. rewrite length_replicate.
      split; [reflexivity|]. split; [exact Hn|]. apply Forall_replicate. lia.
    + (* BITMAP *)
      injection H as <-. left. split; reflexivity.
    + injection H as <-. left. other_keywords. split; reflexivity.
Qed.

Lemma glyphLoop_slots (cm : option Charmap) (s : list string) (st st' : pstate) :
  glyphLoop cm s st = Ok st' ->
  -1 <= char st < 2 ^ 63 ->
  (forall i, char st' < Z.of_nat i ->
     Characters (font st') !! i = Characters (font st) !! i)
  /\ ((forall i c, Characters (font st) !! i = Some c -> rasterOpt (AlphaOf c)) ->
      (forall i c, Characters (font st') !! i = Some c -> rasterOpt (AlphaOf c)))
  /\ (forall q, Z.of_nat q <= char st ->
        Name <$> (Characters (font st') !! q) = Name <$> (Characters (font st) !! q))
  /\ (forall j name, startNames s !! j = Some name ->
        Name <$> (Characters (font st') !! (Z.to_nat (char st + 1) + j)%nat)
        = Some name).
Proof.
  revert st. induction s as [|l s IH]; intros st H Hc; simpl in H.
  - injection H as <-.
    split; [auto|]. split; [auto|]. split; [auto|].
    intros j name Hj. discriminate Hj.
  - apply bind_Ok_inv in H as (s1 & Hl & H).
    pose proof (glyphLine_Ok _ _ _ _ Hl Hc) as (_ & Hc1 & Hlen & Hch & _).
    pose proof (glyphLoop_Ok _ _ _ _ H Hc1) as (_ & _ & _ & Hch' & _).
    pose proof (countKeyword_nonneg "STARTCHAR" s) as Hnn.
    apply glyphLine_slot in Hl.
    specialize (IH _ H Hc1) as (IH1 & IH2 & IH3 & IH4).
    simpl startNames.
    destruct Hl as [[Hks Hsame]|(Hpos & c & c' & Hc0 & Hnew & Hname & Hras)].
    + (* the line leaves the sequence alone *)
      rewrite Hks in *. rewrite Hsame in *. rewrite Hch in *.
      split; [exact IH1|]. split; [exact IH2|]. split; [exact IH3|exact IH4].
    + pose proof (lookup_lt_Some _ _ _ Hc0) as Hlt.
      split; [|split; [|split]].
      * intros i Hi. rewrite IH1 by exact Hi. rewrite Hnew.
        apply list_lookup_insert_ne. lia.
      * intros Hall. apply IH2. intros i x. rewrite Hnew.
        destruct (decide (i = Z.to_nat (char s1))) as [->|Hne].
        -- rewrite list_lookup_insert_eq by exact Hlt. intros [= <-].
           apply Hras. eapply Hall; eauto.
        -- rewrite list_lookup_insert_ne by auto. apply Hall.
      * intros q Hq.
        rewrite IH3 by (destruct (hasKeyword "STARTCHAR" l); lia).
        rewrite Hnew.
        destruct (decide (q = Z.to_nat (char s1))) as [->|Hne].
        -- rewrite list_lookup_insert_eq by exact Hlt. rewrite Hc0. simpl.
           destruct (hasKeyword "STARTCHAR" l); [lia|]. now rewrite Hname.
        -- rewrite list_lookup_insert_ne by auto. reflexivity.
      * destruct (hasKeyword "STARTCHAR" l) eqn:Hk.
        -- intros [|j] name Hj; simpl in Hj.
           ++ injection Hj as <-. rewrite Nat.add_0_r.
              rewrite <- Hch. rewrite IH3 by lia.
              rewrite Hnew, list_lookup_insert_eq by exact Hlt. simpl.
              now rewrite Hname.
           ++ specialize (IH4 _ _ Hj).
              replace (Z.to_nat (char st + 1) + S j)%nat
                with (Z.to_nat (char s1 + 1) + j)%nat by lia.
              exact IH4.
        -- intros j name Hj. rewrite <- Hch. now apply IH4.
Qed.

Lemma scanGlobals_Characters (s : list string) (f f' : Font) (g g' : globals)
      (s' : list string) :
  scanGlobals s f g = Ok (f', g', s') ->
  Characters f = [] ->
  0 <= intArg "CHARS" (headerLines s) 0
  /\ Characters f' = replicate (Z.to_nat (intArg "CHARS" (headerLines s) 0)) zeroCharacter.
Proof.
  unfold intArg.
  revert f g. induction s as [|l s IH]; intros f g H Hf; simpl in H.
  - injection H as <- <- <-. simpl. split; [lia|exact Hf].
  - apply bind_Ok_inv in H as ([[f1 g1] brk] & E & H).
    apply globalsLine_Ok in E as (Hb & _ & _ & Hsame & Hnew).
    simpl headerLines. rewrite <- Hb. destruct brk.
    + injection H as <- <- <-. simpl. rewrite <- Hb.
      destruct (Hnew eq_refl) as (t & n & Ht & Hn & Hpos & Hc).
      apply index_1_argument in Ht. rewrite Ht. simpl. rewrite Hn. simpl. auto.
    + simpl. rewrite <- Hb. apply (IH _ _ H). rewrite Hsame; auto.
Qed.

(** The two loops of [ParseLines], with the lines each one reads. *)
Lemma ParseLines_phases (s : list string) (f : Font) :
  ParseLines s = Ok f ->
  exists f1 st,
    glyphLoop (findCharmap (FontEncoding f)) (glyphLines s) (startState f1) = Ok st
    /\ f = font st
    /\ CharMap f1 = ∅
    /\ 0 <= intArg "CHARS" (headerLines s) 0
    /\ Characters f1 = replicate (Z.to_nat (intArg "CHARS" (headerLines s) 0)) zeroCharacter.
Proof.
  intros H.
  apply ParseLines_Ok_inv in H as (f0 & g0 & s0 & st & H1 & H2 & ->).
  pose proof (glyphLoop_Ok _ _ _ _ H2 (startState_range _)) as (Hh & _).
  pose proof (scanGlobals_split _ _ _ _ _ _ H1) as [-> _].
  pose proof (scanGlobals_Characters _ _ _ _ _ _ H1 eq_refl) as [Hpos Hc].
  pose proof (scanGlobals_CharMap _ _ _ _ _ _ H1) as Hm.
  exists (finishGlobals f0 g0), st.
  unfold header in Hh. injection Hh as _ _ _ _ _ _ _ _ _ F10 _.
  rewrite F10. repeat split; auto.
Qed.

(** X11.  A parsed font has exactly as many Characters as [CHARS]
    declares (none without a [CHARS] line), however many glyph blocks
    follow; there are at most that many [STARTCHAR] lines, and the slots
    beyond the last block hold zero Characters: no name, no raster. *)
Theorem Parse_Characters_count (data : string) (f : Font) :
  Parse data = Ok f ->
  Z.of_nat (length (Characters f)) = intArg "CHARS" (headerLines (ScanLines data)) 0
  /\ countKeyword "STARTCHAR" (glyphLines (ScanLines data))
     <= intArg "CHARS" (headerLines (ScanLines data)) 0
  /\ (forall i,
        countKeyword "STARTCHAR" (glyphLines (ScanLines data)) <= Z.of_nat i
          < intArg "CHARS" (headerLines (ScanLines data)) 0 ->
        Characters f !! i = Some zeroCharacter).
Proof.
  unfold Parse. intros H.
  apply ParseLines_phases in H as (f1 & st & HL & -> & _ & Hpos & Hc).
  pose proof (glyphLoop_Ok _ _ _ _ HL (startState_range _))
    as (_ & _ & Hlen & Hch & Hlt & _).
  pose proof (glyphLoop_slots _ _ _ _ HL (startState_range _)) as (Hab & _).
  pose proof (countKeyword_nonneg "STARTCHAR" (glyphLines (ScanLines data))) as Hnn.
  simpl in *. rewrite Hc, length_replicate in *.
  split; [lia|]. split.
  - destruct (Z.eq_dec (countKeyword "STARTCHAR" (glyphLines (ScanLines data))) 0); lia.
  - intros i Hi. rewrite Hab by lia. apply lookup_replicate_2. lia.
Qed.

Lemma Parse_Characters_count_witness :
  match Parse (unlines ["CHARS 3"; "STARTCHAR A"; "ENDCHAR"]) with
  | Ok f => length (Characters f) = 3%nat /\ Characters f !! 2%nat = Some zeroCharacter
  | _ => False
  end.
Proof.
  destruct (Parse (unlines ["CHARS 3"; "STARTCHAR A"; "ENDCHAR"]))
    as [f| |] eqn:E; [|vm_compute in E; discriminate E..].
  destruct (Parse_Characters_count _ f E) as (H1 & _ & H3).
  split.
  - apply Nat2Z.inj. rewrite H1. reflexivity.
  - apply H3. vm_compute. split; [discriminate|reflexivity].
Defined.

(** X12.  The Characters are in source order: the Character at position
    [j] bears the name given by the [STARTCHAR] line number [j] of the
    glyph section, whatever lines come after it. *)
Theorem Parse_names_in_order (data : string) (f : Font) (j : nat) (name : string) :
  Parse data = Ok f ->
  startNames (glyphLines (ScanLines data)) !! j = Some name ->
  Name <$> (Characters f !! j) = Some name.
Proof.
  unfold Parse. intros H Hj.
  apply ParseLines_phases in H as (f1 & st & HL & -> & _).
  pose proof (glyphLoop_slots _ _ _ _ HL (startState_range _)) as (_ & _ & _ & Hn).
  exact (Hn j name Hj).
Qed.

Lemma Parse_names_in_order_witness :
  match Parse (unlines ["CHARS 2"; "STARTCHAR A"; "ENCODING 66"; "ENDCHAR";
                        "STARTCHAR B"; "ENCODING 65"; "ENDCHAR"]) with
  | Ok f => Name <$> (Characters f !! 1%nat) = Some "B"
  | _ => False
  end.
Proof.
  destruct (Parse (unlines ["CHARS 2"; "STARTCHAR A"; "ENCODING 66"; "ENDCHAR";
                            "STARTCHAR B"; "ENCODING 65"; "ENDCHAR"]))
    as [f| |] eqn:E; [|vm_compute in E; discriminate E..].
  apply (Parse_names_in_order _ f 1 "B" E). reflexivity.
Defined.

(** X13.  Every raster of a parsed font is well formed: its stride is its
    width, it holds width times height samples, and every sample is a
    byte. *)
Theorem Parse_rasters_well_formed (data : string) (f : Font)
        (i : nat) (c : Character) (a : Alpha) :
  Parse data = Ok f ->
  Characters f !! i = Some c ->
  AlphaOf c = Some a ->
  Stride a = (RectMax a).1
  /\ Z.of_nat (length (Pix a)) = int (Stride a * (RectMax a).2)
  /\ Forall (fun v => 0 <= v < 256) (Pix a).
Proof.
  unfold Parse. intros H Hc Ha.
  apply ParseLines_phases in H as (f1 & st & HL & -> & _ & _ & Hf1).
  pose proof (glyphLoop_slots _ _ _ _ HL (startState_range _)) as (_ & Hr & _).
  apply (Hr ltac:(simpl; rewrite Hf1; intros k x [-> _]%lookup_replicate y Hy;
                  discriminate Hy) i c Hc a Ha).
Qed.

Lemma Parse_rasters_well_formed_witness :
  match Parse sampleSource with
  | Ok f => forall c a, Characters f !! 0%nat = Some c -> AlphaOf c = Some a ->
                        length (Pix a) = 16%nat
  | _ => False
  end.
Proof.
  destruct (Parse sampleSource) as [f| |] eqn:E;
    [|vm_compute in E; discriminate E..].
  intros c a Hc Ha.
  destruct (Parse_rasters_well_formed sampleSource f 0 c a E Hc Ha) as (_ & H2 & _).
  vm_compute in E. injection E as <-.
  vm_compute in Hc. injection Hc as <-. injection Ha as <-.
  reflexivity.
Defined.

(* ================================================================== *)
(** ** Further properties: the code-point index *)
(* ================================================================== *)

Lemma glyphLoop_CharMap_dom (cm : option Charmap) (s : list string)
      (st st' : pstate) (r : Z) :
  glyphLoop cm s st = Ok st' ->
  -1 <= char st < 2 ^ 63 ->
  (is_Some (CharMap (font st') !! r) <->
   is_Some (CharMap (font st) !! r) \/ Exists (fun l => encodingOf cm l = Some r) s).
Proof.
  revert st. induction s as [|l s IH]; intros st H Hc; simpl in H.
  - injection H as <-. rewrite Exists_nil. tauto.
  - apply bind_Ok_inv in H as (s1 & Hl & H).
    apply glyphLine_Ok in Hl as (_ & Hc1 & _ & _ & _ & Hm & _); [|exact Hc].
    rewrite (IH _ H Hc1), Exists_cons, Hm.
    destruct (encodingOf cm l) as [r'|]; [|intuition congruence].
    destruct (decide (r' = r)) as [->|Hne].
    + rewrite lookup_insert_eq. intuition eauto.
    + rewrite lookup_insert_ne by exact Hne. intuition congruence.
Qed.

(** X14.  The index of a parsed font holds the code points that the
    well-formed [ENCODING] lines of the glyph section resolve to, and no
    other. *)
Theorem Parse_CharMap_domain (data : string) (f : Font) (r : Z) :
  Parse data = Ok f ->
  (is_Some (CharMap f !! r) <->
   Exists (fun l => encodingOf (findCharmap (FontEncoding f)) l = Some r)
          (glyphLines (ScanLines data))).
Proof.
  unfold Parse. intros H.
  apply ParseLines_phases in H as (f1 & st & HL & -> & Hm & _).
  rewrite (glyphLoop_CharMap_dom _ _ _ _ r HL (startState_range _)).
  simpl. rewrite Hm, lookup_empty. split; [|auto].
  intros [[x Hx]|He]; [discriminate|exact He].
Qed.

Lemma Parse_CharMap_domain_witness :
  match Parse sampleSource with
  | Ok f => is_Some (CharMap f !! 66)
  | _ => False
  end.
Proof.
  destruct (Parse sampleSource) as [f| |] eqn:E;
    [|vm_compute in E; discriminate E..].
  apply (Parse_CharMap_domain sampleSource f 66 E).
  assert (Hf : FontEncoding f = "-")
    by (vm_compute in E; injection E as <-; reflexivity).
  rewrite Hf.
  let g := eval vm_compute in (glyphLines (ScanLines sampleSource)) in
  change (glyphLines (ScanLines sampleSource)) with g.
  do 9 apply Exists_cons_tl. apply Exists_cons_hd. vm_compute. reflexivity.
Defined.

(* ================================================================== *)
(** ** Further properties: rows that do not fit *)
(* ================================================================== *)

Lemma index_cases {A} (xs : list A) (i : Z) :
  (exists x, index xs i = Ok x /\ 0 <= i < Z.of_nat (length xs))
  \/ (index xs i = Panic IndexOutOfRange
      /\ (i < 0 \/ Z.of_nat (length xs) <= i)).
Proof.
  unfold index. destruct (Z.ltb_spec i 0); [right; split; [reflexivity|lia]|].
  destruct (xs !! Z.to_nat i) as [x|] eqn:E.
  - left. exists x. split; [reflexivity|]. apply lookup_lt_Some in E. lia.
  - right. split; [reflexivity|]. apply lookup_ge_None in E. lia.
Qed.

Lemma bitAt_cases (b : list Z) (k : Z) :
  - 2 ^ 63 <= k < 2 ^ 63 ->
  (exists v, bitAt b k = Ok v /\ 0 <= k < 8 * Z.of_nat (length b))
  \/ (bitAt b k = Panic IndexOutOfRange
      /\ (k < 0 \/ 8 * Z.of_nat (length b) <= k)).
Proof.
  intros Hk. unfold bitAt.
  assert (Hs : Z.shiftr k 3 = k / 8) by (now rewrite Z.shiftr_div_pow2 by lia).
  destruct (index_cases b (Z.shiftr k 3)) as [(x & -> & Hx)|[-> Hx]]; simpl.
  - rewrite Hs in Hx.
    assert (0 <= k) by (destruct (Z.lt_ge_cases k 0) as [Hn|]; [|lia];
                        pose proof (Z.div_lt_upper_bound k 8 0 ltac:(lia) ltac:(lia)); lia).
    assert (k < 8 * Z.of_nat (length b)).
    { destruct (Z.lt_ge_cases k (8 * Z.of_nat (length b))) as [|Hge]; [lia|].
      pose proof (Z.div_le_lower_bound k 8 (Z.of_nat (length b)) ltac:(lia) ltac:(lia)).
      lia. }
    left. rewrite Z.rem_mod_nonneg by lia.
    pose proof (Z.mod_pos_bound k 8 eq_refl).
    rewrite int_small by lia.
    destruct (Z.ltb_spec (7 - k mod 8) 0); [lia|]. eauto.
  - right. split; [reflexivity|]. rewrite Hs in Hx. destruct Hx as [Hx|Hx].
    + left. destruct (Z.lt_ge_cases k 0); [lia|].
      pose proof (Z.div_pos k 8 ltac:(lia) ltac:(lia)). lia.
    + right. destruct (Z.lt_ge_cases k (8 * Z.of_nat (length b))) as [Hlt|]; [|lia].
      pose proof (Z.div_lt_upper_bound k 8 (Z.of_nat (length b)) ltac:(lia) ltac:(lia)).
      lia.
Qed.

(** The loop of one pixel returns a value or panics on the row's end. *)
Lemma sampleLoop_cases (b : list Z) (base : Z) (n : nat) (j val : Z) :
  (exists v, sampleLoop n b base j val = Ok v)
  \/ sampleLoop n b base j val = Panic IndexOutOfRange.
Proof.
  revert j val. induction n as [|n IH]; intros j val; simpl; [eauto|].
  destruct (bitAt_cases b (int (base + j)) (int_range _)) as [(v & -> & _)|[-> _]];
    simpl; auto.
Qed.

Lemma sampleLoop_short (b : list Z) (base : Z) (n : nat) (j val : Z) :
  0 <= base + j <= 8 * Z.of_nat (length b) ->
  8 * Z.of_nat (length b) < base + j + Z.of_nat n ->
  8 * Z.of_nat (length b) < 2 ^ 63 ->
  sampleLoop n b base j val = Panic IndexOutOfRange.
Proof.
  revert j val. induction n as [|n IH]; intros j val Hlo Hhi Hlen; [lia|].
  simpl. rewrite int_small by lia.
  destruct (bitAt_cases b (base + j) ltac:(lia)) as [(v & -> & Hk)|[-> _]];
    simpl; [|reflexivity].
  apply IH; lia.
Qed.

Lemma scale_Ok (val bpp : Z) : 1 <= bpp -> exists v, scale val bpp = Ok v.
Proof.
  intros Hb. unfold scale. destruct (Z.ltb_spec bpp 0); [lia|].
  rewrite Z.shiftl_mul_pow2, Z.mul_1_l by lia. unfold uint32.
  replace (2 ^ bpp) with (2 * 2 ^ (bpp - 1))
    by (rewrite <- Z.pow_succ_r by lia; f_equal; lia).
  change (2 ^ 32) with (2 * 2 ^ 31).
  rewrite Z.mul_mod_distr_l by lia.
  pose proof (Z.mod_pos_bound (2 ^ (bpp - 1)) (2 ^ 31) eq_refl) as Hm.
  set (m := 2 ^ (bpp - 1) mod 2 ^ 31) in *.
  destruct (Z.eqb_spec ((2 * m - 1) mod (2 * 2 ^ 31)) 0) as [E|_]; [|eauto].
  exfalso. destruct (Z.eq_dec m 0) as [->|Hne].
  - revert E. vm_compute. discriminate.
  - rewrite Z.mod_small in E by lia. lia.
Qed.

Lemma store_cases {A} (xs : list A) (i : Z) (x : A) :
  (exists xs', store xs i x = Ok xs' /\ length xs' = length xs)
  \/ store xs i x = Panic IndexOutOfRange.
Proof.
  unfold store. destruct ((i <? 0) || (Z.of_nat (length xs) <=? i)); [auto|].
  left. eexists. split; [reflexivity|]. apply length_insert.
Qed.

Lemma rowLoop_short (bpp : Z) (b : list Z) (row : Z) (n : nat) (a : Alpha) (i : Z) :
  1 <= bpp ->
  0 <= i -> i * bpp <= 8 * Z.of_nat (length b) ->
  8 * Z.of_nat (length b) < (i + Z.of_nat n) * bpp ->
  8 * Z.of_nat (length b) < 2 ^ 63 ->
  rowLoop n bpp b row a i = Panic IndexOutOfRange.
Proof.
  intros Hb. revert a i. induction n as [|n IH]; intros a i Hi Hlo Hhi Hlen.
  - exfalso. rewrite Z.add_0_r in Hhi. lia.
  - simpl rowLoop. rewrite (int_small (i * bpp)) by nia.
    destruct (Z.le_gt_cases ((i + 1) * bpp) (8 * Z.of_nat (length b))) as [Hfit|Hover].
    + destruct (sampleLoop_cases b (i * bpp) (Z.to_nat bpp) 0 0) as [[v ->]| ->];
        simpl; [|reflexivity].
      destruct (scale_Ok v bpp Hb) as [x ->]. simpl.
      destruct (store_cases (Pix a) (int (int (row * Stride a) + i)) x)
        as [(p & -> & _)| ->]; simpl; [|reflexivity].
      apply IH; lia.
    + rewrite sampleLoop_short; [reflexivity| | |exact Hlen].
      * lia.
      * rewrite Z2Nat.id by lia. lia.
Qed.

(** X15.  A bitmap row with fewer bits than width times depth makes the
    decoder panic with an index out of range: no error is returned and
    no pixel of the row counts. *)
Theorem decodeRow_short_row (bpp : Z) (b : list Z) (row : Z) (a : Alpha) :
  1 <= bpp ->
  8 * Z.of_nat (length b) < Stride a * bpp ->
  Z.of_nat (length b) <= maxAlloc ->
  decodeRow bpp b row a = Panic IndexOutOfRange.
Proof.
  intros Hb Hshort Hlen. unfold decodeRow.
  assert (Hma : maxAlloc * 8 < 2 ^ 63) by reflexivity.
  apply rowLoop_short; try lia; rewrite Z2Nat.id by nia; lia.
Qed.

Lemma decodeRow_short_row_witness :
  decodeRow 1 [0xFF] 0 {| Pix := replicate 9 0; Stride := 9; RectMax := (9, 1) |}
  = Panic IndexOutOfRange.
Proof.
  apply decodeRow_short_row; [lia | simpl; lia | vm_compute; discriminate].
Defined.

(** X16.  A bitmap row past the end of the raster (more rows than the
    height [BBX] gave) makes the decoder panic with an index out of
    range, for any glyph of positive width. *)
Theorem decodeRow_row_outside (bpp : Z) (b : list Z) (row : Z) (a : Alpha) :
  1 <= bpp ->
  0 < Stride a ->
  Z.of_nat (length (Pix a)) <= row * Stride a < 2 ^ 63 ->
  decodeRow bpp b row a = Panic IndexOutOfRange.
Proof.
  intros Hb Hs Hrow. unfold decodeRow.
  destruct (Z.to_nat (Stride a)) as [|n] eqn:En; [lia|]. simpl.
  destruct (sampleLoop_cases b (int (0 * bpp)) (Z.to_nat bpp) 0 0) as [[v ->]| ->];
    simpl; [|reflexivity].
  destruct (scale_Ok v bpp Hb) as [x ->]. simpl.
  rewrite (int_small (row * Stride a)) by lia.
  rewrite Z.add_0_r, (int_small (row * Stride a)) by lia.
  unfold store.
  destruct (Z.leb_spec (Z.of_nat (length (Pix a))) (row * Stride a)); [|lia].
  now rewrite orb_true_r.
Qed.

Lemma decodeRow_row_outside_witness :
  decodeRow 1 [0xFF] 1 {| Pix := replicate 8 0; Stride := 8; RectMax := (8, 1) |}
  = Panic IndexOutOfRange.
Proof.
  apply decodeRow_row_outside; [lia | simpl; lia | simpl; lia].
Defined.

(** X17.  A depth that is not positive, which a [SIZE] line can set,
    makes the decoder panic at the first pixel: depth 0 divides by zero,
    a negative depth is a negative shift amount. *)
Theorem decodeRow_bad_depth (bpp : Z) (b : list Z) (row : Z) (a : Alpha) :
  0 < Stride a ->
  bpp <= 0 ->
  decodeRow bpp b row a =
    Panic (if bpp =? 0 then DivideByZero else NegativeShift).
Proof.
  intros Hs Hb. unfold decodeRow.
  destruct (Z.to_nat (Stride a)) as [|n] eqn:En; [lia|]. simpl.
  replace (Z.to_nat bpp) with 0%nat by lia. simpl. unfold scale.
  destruct (Z.eqb_spec bpp 0) as [->|Hne].
  - reflexivity.
  - destruct (Z.ltb_spec bpp 0); [reflexivity|lia].
Qed.

Lemma decodeRow_bad_depth_witness :
  decodeRow 0 [0xFF] 0 {| Pix := replicate 8 0; Stride := 8; RectMax := (8, 1) |}
  = Panic DivideByZero.
Proof.
  apply (decodeRow_bad_depth 0); [simpl; lia | lia].
Defined.

(** The same through [Parse]: a row one byte short, a row too many, and
    depth 0. *)
Example Parse_bad_rows :
  Parse (unlines ["CHARS 1"; "STARTCHAR A"; "BBX 9 1 0 0"; "BITMAP"; "FF"])
    = Panic IndexOutOfRange
  /\ Parse (unlines ["CHARS 1"; "STARTCHAR A"; "BBX 8 1 0 0"; "BITMAP"; "FF"; "FF"])
    = Panic IndexOutOfRange
  /\ Parse (unlines ["SIZE 8 75 75 0"; "CHARS 1"; "STARTCHAR A"; "BBX 8 1 0 0";
                     "BITMAP"; "FF"])
    = Panic DivideByZero.
Proof. repeat split; vm_compute; reflexivity. Qed.

(* ================================================================== *)
(** ** Further properties: the cursor, the charset, the earlier decoder *)
(* ================================================================== *)

Lemma countKeyword_noKeyword (kw : string) (s : list string) :
  noKeyword kw s -> countKeyword kw s = 0.
Proof.
  induction 1 as [|l s Hl Hs IH]; simpl; [reflexivity|]. now rewrite Hl, IH.
Qed.

Lemma glyphLine_no_cursor (cm : option Charmap) (l : string) (st : pstate) :
  inBitmap st = false ->
  char st = -1 ->
  glyphProperty l ->
  glyphLine cm l st = Panic IndexOutOfRange.
Proof.
  intros Hm Hc Hp. unfold glyphLine. rewrite Hm, Hc.
  destruct Hp as [(t & more & v & Hs & Ha)
                 |[(t & more & Hs)
                  |(t1 & t2 & t3 & t4 & more & v1 & v2 & v3 & v4
                    & Hs & A1 & A2 & A3 & A4)]];
    rewrite Hs; simpl.
  - rewrite Ha. reflexivity.
  - destruct (Atoi t). reflexivity.
  - rewrite A1. simpl. rewrite A2. simpl. rewrite A3. simpl. rewrite A4. reflexivity.
Qed.

(** X18.  A well-formed [ENCODING], [DWIDTH] or [BBX] line met before the
    first [STARTCHAR] of the glyph section finds the cursor at -1: the
    second loop panics with an index out of range. *)
Theorem property_before_STARTCHAR
        (cm : option Charmap) (pre rest : list string) (l : string)
        (f : Font) (s1 : pstate) :
  noKeyword "STARTCHAR" pre ->
  glyphLoop cm pre (startState f) = Ok s1 ->
  inBitmap s1 = false ->
  glyphProperty l ->
  glyphLoop cm (pre ++ l :: rest) (startState f) = Panic IndexOutOfRange.
Proof.
  intros Hno Hpre Hm Hp.
  pose proof (glyphLoop_Ok _ _ _ _ Hpre (startState_range f)) as (_ & _ & _ & Hc & _).
  rewrite (countKeyword_noKeyword _ _ Hno) in Hc. simpl in Hc.
  rewrite glyphLoop_app, Hpre. simpl.
  now rewrite (glyphLine_no_cursor cm l s1 Hm Hc Hp).
Qed.

Lemma property_before_STARTCHAR_witness :
  glyphLoop None (["COMMENT x"] ++ "ENCODING 65" :: ["STARTCHAR A"])
            (startState (setCharacters initFont (replicate 1 zeroCharacter)))
  = Panic IndexOutOfRange.
Proof.
  set (st := startState (setCharacters initFont (replicate 1 zeroCharacter))).
  destruct (glyphLoop None ["COMMENT x"] st) as [s1| |] eqn:E1;
    [|vm_compute in E1; discriminate E1..].
  apply (property_before_STARTCHAR None ["COMMENT x"] ["STARTCHAR A"] "ENCODING 65"
                                   _ s1).
  - repeat constructor.
  - exact E1.
  - vm_compute in E1. injection E1 as <-. reflexivity.
  - left. exists "65", [], 65. split; reflexivity.
Defined.

Lemma asciiSpace_lowerByte (c : ascii) :
  asciiSpace c = false -> asciiSpace (lowerByte c) = false.
Proof.
  destruct c as [[] [] [] [] [] [] [] []]; vm_compute; congruence.
Qed.

Lemma TrimSpace_first_byte (c : ascii) (s : string) :
  asciiSpace c = false -> exists t, TrimSpace (String c s) = String c t.
Proof.
  intros Hc. unfold TrimSpace. simpl. rewrite Hc. simpl.
  destruct (TrimRight s); [rewrite Hc|]; eauto.
Qed.

Lemma findCharmap_first_byte (c : ascii) (s : string) :
  asciiSpace c = false -> lowerByte c <> "i"%char ->
  findCharmap (String c s) = None.
Proof.
  intros Hc Hi. destruct (findCharmap (String c s)) as [m|] eqn:E; [|reflexivity].
  exfalso. apply findCharmap_table in E. simpl in E.
  destruct (TrimSpace_first_byte (lowerByte c) (ToLower s)
                                 (asciiSpace_lowerByte c Hc)) as [t Ht].
  rewrite Ht in E. unfold knownCharsets in E.
  repeat (apply elem_of_cons in E as [E|E]; [injection E as E _; congruence|]).
  now apply elem_of_nil in E.
Qed.

(** X19.  The charset identifier is the registry, a dash and the
    encoding, with the tokens as they stand in the source.  When they
    are made of ASCII bytes and the registry is missing, or opens with a
    byte that is neither white space nor the letter I (a double quote, as
    in a quoted property value), no charmap is found and every code
    resolves to its conversion to [rune]. *)
Theorem foreign_registry_identity (reg enc : string) (code : Z) :
  isASCII reg = true -> isASCII enc = true ->
  foreignRegistry reg ->
  findCharmap (reg ++ "-" ++ enc) = None
  /\ charToRune (reg ++ "-" ++ enc) code = rune code.
Proof.
  intros _ _ Hr.
  assert (E : findCharmap (reg ++ "-" ++ enc) = None).
  { destruct reg as [|c reg]; simpl in *.
    - apply findCharmap_first_byte; [reflexivity|discriminate].
    - destruct Hr. now apply findCharmap_first_byte. }
  split; [exact E|]. unfold charToRune. now rewrite E.
Qed.

Lemma foreign_registry_identity_witness :
  findCharmap (String "034" ("ISO8859" ++ String "034" "") ++ "-"
               ++ String "034" ("1" ++ String "034" "")) = None
  /\ charToRune (String "034" ("ISO8859" ++ String "034" "") ++ "-"
                 ++ String "034" ("1" ++ String "034" "")) 233 = 233.
Proof.
  apply (foreign_registry_identity (String "034" ("ISO8859" ++ String "034" ""))
                                   (String "034" ("1" ++ String "034" "")) 233);
    [reflexivity | reflexivity | split; [reflexivity|discriminate]].
Defined.

Lemma land_pow2 (x s : Z) :
  0 <= s -> Z.land x (2 ^ s) = if Z.testbit x s then 2 ^ s else 0.
Proof.
  intros Hs. apply Z.bits_inj'. intros n Hn.
  rewrite Z.land_spec, Z.pow2_bits_eqb by lia.
  destruct (Z.eqb_spec s n) as [->|Hne].
  - destruct (Z.testbit x n); simpl.
    + rewrite Z.pow2_bits_eqb by lia. symmetry. apply Z.eqb_refl.
    + now rewrite Z.bits_0.
  - rewrite andb_false_r. destruct (Z.testbit x s).
    + rewrite Z.pow2_bits_eqb by lia. symmetry. now apply Z.eqb_neq.
    + now rewrite Z.bits_0.
Qed.

Lemma land_shiftr_1 (x s : Z) :
  0 <= s -> Z.land (Z.shiftr x s) 1 = if Z.testbit x s then 1 else 0.
Proof.
  intros Hs. rewrite land_1_mod, <- Z.bit0_mod, Z.shiftr_spec by lia.
  rewrite Z.add_0_l. now destruct (Z.testbit x s).
Qed.

Lemma Legacy_rowLoop_depth_1 (b : list Z) (row : Z) (n : nat) (a : Alpha) (i : Z) :
  0 <= i -> i + Z.of_nat n <= 2 ^ 63 ->
  Legacy.rowLoop n b row a i = rowLoop n 1 b row a i.
Proof.
  revert a i. induction n as [|n IH]; intros a i Hi Hn; [reflexivity|].
  simpl Legacy.rowLoop. simpl rowLoop.
  rewrite Z.mul_1_r, (int_small i), Z.add_0_r, (int_small i) by lia.
  unfold bitAt. rewrite Z.shiftr_div_pow2 by lia. change (2 ^ 3) with 8.
  rewrite Z.quot_div_nonneg by lia.
  destruct (index b (i / 8)) as [x| |]; simpl; try reflexivity.
  rewrite Z.rem_mod_nonneg by lia.
  pose proof (Z.mod_pos_bound i 8 eq_refl) as Hm.
  set (s := 7 - i mod 8) in *.
  rewrite (int_small s) by lia.
  destruct (Z.ltb_spec s 0); [lia|]. simpl.
  unfold Legacy.uint. rewrite (Z.mod_small s) by lia.
  rewrite Z.shiftl_mul_pow2, Z.mul_1_l by lia.
  assert (Hp : 1 <= 2 ^ s <= 128).
  { split.
    - apply Z.lt_succ_r. apply Z.lt_pred_lt_succ. apply Z.pow_pos_nonneg; lia.
    - change 128 with (2 ^ 7). apply Z.pow_le_mono_r; lia. }
  rewrite (byte_small (2 ^ s)) by lia.
  rewrite land_pow2, land_shiftr_1 by lia.
  destruct (Z.testbit x s).
  - destruct (Z.eqb_spec (2 ^ s) 0); [lia|].
    change (byte (uint32 (uint32 (byte (Z.lor (byte (Z.shiftl 0 1)) 1)) * 255)
                  / uint32 (uint32 (Z.shiftl 1 1) - 1))) with 255.
    destruct (store _ _ 255); simpl; auto. apply IH; lia.
  - change (byte (uint32 (uint32 (byte (Z.lor (byte (Z.shiftl 0 1)) 0)) * 255)
                  / uint32 (uint32 (Z.shiftl 1 1) - 1))) with 0.
    destruct (Z.eqb_spec 0 0); [|lia].
    destruct (store _ _ 0); simpl; auto. apply IH; lia.
Qed.

(** X20.  At depth 1 the decoder does exactly what the earlier revision
    of the loop did, which tested one bit and stored 0x00 or 0xff: same
    raster, same panics. *)
Theorem Legacy_decodeRow_depth_1 (b : list Z) (row : Z) (a : Alpha) :
  Stride a < 2 ^ 63 ->
  Legacy.decodeRow b row a = decodeRow 1 b row a.
Proof.
  intros Hs. unfold Legacy.decodeRow, decodeRow.
  destruct (Z.le_gt_cases 0 (Stride a)).
  - apply Legacy_rowLoop_depth_1; lia.
  - replace (Z.to_nat (Stride a)) with 0%nat by lia. reflexivity.
Qed.

Lemma Legacy_decodeRow_depth_1_witness :
  Legacy.decodeRow [0xA5] 0 {| Pix := replicate 8 0; Stride := 8; RectMax := (8, 1) |}
  = decodeRow 1 [0xA5] 0 {| Pix := replicate 8 0; Stride := 8; RectMax := (8, 1) |}.
Proof. apply Legacy_decodeRow_depth_1. simpl. lia. Defined.

(* ================================================================== *)
(** ** Further properties: a whole glyph block *)
(* ================================================================== *)

Lemma decodeRows_spec (bpp w : Z) (bs : list (list Z)) (y : Z) (a : Alpha) :
  1 <= bpp <= 8 -> 0 <= y -> 0 <= w -> Stride a = w ->
  (y + Z.of_nat (length bs)) * w <= Z.of_nat (length (Pix a)) ->
  Z.of_nat (length (Pix a)) <= maxAlloc ->
  Forall (fun b => w * bpp <= 8 * Z.of_nat (length b)
                   /\ Z.of_nat (length b) <= maxAlloc) bs ->
  exists a',
    decodeRows bpp bs y a = Ok a'
    /\ Stride a' = w /\ RectMax a' = RectMax a
    /\ length (Pix a') = length (Pix a)
    /\ (forall j b x, bs !! j = Some b -> 0 <= x < w ->
          Pix a' !! Z.to_nat ((y + Z.of_nat j) * w + x) = Some (pixelOf bpp b x))
    /\ (forall q, Z.of_nat q < y * w -> Pix a' !! q = Pix a !! q).
Proof.
  intros Hb. assert (Hma : maxAlloc * 8 < 2 ^ 63) by reflexivity.
  assert (Hma' : maxAlloc < 2 ^ 63) by reflexivity.
  revert y a. induction bs as [|b bs IH]; intros y a Hy Hw Hs Hfit Hlen HF.
  - exists a. simpl. repeat split; auto. intros j b x Hj. discriminate Hj.
  - inversion HF as [|? ? [Hbits Hbl] HF']; subst.
    simpl length in Hfit. rewrite Nat2Z.inj_succ in Hfit.
    destruct (rowLoop_spec bpp b y (Z.to_nat (Stride a)) a 0)
      as (a1 & Hrun & Hs1 & Hr1 & Hl1 & Hin1 & Hout1); try lia; try nia.
    destruct (IH (y + 1) a1) as (a' & Hrun' & Hs' & Hr' & Hl' & Hin' & Hout');
      try lia; try (rewrite ?Hl1; nia); auto.
    exists a'. simpl. unfold decodeRow at 1. rewrite Hrun. simpl.
    rewrite Hrun'. split; [reflexivity|].
    split; [lia|]. split; [congruence|]. split; [congruence|]. split.
    + intros [|j] b' x Hj Hx; simpl in Hj.
      * injection Hj as <-. rewrite Z.add_0_r.
        rewrite Hout' by (rewrite Z2Nat.id by nia; nia).
        unfold pixelOf. apply Hin1. lia.
      * specialize (Hin' j b' x Hj Hx).
        replace (y + Z.of_nat (S j)) with (y + 1 + Z.of_nat j) by lia. exact Hin'.
    + intros q Hq. rewrite Hout' by nia. apply Hout1. nia.
Qed.

Lemma updChar_Ok (f : Font) (i : Z) (upd : Character -> Character) (c : Character) :
  0 <= i -> Characters f !! Z.to_nat i = Some c ->
  updChar f i upd = Ok (setCharacters f (<[Z.to_nat i := upd c]> (Characters f))).
Proof. intros Hi Hc. unfold updChar. now rewrite (index_Ok _ _ _ Hi Hc). Qed.

Lemma DecodeString_ENDCHAR (l : string) :
  keyword (Split l) = "ENDCHAR" -> DecodeString l = Err (InvalidByteError "N").
Proof. intros H. apply keyword_prefix in H as [tail ->]. reflexivity. Qed.

Lemma setAlpha_same (c : Character) (a : Alpha) :
  AlphaOf c = Some a -> setAlpha c (Some a) = c.
Proof. destruct c; simpl. now intros ->. Qed.

(** The rows of a bitmap, as the second loop reads them. *)
Lemma glyphLoop_rows (cm : option Charmap) (rows : list string) (bs : list (list Z))
      (st : pstate) (c : Character) (a a' : Alpha) :
  Forall2 (fun l b => DecodeString l = Ok b) rows bs ->
  inBitmap st = true -> 0 <= char st ->
  Characters (font st) !! Z.to_nat (char st) = Some c ->
  AlphaOf c = Some a ->
  -1 <= row st -> row st + Z.of_nat (length rows) < 2 ^ 62 ->
  decodeRows (BPP (font st)) bs (row st + 1) a = Ok a' ->
  exists st',
    glyphLoop cm rows st = Ok st'
    /\ inBitmap st' = true /\ char st' = char st
    /\ CharMap (font st') = CharMap (font st)
    /\ Characters (font st') !! Z.to_nat (char st) = Some (setAlpha c (Some a')).
Proof.
  intros HF. revert st c a.
  induction HF as [|l b rows bs Hl HF IH]; intros st c a Hm Hc Hs Ha Hr Hrl Hd.
  - simpl in Hd. injection Hd as <-. exists st. simpl.
    rewrite (setAlpha_same c a Ha). auto.
  - simpl in Hd. apply bind_Ok_inv in Hd as (a1 & Hd1 & Hd).
    simpl length in Hrl. rewrite Nat2Z.inj_succ in Hrl.
    set (s1 := {| font := setCharacters (font st)
                            (<[Z.to_nat (char st) := setAlpha c (Some a1)]>
                               (Characters (font st)));
                  char := char st; row := row st + 1; inBitmap := true |}).
    assert (E : glyphLine cm l st = Ok s1).
    { unfold glyphLine. rewrite Hm. simpl.
      destruct (String.eqb_spec (keyword (Split l)) "ENDCHAR") as [He|_].
      { apply DecodeString_ENDCHAR in He. congruence. }
      rewrite Hl. simpl. rewrite (index_Ok _ _ _ Hc Hs). simpl.
      rewrite Ha. simpl. rewrite (int_small (row st + 1)) by lia.
      rewrite Hd1. simpl. rewrite (updChar_Ok _ _ _ _ Hc Hs). reflexivity. }
    pose proof (lookup_lt_Some _ _ _ Hs) as Hlt.
    destruct (IH s1 (setAlpha c (Some a1)) a1) as (st' & Hrun & Hm' & Hc' & Hmap & Hslot);
      try (subst s1; simpl; auto; lia).
    { subst s1. simpl. now apply list_lookup_insert_eq. }
    exists st'. simpl. rewrite E. simpl.
    split; [exact Hrun|]. split; [exact Hm'|]. split; [exact Hc'|].
    split; [exact Hmap|]. exact Hslot.
Qed.

(** X21.  A glyph block in the usual order ([STARTCHAR], [ENCODING],
    [DWIDTH], [BBX], [BITMAP], one row of hexadecimal digits per raster
    row, [ENDCHAR]) read with a free slot ahead and a depth from 1 to 8:
    the loop accepts it, moves the cursor one slot on, registers the
    resolved code point for that slot, and leaves there the Character
    with the name, code point, advance and origin offset of the block and
    a raster of the declared size in which pixel [x] of row [y] is the
    sample [x] of line [y]. *)
Theorem glyph_block
        (cm : option Charmap) (st : pstate) (c0 : Character)
        (l1 l2 l3 l4 l5 l6 : string) (rows : list string) (bs : list (list Z))
        (name t tx ty tw th tlx tly : string) (m1 m2 m3 m4 : list string)
        (code dx dy w h lx ly : Z) :
  inBitmap st = false ->
  -1 <= char st < 2 ^ 62 ->
  Characters (font st) !! Z.to_nat (char st + 1) = Some c0 ->
  1 <= BPP (font st) <= 8 ->
  Split l1 = "STARTCHAR" :: name :: m1 ->
  Split l2 = "ENCODING" :: t :: m2 -> Atoi t = (code, None) ->
  Split l3 = "DWIDTH" :: tx :: ty :: m3 ->
  Atoi tx = (dx, None) -> Atoi ty = (dy, None) ->
  Split l4 = "BBX" :: tw :: th :: tlx :: tly :: m4 ->
  Atoi tw = (w, None) -> Atoi th = (h, None) ->
  Atoi tlx = (lx, None) -> Atoi tly = (ly, None) ->
  0 <= w -> 0 <= h < 2 ^ 62 -> w * h <= maxAlloc ->
  keyword (Split l5) = "BITMAP" ->
  Z.of_nat (length rows) = h ->
  Forall2 (fun l b => DecodeString l = Ok b
                      /\ w * BPP (font st) <= 8 * Z.of_nat (length b)
                      /\ Z.of_nat (length b) <= maxAlloc) rows bs ->
  hasKeyword "ENDCHAR" l6 = true ->
  exists st' c a,
    glyphLoop cm (l1 :: l2 :: l3 :: l4 :: l5 :: rows ++ [l6]) st = Ok st'
    /\ inBitmap st' = false
    /\ char st' = char st + 1
    /\ CharMap (font st') !! (match cm with
                              | Some m => DecodeByte m (byte code)
                              | None => rune code
                              end) = Some (Z.to_nat (char st + 1))
    /\ Characters (font st') !! Z.to_nat (char st + 1) = Some c
    /\ Name c = name
    /\ Encoding c = (match cm with
                     | Some m => DecodeByte m (byte code)
                     | None => rune code
                     end)
    /\ Advance c = (dx, dy)
    /\ LowerPoint c = (lx, ly)
    /\ AlphaOf c = Some a
    /\ Stride a = w /\ RectMax a = (w, h)
    /\ Z.of_nat (length (Pix a)) = w * h
    /\ (forall y b x, bs !! y = Some b -> 0 <= x < w ->
          Pix a !! Z.to_nat (Z.of_nat y * w + x)
          = Some (pixelOf (BPP (font st)) b x)).
Proof.
  intros Hm Hc Hslot Hbpp S1 S2 A2 S3 A3x A3y S4 Aw Ah Alx Aly Hw Hh Hwh
         K5 Hrows HF K6.
  assert (Hma : maxAlloc < 2 ^ 63) by reflexivity.
  pose proof (lookup_lt_Some _ _ _ Hslot) as Hlt.
  set (k := Z.to_nat (char st + 1)) in *.
  set (r := match cm with Some m => DecodeByte m (byte code) | None => rune code end).
  set (a0 := {| Pix := replicate (Z.to_nat (w * h)) 0; Stride := w; RectMax := (w, h) |}).
  set (c5 := {| Name := name; Encoding := r; Advance := (dx, dy);
                AlphaOf := Some a0; LowerPoint := (lx, ly) |}).
  set (s5 := {| font := setCharMap (setCharacters (font st)
                                      (<[k := c5]> (Characters (font st))))
                                   (<[r := k]> (CharMap (font st)));
                char := char st + 1; row := -1; inBitmap := true |}).
  (* the five lines before the rows *)
  assert (E5 : glyphLoop cm (l1 :: l2 :: l3 :: l4 :: l5 :: rows ++ [l6]) st
               = glyphLoop cm (rows ++ [l6]) s5).
  { simpl glyphLoop.
    assert (E1 : glyphLine cm l1 st
                 = Ok {| font := setCharacters (font st)
                                   (<[k := setName c0 name]> (Characters (font st)));
                         char := char st + 1; row := row st; inBitmap := false |}).
    { unfold glyphLine. rewrite Hm, S1. simpl.
      rewrite (int_small (char st + 1)) by lia.
      rewrite (updChar_Ok _ _ _ c0) by (lia || exact Hslot). reflexivity. }
    rewrite E1. simpl Go.bind.
    assert (E2 : forall f row0 c,
               Characters f !! k = Some c ->
               glyphLine cm l2 {| font := f; char := char st + 1; row := row0;
                                  inBitmap := false |}
               = Ok {| font := setCharMap
                                 (setCharacters f (<[k := setEncoding c r]> (Characters f)))
                                 (<[r := k]> (CharMap f));
                       char := char st + 1; row := row0; inBitmap := false |}).
    { intros f row0 c Hf. unfold glyphLine. rewrite S2. simpl. rewrite A2. simpl.
      rewrite (updChar_Ok _ _ _ c) by (lia || exact Hf). reflexivity. }
    rewrite (E2 _ _ (setName c0 name))
      by (simpl; now apply list_lookup_insert_eq).
    simpl Go.bind.
    assert (E3 : forall f row0 c,
               Characters f !! k = Some c ->
               glyphLine cm l3 {| font := f; char := char st + 1; row := row0;
                                  inBitmap := false |}
               = Ok {| font := setCharacters f
                                 (<[k := setAdvance c (dx, dy)]> (Characters f));
                       char := char st + 1; row := row0; inBitmap := false |}).
    { intros f row0 c Hf. pose proof (lookup_lt_Some _ _ _ Hf).
      unfold glyphLine. rewrite S3. simpl. rewrite A3x.
      rewrite (updChar_Ok _ _ _ c) by (lia || exact Hf). simpl. rewrite A3y.
      erewrite updChar_Ok; [|lia|simpl; now apply list_lookup_insert_eq].
      simpl. unfold withFont, setCharacters. simpl.
      now rewrite list_insert_insert_eq. }
    rewrite (E3 _ _ (setEncoding (setName c0 name) r))
      by (simpl; apply list_lookup_insert_eq; now rewrite length_insert).
    simpl Go.bind.
    assert (E4 : forall f row0 c,
               Characters f !! k = Some c ->
               glyphLine cm l4 {| font := f; char := char st + 1; row := row0;
                                  inBitmap := false |}
               = Ok {| font := setCharacters f
                                 (<[k := setAlpha (setLowerPoint c (lx, ly)) (Some a0)]>
                                    (Characters f));
                       char := char st + 1; row := row0; inBitmap := false |}).
    { intros f row0 c Hf. pose proof (lookup_lt_Some _ _ _ Hf).
      unfold glyphLine. rewrite S4. simpl.
      rewrite Aw. simpl. rewrite Ah. simpl. rewrite Alx. simpl. rewrite Aly. simpl.
      rewrite (updChar_Ok _ _ _ c) by (lia || exact Hf). simpl.
      erewrite updChar_Ok; [|lia|simpl; now apply list_lookup_insert_eq].
      simpl. unfold make_len. rewrite (int_small (w * h)) by nia.
      destruct (Z.ltb_spec (w * h) 0); [nia|].
      destruct (Z.ltb_spec maxAlloc (1 * (w * h))); [lia|]. simpl.
      erewrite updChar_Ok;
        [|lia|simpl; apply list_lookup_insert_eq; now rewrite length_insert].
      simpl. unfold withFont, setCharacters. simpl.
      now rewrite !list_insert_insert_eq. }
    rewrite (E4 _ _ (setAdvance (setEncoding (setName c0 name) r) (dx, dy)))
      by (simpl; apply list_lookup_insert_eq; now rewrite !length_insert).
    simpl Go.bind.
    assert (E5' : forall s, inBitmap s = false ->
                glyphLine cm l5 s
                = Ok {| font := font s; char := char s; row := -1; inBitmap := true |}).
    { intros s Hs. unfold glyphLine. rewrite Hs, K5. reflexivity. }
    rewrite E5' by reflexivity. simpl Go.bind.
    f_equal. subst s5. unfold setCharMap, setCharacters. simpl.
    rewrite !list_insert_insert_eq. reflexivity. }
  (* the rows *)
  assert (HFd : Forall2 (fun l b => DecodeString l = Ok b) rows bs).
  { eapply Forall2_impl; [exact HF|]. simpl. tauto. }
  assert (HFb : Forall (fun b => w * BPP (font st) <= 8 * Z.of_nat (length b)
                                 /\ Z.of_nat (length b) <= maxAlloc) bs).
  { clear -HF. induction HF; constructor; tauto. }
  pose proof (Forall2_length _ _ _ HF) as Hlen.
  destruct (decodeRows_spec (BPP (font st)) w bs 0 a0)
    as (a & Hdec & Hs & Hr & Hl & Hin & _); auto; try lia;
    try (subst a0; simpl; rewrite length_replicate; nia).
  destruct (glyphLoop_rows cm rows bs s5 c5 a0 a HFd)
    as (s6 & Hrun & Hm6 & Hc6 & Hmap6 & Hslot6);
    try (subst s5; simpl; auto; lia).
  { subst s5. simpl. now apply list_lookup_insert_eq. }
  (* the last line *)
  exists {| font := font s6; char := char s6; row := row s6; inBitmap := false |},
         (setAlpha c5 (Some a)), a.
  split.
  { rewrite E5, glyphLoop_app, Hrun. simpl. unfold glyphLine.
    rewrite Hm6. simpl. unfold hasKeyword in K6. rewrite K6. reflexivity. }
  simpl. rewrite Hmap6, Hc6. subst s5. simpl in *.
  split; [reflexivity|]. split; [reflexivity|].
  split; [apply lookup_insert_eq|].
  split; [exact Hslot6|].
  repeat (split; [reflexivity|]).
  split; [exact Hs|]. split; [exact Hr|]. split.
  - rewrite Hl. subst a0. simpl. rewrite length_replicate. lia.
  - intros y b x Hy Hx. specialize (Hin y b x Hy Hx).
    now rewrite Z.add_0_l in Hin.
Qed.


Lemma glyph_block_witness :
  exists st' c a,
    glyphLoop None ["STARTCHAR A"; "ENCODING 65"; "DWIDTH 8 0"; "BBX 8 2 1 0";
                    "BITMAP"; "FF"; "81"; "ENDCHAR"]
              (startState (setCharacters initFont (replicate 1 zeroCharacter)))
    = Ok st'
    /\ Characters (font st') !! 0%nat = Some c
    /\ Name c = "A" /\ Encoding c = 65 /\ Advance c = (8, 0)
    /\ AlphaOf c = Some a
    /\ Pix a !! 8%nat = Some 255 /\ Pix a !! 9%nat = Some 0.
Proof.
  pose proof (glyph_block None
              (startState (setCharacters initFont (replicate 1 zeroCharacter)))
              zeroCharacter
              "STARTCHAR A" "ENCODING 65" "DWIDTH 8 0" "BBX 8 2 1 0" "BITMAP"
              "ENDCHAR" ["FF"; "81"] [[255]; [129]]
              "A" "65" "8" "0" "8" "2" "1" "0" [] [] [] []
              65 8 0 8 2 1 0) as G.
  do 3 (specialize (G ltac:(first [reflexivity | simpl; lia]))).
  specialize (G ltac:(simpl; lia)).
  do 11 (specialize (G ltac:(vm_compute; reflexivity))).
  specialize (G ltac:(lia) ltac:(lia) ltac:(unfold maxAlloc; lia) eq_refl eq_refl).
  assert (HF : Forall2 (fun l b => DecodeString l = Ok b
                      /\ 8 * 1 <= 8 * Z.of_nat (length b)
                      /\ Z.of_nat (length b) <= maxAlloc)
                 ["FF"; "81"] [[255]; [129]]).
  { repeat constructor; unfold maxAlloc; simpl; lia. }
  specialize (G HF eq_refl).
  destruct G as (st' & c & a & Hrun & _ & _ & _ & Hc & Hn & He & Hadv & _ & Ha & _ & _ & _ & Hpix).
  exists st', c, a.
  split; [exact Hrun|]. split; [exact Hc|].
  split; [exact Hn|]. split; [exact He|]. split; [exact Hadv|].
  split; [exact Ha|]. split.
  + apply (Hpix 1%nat [129] 0); [reflexivity | lia].
  + apply (Hpix 1%nat [129] 1); [reflexivity | lia].
Defined.
